(** * BAautoCA: the power-balance splitter design algorithm

    A shallow embedding of [SplitterAlgorithm] (src/main.js) and of the tree
    construction of [SplitterVisualizer] (src/visualizer.js), and the
    properties that the specification states about them.

    Numbers.  A JavaScript number is modelled as an exact rational, extended
    with the three special values that the program can produce from rational
    inputs: [Infinity] and [-Infinity] (division by zero, [Math.max()] and
    [Math.min()] of no arguments, the [Infinity] returned by [getDepth]) and
    [NaN] (0/0, Infinity - Infinity, 0 * Infinity).  Rounding of binary
    floating point is not modelled, and -0 is identified with 0.  The
    caller-supplied quantities (target, base power, supply rate, battery power
    and consumption) are finite, so they have type [Q]; [maxDepth] and the
    loop counters are natural numbers.

    Objects.  The candidate solutions are objects that the ranking labels in
    place and reaches through several arrays; they live in a store and the
    arrays hold positions in it.

    Recursion.  The closures [assign] and [searchCombinations] recurse on an
    index into an array; here they recurse on the part of the array from that
    index on.  Where the JavaScript recursion is not structural the function
    takes fuel, and a lemma shows that the fuel its caller gives is enough.

    Text.  A description is built line by line; a line is a value of [Line]
    and [render] gives its text. *)

From Stdlib Require Import QArith Qpower Qround Qabs Lqa.
From Stdlib Require Import ZArith NArith Lia Bool List.
From Stdlib Require Import Ascii String DecimalString.
From Stdlib Require Import Sorted Permutation.
Import ListNotations.

Open Scope Q_scope.

(* ================================================================== *)
(** ** Numbers                                                         *)
(* ================================================================== *)

Module JS.

Inductive num : Type :=
| Fin (q : Q)
| PInf
| NInf
| NaN.

Definition Qlt_bool (x y : Q) : bool := negb (Qle_bool y x).

(** [x < y], [x <= y], [x > y], [x >= y]: false as soon as one side is NaN. *)
Definition lt (x y : num) : bool :=
  match x, y with
  | Fin a, Fin b => Qlt_bool a b
  | Fin _, PInf | NInf, Fin _ | NInf, PInf => true
  | _, _ => false
  end.

Definition le (x y : num) : bool :=
  match x, y with
  | Fin a, Fin b => Qle_bool a b
  | Fin _, PInf | NInf, Fin _ | NInf, PInf | PInf, PInf | NInf, NInf => true
  | _, _ => false
  end.

Definition gt (x y : num) : bool := lt y x.
Definition ge (x y : num) : bool := le y x.

Definition opp (x : num) : num :=
  match x with
  | Fin a => Fin (- a)
  | PInf => NInf
  | NInf => PInf
  | NaN => NaN
  end.

Definition add (x y : num) : num :=
  match x, y with
  | Fin a, Fin b => Fin (a + b)
  | NaN, _ | _, NaN => NaN
  | PInf, NInf | NInf, PInf => NaN
  | PInf, _ | _, PInf => PInf
  | NInf, _ | _, NInf => NInf
  end.

Definition sub (x y : num) : num :=
  match x, y with
  | Fin a, Fin b => Fin (a - b)
  | _, _ => add x (opp y)
  end.

(** The sign of an infinite product or quotient. *)
Definition signed (positive : bool) : num := if positive then PInf else NInf.

Definition mul (x y : num) : num :=
  match x, y with
  | Fin a, Fin b => Fin (a * b)
  | NaN, _ | _, NaN => NaN
  | Fin a, PInf | PInf, Fin a =>
      if Qeq_bool a 0 then NaN else signed (Qlt_bool 0 a)
  | Fin a, NInf | NInf, Fin a =>
      if Qeq_bool a 0 then NaN else signed (Qlt_bool a 0)
  | PInf, PInf | NInf, NInf => PInf
  | PInf, NInf | NInf, PInf => NInf
  end.

Definition div (x y : num) : num :=
  match x, y with
  | Fin a, Fin b =>
      if Qeq_bool b 0
      then (if Qeq_bool a 0 then NaN else signed (Qlt_bool 0 a))
      else Fin (a / b)
  | NaN, _ | _, NaN => NaN
  | Fin _, PInf | Fin _, NInf => Fin 0
  | PInf, Fin b => signed (Qle_bool 0 b)
  | NInf, Fin b => signed (Qlt_bool b 0)
  | _, _ => NaN
  end.

Definition is_nan (x : num) : bool :=
  match x with NaN => true | _ => false end.

(** [Math.min(x, y)] and [Math.max(x, y)]: NaN when an argument is. *)
Definition min2 (x y : num) : num :=
  if is_nan x || is_nan y then NaN else if le x y then x else y.

Definition max2 (x y : num) : num :=
  if is_nan x || is_nan y then NaN else if le x y then y else x.

(** [Math.min(...l)] is [Infinity] and [Math.max(...l)] is [-Infinity]
    when [l] is empty. *)
Definition Math_min (l : list num) : num := fold_left min2 l PInf.
Definition Math_max (l : list num) : num := fold_left max2 l NInf.

Definition Math_abs (x : num) : num :=
  match x with
  | Fin a => Fin (Qabs a)
  | PInf | NInf => PInf
  | NaN => NaN
  end.

Definition Math_ceil (x : num) : num :=
  match x with Fin a => Fin (inject_Z (Qceiling a)) | _ => x end.

Definition Math_floor (x : num) : num :=
  match x with Fin a => Fin (inject_Z (Qfloor a)) | _ => x end.

(** [Math.pow(x, n)] for a finite base and a loop counter [n]. *)
Definition Math_pow (x : Q) (n : nat) : Q := x ^ Z.of_nat n.

(** A value used as a condition: 0 and NaN are falsy. *)
Definition truthy (x : num) : bool :=
  match x with
  | Fin a => negb (Qeq_bool a 0)
  | NaN => false
  | _ => true
  end.

(** [x || y] on numbers. *)
Definition or_else (x y : num) : num := if truthy x then x else y.

(** [Array.prototype.sort(cmp)]: a stable sort; [a] is placed after [b]
    exactly when [cmp a b > 0] (a NaN result counts as 0).  Written as the
    stable insertion sort. *)
Section Sort.
Context {A : Type} (cmp : A -> A -> num).

Definition after (a b : A) : bool := gt (cmp a b) (Fin 0).

Fixpoint insert (x : A) (l : list A) : list A :=
  match l with
  | [] => [x]
  | y :: l' => if after x y then y :: insert x l' else x :: l
  end.

Fixpoint sort (l : list A) : list A :=
  match l with
  | [] => []
  | x :: l' => insert x (sort l')
  end.
End Sort.

(** [n.toString()] of a non-negative integer. *)
Definition string_of_nat (n : nat) : string :=
  NilZero.string_of_uint (Nat.to_uint n).

Definition string_of_N (n : N) : string :=
  NilZero.string_of_uint (N.to_uint n).

(** ["s".repeat(n)] *)
Fixpoint repeat_string (s : string) (n : nat) : string :=
  match n with
  | O => EmptyString
  | S n' => (s ++ repeat_string s n')%string
  end.

(** [x.toFixed(f)] of a finite number: the nearest multiple of 10^-f, the
    larger one on a tie; a negative [x] is printed as "-" and [-x]. *)
Definition toFixed (f : nat) (x : Q) : string :=
  let n := Z.to_N (Qfloor (Qabs x * inject_Z (10 ^ Z.of_nat f) + 0.5)) in
  let digits := string_of_N n in
  let padded :=
    (repeat_string "0" (S f - String.length digits) ++ digits)%string in
  let k := (String.length padded - f)%nat in
  ((if Qlt_bool x 0 then "-" else "") ++
   substring 0 k padded ++
   (if (f =? 0)%nat then "" else "." ++ substring k f padded))%string.

End JS.

Import JS.
Coercion Fin : Q >-> num.

(* ================================================================== *)
(** ** Data model                                                      *)
(* ================================================================== *)

Record Ratio : Type := mkRatio {
  value : Q;
  fraction : string;
  depth : num
}.

(** A battery of the catalog.  The core reads [name], [power] and
    [consume]. *)
Record BatteryType : Type := mkBatteryType {
  name : string;
  power : Q;
  consume : Q
}.

(* ================================================================== *)
(** ** RatioCatalog: generateValidRatios, toFraction, getDepth        *)
(* ================================================================== *)

(** The pairs [(a, b)] in the order of the double loop
    [for a in 0..10 { for b in 0..10 }]. *)
Definition exponent_grid : list (nat * nat) :=
  flat_map (fun a => map (fun b => (a, b)) (seq 0 11)) (seq 0 11).

(** [Math.abs(v - value) < 1e-10] with [v = 0.5^a * (1/3)^b]. *)
Definition matches (value : Q) (ab : nat * nat) : bool :=
  let v := Math_pow 0.5 (fst ab) * Math_pow (1 / 3) (snd ab) in
  Qlt_bool (Qabs (v - value)) (1 # 10000000000).

Definition toFraction (value : Q) : string :=
  if Qeq_bool value 1 then "1"%string
  else match find (matches value) exponent_grid with
       | Some (a, b) =>
           let denominator := (2 ^ N.of_nat a * 3 ^ N.of_nat b)%N in
           ("1/" ++ string_of_N denominator)%string
       | None => toFixed 6 value
       end.

Definition getDepth (value : Q) : num :=
  if Qeq_bool value 1 then Fin 0
  else match find (matches value) exponent_grid with
       | Some (a, b) => Fin (inject_Z (Z.of_nat (a + b)))
       | None => PInf
       end.

(** [Set.prototype.add]: insertion order is kept, a value already present is
    not added again. *)
Definition Set_add (v : Q) (s : list Q) : list Q :=
  if existsb (Qeq_bool v) s then s else s ++ [v].

(** The inner loop [for (b = 0; b <= maxDepth - a; b++)]. *)
Definition ratios_inner (maxDepth a : nat) (ratios : list Q) : list Q :=
  fold_left
    (fun s b =>
       if ((a =? 0) && (b =? 0))%nat then s
       else Set_add (Math_pow 0.5 a * Math_pow (1 / 3) b) s)
    (seq 0 (S (maxDepth - a))) ratios.

(** The set [ratios] after both loops, in insertion order. *)
Definition ratio_set (maxDepth : nat) : list Q :=
  fold_left (fun s a => ratios_inner maxDepth a s) (seq 0 (S maxDepth)) [1].

Definition generateValidRatios (maxDepth : nat) : list Ratio :=
  sort (fun a b => sub (Fin (value b)) (Fin (value a)))
       (map (fun v => mkRatio v (toFraction v) (getDepth v))
            (ratio_set maxDepth)).

(* ================================================================== *)
(** ** AssignmentOptimizer: findBestVariableAssignment                *)
(* ================================================================== *)

(** One entry of [currentAssignment].  [aname] and [apower] are the fields
    [name] and [power] of the JavaScript object. *)
Record Assignment : Type := mkAssignment {
  aname : string;
  ratio : Ratio;
  dutyCycle : num;
  apower : num;
  typeData : BatteryType
}.

(** The object stored in [bestResult]; [br_batteries] is its field
    [batteries]. *)
Record BestResult : Type := mkBestResult {
  totalGenerated : num;
  br_batteries : list Assignment
}.

(** The two variables the closure [assign] updates. *)
Record AssignState : Type := mkAssignState {
  bestResult : option BestResult;
  minExcess : num
}.

(** The body of the loop over [batteryTypes] up to the recursive call. *)
Definition assignment_of (R : Q) (ratio : Ratio) (battType : BatteryType)
  : Assignment :=
  let dutyCycle :=
    min2 (Fin 1) (div (Fin (R * value ratio)) (Fin (consume battType))) in
  let power := mul (Fin (power battType)) dutyCycle in
  mkAssignment (name battType) ratio dutyCycle power battType.

(** [assign(index, currentAssignment, currentPower)].  The argument [rest] is
    [ratios.slice(index)]: it is empty when [index === ratios.length] and its
    head is [ratios[index]] otherwise. *)
Fixpoint assign (batteryTypes : list BatteryType) (targetPower R : Q)
  (rest : list Ratio) (currentAssignment : list Assignment)
  (currentPower : num) (st : AssignState) : AssignState :=
  match rest with
  | [] =>
      if ge currentPower (Fin (targetPower - 0.01)) then
        let excess := sub currentPower (Fin targetPower) in
        if lt excess (minExcess st) then
          mkAssignState (Some (mkBestResult currentPower currentAssignment))
                        excess
        else st
      else st
  | ratio :: rest' =>
      fold_left
        (fun st battType =>
           let a := assignment_of R ratio battType in
           assign batteryTypes targetPower R rest'
                  (currentAssignment ++ [a]) (add currentPower (apower a)) st)
        batteryTypes st
  end.

Definition findBestVariableAssignment (ratios : list Ratio)
  (batteryTypes : list BatteryType) (targetPower R : Q) : option BestResult :=
  bestResult
    (assign batteryTypes targetPower R ratios [] (Fin 0)
            (mkAssignState None PInf)).

(* ================================================================== *)
(** ** CombinationSearch: searchForNBatteries                         *)
(* ================================================================== *)

Record Params : Type := mkParams {
  D : Q;
  P_base : Q;
  p_batteries : list BatteryType;   (* params.batteries *)
  R : Q;
  maxDepth : nat
}.

(** A solution object.  [success] and [totalRatio] are absent on the base
    solution; [type], [sname] (the field [name]) and [desc] are absent until
    the ranking writes them. *)
Record Solution : Type := mkSolution {
  success : option bool;
  batteryCount : Z;
  batteries : list Assignment;
  totalPower : num;
  excess : num;
  totalRatio : option Q;
  complexity : num;
  type : option string;
  sname : option string;
  desc : option string
}.

(** [rs.reduce((sum, r) => sum + r.value, 0)] *)
Definition sum_values (rs : list Ratio) : Q :=
  fold_left (fun sum r => sum + value r) rs 0.

(** [rs.reduce((sum, r) => sum + r.depth, 0)] *)
Definition sum_depths (rs : list Ratio) : num :=
  fold_left (fun sum r => add sum (depth r)) rs (Fin 0).

(** [1 + 1e-10] *)
Definition flow_limit : Q := 1 + (1 # 10000000000).

(** The branch [currentRatios.length === n] of [searchCombinations]: the
    candidates it pushes. *)
Definition evaluate_combination (n : Z) (params : Params)
  (currentRatios : list Ratio) : list Solution :=
  let P_batt_needed := D params - P_base params in
  let totalRatio := sum_values currentRatios in
  if Qlt_bool flow_limit totalRatio then []
  else
    match findBestVariableAssignment currentRatios (p_batteries params)
                                     P_batt_needed (R params) with
    | Some assignment =>
        let totalPower :=
          add (Fin (P_base params)) (totalGenerated assignment) in
        let excess := sub totalPower (Fin (D params)) in
        let totalDepth := sum_depths currentRatios in
        let complexity := add (Fin (inject_Z n * 10)) totalDepth in
        [mkSolution (Some true) n (br_batteries assignment) totalPower excess
                    (Some totalRatio) complexity None None None]
    | None => []
    end.

(** [for (let i = index; i < usableRatios.length; i++)]: [body] receives
    [usableRatios.slice(i)], whose head is [usableRatios[i]]. *)
Fixpoint for_each_from {B : Type} (body : list Ratio -> Ratio -> list B)
  (from : list Ratio) : list B :=
  match from with
  | [] => []
  | ratio :: from' => body from ratio ++ for_each_from body from'
  end.

(** [searchCombinations(index, currentRatios, remainingSum)], returning the
    candidates it pushes, in order.  [from] is [usableRatios.slice(index)].
    Each call adds one ratio, so a call needs as much fuel as there are
    ratios still to choose, plus one. *)
Fixpoint searchCombinations (fuel : nat) (n : Z) (params : Params)
  (from : list Ratio) (currentRatios : list Ratio) (remainingSum : Q)
  : list Solution :=
  match fuel with
  | O => []
  | S fuel' =>
      if (Z.of_nat (List.length currentRatios) =? n)%Z then
        evaluate_combination n params currentRatios
      else
        let currentSum := sum_values currentRatios in
        if Qlt_bool flow_limit currentSum then []
        else
          for_each_from
            (fun from_i ratio =>
               if Qlt_bool flow_limit (currentSum + value ratio) then []
               else searchCombinations fuel' n params from_i
                      (currentRatios ++ [ratio]) (remainingSum - value ratio))
            from
  end.

(** [Math.max(...batteries.map(b => b.consume / R))] *)
Definition maxFullLoadRatio (params : Params) : num :=
  Math_max (map (fun b => div (Fin (consume b)) (Fin (R params)))
                (p_batteries params)).

(** [this.validRatios.filter(r => r.value <= maxFullLoadRatio + 0.0001)] *)
Definition usableRatios (validRatios : list Ratio) (params : Params)
  : list Ratio :=
  filter (fun r => le (Fin (value r))
                      (add (maxFullLoadRatio params) (Fin 0.0001)))
         validRatios.

(** [searchForNBatteries(n, params)], reading [this.validRatios].  For
    [n < 0] no selection has length [n]: the search pushes nothing. *)
Definition searchForNBatteries (validRatios : list Ratio) (n : Z)
  (params : Params) : list Solution :=
  match usableRatios validRatios params with
  | [] => []
  | usable => searchCombinations (S (Z.to_nat n)) n params usable [] 1
  end.

(* ================================================================== *)
(** ** SolutionRanker and the driver: searchOptimalCombination        *)
(* ================================================================== *)

(** The candidates are JavaScript objects: the arrays [allCandidates],
    [simpleCandidates] and [solutions] hold references to them, the sorts
    permute references, and the labels written through one reference are
    seen through every other.  The store holds the objects in the order in
    which the search created them; a reference is a position in it. *)
Definition Ref : Type := nat.
Definition Store : Type := list Solution.

Definition no_solution : Solution :=
  mkSolution None 0 [] NaN NaN None NaN None None None.

Definition deref (h : Store) (r : Ref) : Solution := nth r h no_solution.

(** [c.type = t; c.name = n; c.desc = d] *)
Definition label (t n d : string) (c : Solution) : Solution :=
  mkSolution (success c) (batteryCount c) (batteries c) (totalPower c)
             (excess c) (totalRatio c) (complexity c)
             (Some t) (Some n) (Some d).

Fixpoint update (r : Ref) (f : Solution -> Solution) (h : Store) : Store :=
  match h, r with
  | [], _ => []
  | c :: h', O => f c :: h'
  | c :: h', S r' => c :: update r' f h'
  end.

(** What the ranking computes: the sorted array [allCandidates], the three
    picks, the array [solutions], and the store after the labels are
    written. *)
Record Ranking : Type := mkRanking {
  sortedCandidates : list Ref;
  bestPrecision : Ref;
  bestSimple : Ref;
  bestBalanced : option Ref;
  solutions : list Ref;
  store : Store
}.

Definition by_excess (h : Store) (a b : Ref) : num :=
  sub (excess (deref h a)) (excess (deref h b)).

Definition by_complexity (h : Store) (a b : Ref) : num :=
  sub (complexity (deref h a)) (complexity (deref h b)).

Definition by_complexity_then_excess (h : Store) (a b : Ref) : num :=
  or_else (by_complexity h a b) (by_excess h a b).

(** The condition of the loop that looks for the balanced pick. *)
Definition balanced_ok (h : Store) (bestPrecision bestSimple cand : Ref)
  : bool :=
  negb (cand =? bestPrecision)%nat && negb (cand =? bestSimple)%nat &&
  (gt (Math_abs (sub (excess (deref h cand))
                     (excess (deref h bestPrecision)))) (Fin 1)
   || negb (batteryCount (deref h cand)
            =? batteryCount (deref h bestPrecision))%Z).

(** The part of [searchOptimalCombination] after the search, from the first
    sort to the array [solutions].  [h0] holds the merged candidates. *)
Definition rank (D : Q) (h0 : Store) : Ranking :=
  let allCandidates := sort (by_excess h0) (seq 0 (List.length h0)) in
  let bestPrecision := nth 0 allCandidates 0%nat in
  let h1 := update bestPrecision
              (label "precision" "精准优先" "追求最小的功率溢出") h0 in
  let excessThreshold := max2 (Fin (D * 0.05)) (Fin 100) in
  let simpleCandidates :=
    filter (fun c => le (excess (deref h1 c)) (add excessThreshold (Fin 0.01)))
           allCandidates in
  let simpleCandidates' :=
    sort (by_complexity_then_excess h1) simpleCandidates in
  let bestSimple0 :=
    if (0 <? List.length simpleCandidates)%nat
    then nth 0 simpleCandidates' 0%nat
    else nth 0 (sort (by_complexity h1) allCandidates) 0%nat in
  let bestSimple :=
    if (bestSimple0 =? bestPrecision)%nat
       && (1 <? List.length simpleCandidates)%nat
    then nth 1 simpleCandidates' 0%nat
    else bestSimple0 in
  let h2 := update bestSimple
              (label "simple" "结构精简" "分流器层数更少或电池更少") h1 in
  let bestBalanced :=
    find (balanced_ok h2 bestPrecision bestSimple) allCandidates in
  let h3 :=
    match bestBalanced with
    | Some b => update b (label "balanced" "均衡方案" "综合考虑功率与复杂度") h2
    | None => h2
    end in
  let solutions :=
    [bestPrecision]
    ++ (if negb (bestSimple =? bestPrecision)%nat then [bestSimple] else [])
    ++ match bestBalanced with
       | Some b =>
           if negb (b =? bestPrecision)%nat && negb (b =? bestSimple)%nat
           then [b] else []
       | None => []
       end in
  mkRanking allCandidates bestPrecision bestSimple bestBalanced solutions h3.

(** The possible return values of [searchOptimalCombination]:
    [{ baseSolution: true, solutions }],
    [{ success: false, message, solutions }] and
    [{ success: true, solutions }]. *)
Inductive SearchResult : Type :=
| BaseSolution (sols : list Solution)
| Failed (message : string) (sols : list Solution)
| Succeeded (sols : list Solution).

(** [for (let n = lo; n <= hi; n++)] for an integral [lo].  [lo] is the
    ceiling of a positive number divided by a maximum: it is finite or
    [Infinity], and nothing is [<= NaN]. *)
Definition for_n (lo hi : num) : list Z :=
  match lo, hi with
  | Fin l, Fin h =>
      map (fun k => (Qfloor l + Z.of_nat k)%Z)
          (seq 0 (Z.to_nat (Qfloor h - Qfloor l + 1)))
  | _, _ => []
  end.

Definition minBatteries (params : Params) : num :=
  let P_batt_needed := D params - P_base params in
  let maxBatteryPower :=
    Math_max (map (fun b => Fin (power b)) (p_batteries params)) in
  Math_ceil (div (Fin P_batt_needed) maxBatteryPower).

Definition searchLimit (params : Params) : num :=
  let minConsume :=
    Math_min (map (fun b => Fin (consume b)) (p_batteries params)) in
  let maxBatteriesFromFuel := Math_floor (div (Fin (R params)) minConsume) in
  Math_min [add (minBatteries params) (Fin 3);
            add maxBatteriesFromFuel (Fin 2); Fin 8].

(** [allCandidates] when the loop over [n] ends: the candidates of every
    searched count, in the order found.  [this.validRatios] is the catalog
    that [generateValidRatios(maxDepth)] has just stored. *)
Definition collectCandidates (params : Params) : list Solution :=
  let validRatios := generateValidRatios (maxDepth params) in
  flat_map (fun n => searchForNBatteries validRatios n params)
           (for_n (minBatteries params) (searchLimit params)).

Definition baseSolution (params : Params) : Solution :=
  mkSolution None 0 [] (Fin (P_base params))
             (Fin (P_base params - D params)) None (Fin 0)
             (Some "base"%string) (Some "无需电池"%string)
             (Some "基地发电已满足需求"%string).

Definition searchOptimalCombination (params : Params) : SearchResult :=
  let P_batt_needed := D params - P_base params in
  if Qle_bool P_batt_needed 0 then BaseSolution [baseSolution params]
  else
    let allCandidates := collectCandidates params in
    if (List.length allCandidates =? 0)%nat then
      Failed "无法找到满足需求的方案" []
    else
      let r := rank (D params) allCandidates in
      Succeeded (map (deref (store r)) (solutions r)).

(* ================================================================== *)
(** ** NetworkSynthesizer: constructSplitterNetwork                   *)
(* ================================================================== *)

(** A node of a network tree, by its [type]: the main belt, a splitter with
    its declared number of [outlets], a battery with its [label], the
    fraction string of its [ratio] and the text of its [dutyCycle], and
    return flow.  The fields that are the same on every node of a type (the
    label of the main belt, of a splitter and of return flow, and
    [outletsLabel], a text of [outlets]) are left out. *)
#[warnings="-register-all"]
Inductive NetworkNode : Type :=
| MainNode (children : list NetworkNode)
| SplitterNode (outlets : nat) (children : list NetworkNode)
| BatteryNode (label : string) (ratioText : string) (dutyText : string)
| ReturnNode.

(** An entry of the sequence that [findSplitSequence] returns. *)
Record Split : Type := mkSplit {
  splitType : string;
  splitOutlets : nat;
  targetOutlet : nat
}.

(** The exponents [a], [b] after the double loop of [findSplitSequence]:
    [break] leaves the inner loop only, so a later [i] that matches
    overwrites an earlier one. *)
Definition splitExponents (targetRatio : Q) : nat * nat :=
  fold_left
    (fun ab i =>
       match find (fun j => matches targetRatio (i, j)) (seq 0 11) with
       | Some j => (i, j)
       | None => ab
       end)
    (seq 0 11) (0%nat, 0%nat).

Definition findSplitSequence (targetRatio inputFlow : Q) : list Split :=
  let (a, b) := splitExponents targetRatio in
  repeat (mkSplit "splitter" 3 0) b ++ repeat (mkSplit "splitter" 2 0) a.

(** One line of the description.  [indent] counts the two-space units that
    precede the text; [render] gives the text of each line. *)
Inductive Line : Type :=
| ReturnLeaf (indent : nat)
| SplitterLine (indent : nat) (declared : nat)
| OutletShare (indent : nat) (pre : string) (outlet share : nat)
| OutletReturn (indent : nat) (pre : string) (outlet : nat)
| OutletOnward (indent : nat) (pre : string) (outlet : nat)
| BatteryDirect (indent : nat) (fractionText : string)
| BatteryLine (indent : nat) (fractionText : string)
| ReturnLine (indent : nat).

Definition newline : string := String (ascii_of_nat 10) EmptyString.

Definition indentation (units : nat) : string := repeat_string "  " units.

Definition render (l : Line) : string :=
  match l with
  | ReturnLeaf i => indentation i ++ "└─ 回流" ++ newline
  | SplitterLine i declared =>
      indentation i ++ "["
      ++ (if (declared =? 2)%nat then "两出口" else "三出口")
      ++ "分流器]" ++ newline
  | OutletShare i pre k share =>
      indentation i ++ pre ++ " 出口" ++ string_of_nat k
      ++ " (1/" ++ string_of_nat share ++ "):" ++ newline
  | OutletReturn i pre k =>
      indentation i ++ pre ++ " 出口" ++ string_of_nat k ++ " → 回流" ++ newline
  | OutletOnward i pre k =>
      indentation i ++ pre ++ " 出口" ++ string_of_nat k ++ ":" ++ newline
  | BatteryDirect i f =>
      indentation i ++ "└─ → " ++ f ++ " → 电池组" ++ newline
  | BatteryLine i f =>
      indentation i ++ "└─ → 电池组 (比例: " ++ f ++ ")" ++ newline
  | ReturnLine i => indentation i ++ "└─ → 回流" ++ newline
  end%string.

(** The string that the lines make up. *)
Definition text (ls : list Line) : string := String.concat "" (map render ls).

(** [i < count - 1 ? "├─" : "└─"] *)
Definition outlet_prefix (i count : nat) : string :=
  if (S i <? count)%nat then "├─"%string else "└─"%string.

(** The body of [sequence.forEach] in [constructBranch]; the state is
    [currentIndent] and the lines written so far. *)
Definition branch_step (fractionText : string) (st : nat * list Line)
  (split : Split) : nat * list Line :=
  let (currentIndent, ls) := st in
  if String.eqb (splitType split) "battery" then
    (currentIndent, ls ++ [BatteryLine currentIndent fractionText])
  else if String.eqb (splitType split) "return" then
    (currentIndent, ls ++ [ReturnLine currentIndent])
  else
    fold_left
      (fun (st : nat * list Line) (i : nat) =>
         let (currentIndent, ls) := st in
         let pre := outlet_prefix i (splitOutlets split) in
         if (i =? targetOutlet split)%nat then
           (S currentIndent, ls ++ [OutletOnward currentIndent pre (i + 1)])
         else (currentIndent, ls ++ [OutletReturn currentIndent pre (i + 1)]))
      (seq 0 (splitOutlets split))
      (currentIndent,
       ls ++ [SplitterLine currentIndent (splitOutlets split)]).

(** [constructBranch(ratio, inputFlow, depth).description], as lines. *)
Definition constructBranch (ratio0 : Ratio) (inputFlow : Q) (depth0 : nat)
  : list Line :=
  let sequence := findSplitSequence (value ratio0) inputFlow in
  match sequence with
  | [] => [BatteryDirect depth0 (fraction ratio0)]
  | _ =>
      let (currentIndent, ls) :=
        fold_left (branch_step (fraction ratio0)) sequence
                  (depth0, @nil Line) in
      ls ++ [BatteryLine currentIndent (fraction ratio0)]
  end.

(** [for (let i = 0; i < n; i += perGroup) groups.push(ratios.slice(i, ...))]:
    [fuel] bounds the number of groups. *)
Fixpoint slices {A : Type} (fuel perGroup : nat) (l : list A) : list (list A) :=
  match fuel with
  | O => []
  | S fuel' =>
      match l with
      | [] => []
      | _ => firstn perGroup l :: slices fuel' perGroup (skipn perGroup l)
      end
  end.

(** [Math.ceil(n / 3)] *)
Definition ceil_third (n : nat) : nat := ((n + 2) / 3)%nat.

(** [buildNetworkTree(ratios, totalFlow, depth).description], as lines.  A
    group is shorter than the list it is cut from, so [fuel] need not exceed
    the number of ratios. *)
Fixpoint buildNetworkTree_lines (fuel : nat) (ratios : list Ratio)
  (totalFlow : Q) (depth0 : nat) : list Line :=
  match fuel with
  | O => []
  | S fuel' =>
      match ratios with
      | [] => [ReturnLeaf depth0]
      | [ratio0] => constructBranch ratio0 totalFlow depth0
      | [ratio0; ratio1] =>
          [SplitterLine depth0 3; OutletShare depth0 "├─" 1 3]
          ++ constructBranch ratio0 (totalFlow / 3) (depth0 + 2)
          ++ [OutletShare depth0 "├─" 2 3]
          ++ constructBranch ratio1 (totalFlow / 3) (depth0 + 2)
          ++ [OutletReturn depth0 "└─" 3]
      | [ratio0; ratio1; ratio2] =>
          [SplitterLine depth0 3]
          ++ flat_map
               (fun ir : nat * Ratio =>
                  OutletShare depth0 (outlet_prefix (fst ir) 3) (fst ir + 1) 3
                  :: constructBranch (snd ir) (totalFlow / 3) (depth0 + 2))
               (combine (seq 0 3) ratios)
      | _ =>
          let n := List.length ratios in
          let perGroup := ceil_third n in
          let groups := slices n perGroup ratios in
          let count := List.length groups in
          [SplitterLine depth0 3]
          ++ flat_map
               (fun ig : nat * list Ratio =>
                  let pre := outlet_prefix (fst ig) count in
                  match snd ig with
                  | [] => [OutletReturn depth0 pre (fst ig + 1)]
                  | group =>
                      OutletShare depth0 pre (fst ig + 1) count
                      :: buildNetworkTree_lines fuel' group
                           (totalFlow / inject_Z (Z.of_nat count))
                           (depth0 + 2)
                  end)
               (combine (seq 0 count) groups)
          ++ map (fun i => OutletReturn depth0 "└─" (i + 1))
                 (seq count (3 - count))
      end
  end.

(** The object a network function returns: [nodes] is absent from the
    result of [constructBranch]. *)
Record Network : Type := mkNetwork {
  description : string;
  nodes : option (list NetworkNode)
}.

(** [buildNetworkTree(ratios, totalFlow, depth)]: the array [nodes] is
    created empty and nothing is pushed to it. *)
Definition buildNetworkTree (ratios : list Ratio) (totalFlow : Q)
  (depth0 : nat) : Network :=
  let ls := buildNetworkTree_lines (S (List.length ratios)) ratios totalFlow
                                   depth0 in
  match ratios with
  | [_] => mkNetwork (text ls) None
  | _ => mkNetwork (text ls) (Some [])
  end.

(** [solution.totalRatio || ratios.reduce(...)] *)
Definition flow_of (s : Solution) (ratios : list Ratio) : Q :=
  match totalRatio s with
  | Some q => if Qeq_bool q 0 then sum_values ratios else q
  | None => sum_values ratios
  end.

(** The lines of the description that [constructSplitterNetwork] returns
    when it builds a network. *)
Definition network_lines (s : Solution) : list Line :=
  let ratios := map ratio (batteries s) in
  buildNetworkTree_lines (S (List.length ratios)) ratios (flow_of s ratios) 0.

(** [!solution.success || solution.batteryCount === 0] *)
Definition no_network (s : Solution) : bool :=
  negb (match success s with Some b => b | None => false end)
  || (batteryCount s =? 0)%Z.

Definition constructSplitterNetwork (s : Solution) : Network :=
  if no_network s then mkNetwork "无需分流器网络" (Some [])
  else
    let ratios := map ratio (batteries s) in
    let totalRatio := flow_of s ratios in
    buildNetworkTree ratios totalRatio 0.

(** The text that [displayNetwork] of the page script shows below the
    drawing, [networkText.textContent]: the description of the network when
    there is one that is not empty, and one of two fixed texts otherwise. *)
Definition displayNetwork_text (s : Solution) (network : Network) : string :=
  if String.eqb (description network) EmptyString then
    if (batteryCount s =? 0)%Z then "基地发电已满足需求，无需分流器网络"%string
    else "网络结构已在上方图形中展示"%string
  else description network.

(* ================================================================== *)
(** ** SplitterVisualizer: buildVisualizationTree (src/visualizer.js)  *)
(* ================================================================== *)

(** [x.toFixed(f)] of any number. *)
Definition num_toFixed (f : nat) (x : num) : string :=
  match x with
  | Fin q => toFixed f q
  | PInf => "Infinity"
  | NInf => "-Infinity"
  | NaN => "NaN"
  end.

(** The battery leaf that [buildBatteryBranch] creates. *)
Definition batteryLeaf (battery : Assignment) : NetworkNode :=
  BatteryNode (aname battery) (fraction (ratio battery))
              (num_toFixed 1 (mul (dutyCycle battery) (Fin 100)) ++ "%").

(** The number of rounds of [for (let i = 1; i < bound; i++)]. *)
Definition rounds_below (bound : num) : nat :=
  match bound with
  | Fin q => Z.to_nat (Qceiling q - 1)
  | _ => 0%nat
  end.

Definition buildBatteryBranch (battery : Assignment) (index : nat)
  : NetworkNode :=
  let depth0 := or_else (depth (ratio battery)) (Fin 0) in
  if le depth0 (Fin 1) then batteryLeaf battery
  else
    fold_left (fun current _ => SplitterNode 2 [current; ReturnNode])
              (seq 1 (rounds_below (min2 depth0 (Fin 3))))
              (batteryLeaf battery).

(** The body of the grouping loop of [buildSplitterTree]. *)
Definition groupNode (group : list NetworkNode) : NetworkNode :=
  match group with
  | [node] => node
  | _ => SplitterNode (List.length group) group
  end.

(** [buildSplitterTree(nodes)].  The groups are fewer than the nodes they
    are made of, so [fuel] need not exceed the number of nodes; the value
    given without fuel is never reached. *)
Fixpoint buildSplitterTree (fuel : nat) (nodes0 : list NetworkNode)
  : NetworkNode :=
  match fuel with
  | O => ReturnNode
  | S fuel' =>
      if (List.length nodes0 <=? 3)%nat then
        SplitterNode (List.length nodes0) nodes0
      else
        let groups :=
          map groupNode (slices (List.length nodes0) 3 nodes0) in
        if (List.length groups <=? 3)%nat then
          SplitterNode (List.length groups) groups
        else buildSplitterTree fuel' groups
  end.

Definition buildVisualizationTree (s : Solution) : NetworkNode :=
  match batteries s with
  | [] => MainNode []
  | _ =>
      let batteryNodes :=
        map (fun ib : nat * Assignment => buildBatteryBranch (snd ib) (fst ib))
            (combine (seq 0 (List.length (batteries s))) (batteries s)) in
      let returnNode := ReturnNode in
      let all := batteryNodes ++ [returnNode] in
      MainNode [buildSplitterTree (List.length all) all]
  end.

(** The fraction strings of the battery leaves of a tree, from left to
    right. *)
Fixpoint battery_ratios (t : NetworkNode) : list string :=
  match t with
  | MainNode cs => flat_map battery_ratios cs
  | SplitterNode _ cs => flat_map battery_ratios cs
  | BatteryNode _ r _ => [r]
  | ReturnNode => []
  end.

(** Every splitter of the tree has as many children as it declares outlets,
    and that is 2 or 3. *)
Fixpoint splitters_exact (t : NetworkNode) : bool :=
  match t with
  | MainNode cs => forallb splitters_exact cs
  | SplitterNode k cs =>
      (k =? List.length cs)%nat && ((k =? 2) || (k =? 3))%nat
      && forallb splitters_exact cs
  | BatteryNode _ _ _ => true
  | ReturnNode => true
  end.

(** The battery leaves of the tree that a network function returns. *)
Definition returned_battery_ratios (net : Network) : list string :=
  match nodes net with
  | Some ns => flat_map battery_ratios ns
  | None => []
  end.

(** The fraction strings of the battery lines of a description, the number
    of outlets its splitter lines declare, and the number of its outlet
    lines. *)
Definition battery_texts (ls : list Line) : list string :=
  flat_map (fun l => match l with
                     | BatteryDirect _ f => [f]
                     | BatteryLine _ f => [f]
                     | _ => []
                     end) ls.

Definition declared_outlets (ls : list Line) : nat :=
  list_sum (map (fun l => match l with
                          | SplitterLine _ k => k
                          | _ => 0%nat
                          end) ls).

Definition outlet_lines (ls : list Line) : nat :=
  list_sum (map (fun l => match l with
                          | OutletShare _ _ _ _ => 1%nat
                          | OutletReturn _ _ _ => 1%nat
                          | OutletOnward _ _ _ => 1%nat
                          | _ => 0%nat
                          end) ls).

Definition splitter_lines_2_or_3 (ls : list Line) : bool :=
  forallb (fun l => match l with
                    | SplitterLine _ k => (k =? 2)%nat || (k =? 3)%nat
                    | _ => true
                    end) ls.

(* ================================================================== *)
(** * Properties                                                       *)
(* ================================================================== *)

(** ** Comparisons of numbers *)

Lemma Qlt_bool_iff (x y : Q) : Qlt_bool x y = true <-> x < y.
Proof.
  unfold Qlt_bool. rewrite negb_true_iff. split; intro H.
  - destruct (Qlt_le_dec x y) as [L | L]; [exact L |].
    apply Qle_bool_iff in L. congruence.
  - destruct (Qle_bool y x) eqn:E; [| reflexivity].
    apply Qle_bool_iff in E. lra.
Qed.

Lemma Qlt_bool_false_iff (x y : Q) : Qlt_bool x y = false <-> y <= x.
Proof.
  unfold Qlt_bool. rewrite negb_false_iff. apply Qle_bool_iff.
Qed.

Lemma Qle_bool_false_iff (x y : Q) : Qle_bool x y = false <-> y < x.
Proof.
  rewrite <- Qlt_bool_iff. unfold Qlt_bool.
  destruct (Qle_bool x y); simpl; split; congruence.
Qed.

(** Turns boolean comparisons of rationals in the context and the goal into
    propositions. *)
Ltac qbool :=
  repeat match goal with
    | H : Qlt_bool _ _ = true |- _ => apply Qlt_bool_iff in H
    | H : Qlt_bool _ _ = false |- _ => apply Qlt_bool_false_iff in H
    | H : Qle_bool _ _ = true |- _ => apply Qle_bool_iff in H
    | H : Qle_bool _ _ = false |- _ => apply Qle_bool_false_iff in H
    | H : Qeq_bool _ _ = true |- _ => apply Qeq_bool_iff in H
    | H : Qeq_bool _ _ = false |- _ => apply Qeq_bool_neq in H
    | |- Qlt_bool _ _ = true => apply Qlt_bool_iff
    | |- Qlt_bool _ _ = false => apply Qlt_bool_false_iff
    | |- Qle_bool _ _ = true => apply Qle_bool_iff
    | |- Qle_bool _ _ = false => apply Qle_bool_false_iff
    | |- Qeq_bool _ _ = true => apply Qeq_bool_iff
    end.

(** A number that is not NaN. *)
Definition is_number (x : num) : Prop := x <> NaN.

(** Two numbers that compare equal. *)
Definition same (x y : num) : Prop := le x y = true /\ le y x = true.

Lemma after_sub (x y : num) :
  is_number x -> is_number y -> gt (sub x y) (Fin 0) = lt y x.
Proof.
  unfold is_number, gt.
  destruct x as [a | | |], y as [b | | |]; simpl; intros Hx Hy;
    try congruence; try reflexivity.
  destruct (Qlt_bool 0 (a - b)) eqn:E1, (Qlt_bool b a) eqn:E2;
    try reflexivity; qbool; lra.
Qed.

Lemma lt_trans (x y z : num) : lt x y = true -> lt y z = true -> lt x z = true.
Proof.
  destruct x, y, z; simpl; intros; try congruence; qbool; lra.
Qed.

Lemma le_trans (x y z : num) : le x y = true -> le y z = true -> le x z = true.
Proof.
  destruct x, y, z; simpl; intros; try congruence; qbool; lra.
Qed.

Lemma lt_le_trans (x y z : num) :
  lt x y = true -> le y z = true -> lt x z = true.
Proof.
  destruct x, y, z; simpl; intros; try congruence; qbool; lra.
Qed.

Lemma le_lt_trans (x y z : num) :
  le x y = true -> lt y z = true -> lt x z = true.
Proof.
  destruct x, y, z; simpl; intros; try congruence; qbool; lra.
Qed.

Lemma lt_false_le (x y : num) :
  is_number x -> is_number y -> lt x y = false -> le y x = true.
Proof.
  unfold is_number.
  destruct x, y; simpl; intros; try congruence; qbool; lra.
Qed.

Lemma lt_le (x y : num) : lt x y = true -> le x y = true.
Proof.
  destruct x, y; simpl; intros; try congruence; qbool; lra.
Qed.

Lemma lt_not_le (x y : num) : lt x y = true -> le y x = false.
Proof.
  destruct x, y; simpl; intros; try congruence; qbool; lra.
Qed.

Lemma le_refl (x : num) : is_number x -> le x x = true.
Proof.
  unfold is_number. destruct x; simpl; intros; try congruence; qbool; lra.
Qed.

(** ** The sort *)

Section SortFacts.
Context {A : Type} (cmp : A -> A -> num).

Lemma insert_perm (x : A) (l : list A) :
  Permutation (insert cmp x l) (x :: l).
Proof.
  induction l as [| y l IH]; simpl; [reflexivity |].
  destruct (after cmp x y); [| reflexivity].
  rewrite IH. apply perm_swap.
Qed.

Lemma sort_perm (l : list A) : Permutation (sort cmp l) l.
Proof.
  induction l as [| x l IH]; simpl; [reflexivity |].
  rewrite insert_perm. now constructor.
Qed.

Lemma sort_length (l : list A) : List.length (sort cmp l) = List.length l.
Proof. apply Permutation_length, sort_perm. Qed.

Lemma sort_In (l : list A) (x : A) : In x (sort cmp l) <-> In x l.
Proof.
  split; apply Permutation_in; [| symmetry]; apply sort_perm.
Qed.

Lemma sort_Forall (P : A -> Prop) (l : list A) :
  Forall P l -> Forall P (sort cmp l).
Proof.
  intro H. eapply Permutation_Forall; [| exact H].
  symmetry. apply sort_perm.
Qed.

(** The sort orders by [before] when the comparator agrees with it on every
    pair [x], [y] where [x] is [earlier] than [y], and every element of the
    input is [earlier] than those that follow it. *)
Variable earlier : A -> A -> Prop.
Variable before : A -> A -> Prop.
Hypothesis before_trans :
  forall x y z, before x y -> before y z -> before x z.
Hypothesis before_after :
  forall x y, earlier x y -> after cmp x y = true -> before y x.
Hypothesis before_earlier :
  forall x y, earlier x y -> after cmp x y = false -> before x y.

Lemma insert_sorted (x : A) (l : list A) :
  Forall (earlier x) l -> StronglySorted before l ->
  StronglySorted before (insert cmp x l).
Proof.
  intros Hf Hs. induction Hs as [| y l Hs IH Hy]; simpl.
  - repeat constructor.
  - inversion Hf as [| ? ? Hxy Hf']; subst.
    destruct (after cmp x y) eqn:E.
    + constructor; [now apply IH |].
      eapply Permutation_Forall; [symmetry; apply insert_perm |].
      constructor; [| exact Hy]. now apply before_after.
    + constructor; [now constructor |].
      constructor; [now apply before_earlier |].
      eapply Forall_impl; [| exact Hy].
      intros z Hz. eapply before_trans; [| exact Hz].
      now apply before_earlier.
Qed.

Lemma sort_sorted (l : list A) :
  StronglySorted earlier l -> StronglySorted before (sort cmp l).
Proof.
  induction 1 as [| x l Hs IH Hx]; simpl; [constructor |].
  apply insert_sorted; [| exact IH].
  now apply sort_Forall.
Qed.
End SortFacts.

(** ** RatioCatalog *)

Lemma fold_left_invariant {A B : Type} (I : A -> Prop) (f : A -> B -> A)
  (l : list B) (s : A) :
  I s -> (forall s x, In x l -> I s -> I (f s x)) -> I (fold_left f l s).
Proof.
  revert s. induction l as [| x l IH]; simpl; intros s Hs Hf; [exact Hs |].
  apply IH; [apply Hf; auto | intros; apply Hf; auto].
Qed.

Lemma pow_half (a : nat) : Math_pow 0.5 a == 2 ^ (- Z.of_nat a).
Proof.
  unfold Math_pow. rewrite Qpower_opp, <- Qinv_power.
  assert (E : 0.5 == / 2) by reflexivity. now rewrite E.
Qed.

Lemma pow_third (b : nat) : Math_pow (1 / 3) b == 3 ^ (- Z.of_nat b).
Proof.
  unfold Math_pow. rewrite Qpower_opp, <- Qinv_power.
  assert (E : 1 / 3 == / 3) by reflexivity. now rewrite E.
Qed.

(** [v = 2^-a * 3^-b] for some [a, b >= 0] with [a + b <= maxDepth]. *)
Definition smooth (maxDepth : nat) (v : Q) : Prop :=
  exists a b : Z,
    (0 <= a)%Z /\ (0 <= b)%Z /\ (a + b <= Z.of_nat maxDepth)%Z /\
    v == 2 ^ (- a) * 3 ^ (- b).

Definition differ (x y : Q) : Prop := ~ x == y.

Lemma Set_add_cases (v : Q) (s : list Q) :
  Set_add v s = s \/ (Set_add v s = s ++ [v] /\ Forall (fun x => differ x v) s).
Proof.
  unfold Set_add. destruct (existsb (Qeq_bool v) s) eqn:E; [now left |].
  right. split; [reflexivity |].
  apply Forall_forall. intros x Hx Heq.
  assert (existsb (Qeq_bool v) s = true); [| congruence].
  apply existsb_exists. exists x. split; [exact Hx |].
  apply Qeq_bool_iff. now symmetry.
Qed.

Lemma distinct_snoc (s : list Q) (v : Q) :
  StronglySorted differ s -> Forall (fun x => differ x v) s ->
  StronglySorted differ (s ++ [v]).
Proof.
  induction 1 as [| x s Hs IH Hx]; simpl; intro Hv.
  - repeat constructor.
  - inversion Hv; subst. constructor; [now apply IH |].
    apply Forall_app. split; [exact Hx | now repeat constructor].
Qed.

(** What holds of the set [ratios] throughout the two loops. *)
Definition catalog_inv (maxDepth : nat) (s : list Q) : Prop :=
  (exists tl, s = 1 :: tl) /\ StronglySorted differ s /\
  Forall (smooth maxDepth) s.

Lemma catalog_inv_add (maxDepth : nat) (v : Q) (s : list Q) :
  smooth maxDepth v -> catalog_inv maxDepth s ->
  catalog_inv maxDepth (Set_add v s).
Proof.
  intros Hv (Hhd & Hd & Hs).
  destruct (Set_add_cases v s) as [-> | [-> Hnew]]; [now repeat split |].
  repeat split.
  - destruct Hhd as [tl ->]. now exists (tl ++ [v]).
  - now apply distinct_snoc.
  - apply Forall_app. split; [exact Hs | now repeat constructor].
Qed.

Lemma ratio_set_inv (maxDepth : nat) : catalog_inv maxDepth (ratio_set maxDepth).
Proof.
  unfold ratio_set. apply fold_left_invariant.
  - repeat split.
    + now exists [].
    + repeat constructor.
    + repeat constructor. exists 0%Z, 0%Z. repeat split; try lia; reflexivity.
  - intros s a Ha Hs. unfold ratios_inner. apply fold_left_invariant; [exact Hs |].
    intros s' b Hb Hs'.
    destruct ((a =? 0)%nat && (b =? 0)%nat); [exact Hs' |].
    apply catalog_inv_add; [| exact Hs'].
    apply in_seq in Ha. apply in_seq in Hb.
    exists (Z.of_nat a), (Z.of_nat b). repeat split; try lia.
    now rewrite pow_half, pow_third.
Qed.

Lemma count_one_sorted (rs : list Ratio) :
  StronglySorted (fun r1 r2 => value r2 < value r1) rs ->
  (exists r, In r rs /\ value r == 1) ->
  List.length (filter (fun r => Qeq_bool (value r) 1) rs) = 1%nat.
Proof.
  induction 1 as [| x l Hs IH Hx]; intros [r [Hin Hr]]; [destruct Hin |].
  simpl. destruct (Qeq_bool (value x) 1) eqn:E; qbool.
  - simpl. f_equal.
    assert (F : filter (fun r => Qeq_bool (value r) 1) l = []); [| now rewrite F].
    clear - Hx E. induction Hx as [| y l Hy Hl IH]; simpl; [reflexivity |].
    destruct (Qeq_bool (value y) 1) eqn:E'; [| exact IH]. qbool. lra.
  - apply IH. destruct Hin as [-> | Hin]; [contradiction |]. eauto.
Qed.

(** The catalog is strictly descending: the set holds no value twice, and
    the sort puts the larger value first. *)
Lemma catalog_strictly_descending (maxDepth : nat) :
  StronglySorted (fun r1 r2 => value r2 < value r1)
                 (generateValidRatios maxDepth).
Proof.
  destruct (ratio_set_inv maxDepth) as (_ & Hd & _).
  unfold generateValidRatios.
  apply sort_sorted with (earlier := fun r1 r2 => differ (value r1) (value r2)).
  - intros; lra.
  - intros x y _ H. unfold after, gt in H. simpl in H. qbool. lra.
  - intros x y Hxy H. unfold after, gt in H. simpl in H. qbool.
    unfold differ in Hxy.
    destruct (Qlt_le_dec (value y) (value x)); [assumption |].
    exfalso. apply Hxy. lra.
  - induction Hd as [| x l Hl IH Hx]; simpl; constructor; auto.
    apply Forall_map. exact Hx.
Qed.

(** C5.  For every [maxDepth >= 0], every ratio of
    [generateValidRatios(maxDepth)] has a value [2^-a * 3^-b] with
    [a, b >= 0] and [a + b <= maxDepth], the value 1 appears exactly once,
    and the values are strictly descending along the sequence. *)
Theorem generateValidRatios_catalog (maxDepth : nat) :
  Forall (fun r => smooth maxDepth (value r)) (generateValidRatios maxDepth) /\
  List.length
    (filter (fun r => Qeq_bool (value r) 1) (generateValidRatios maxDepth))
    = 1%nat /\
  StronglySorted (fun r1 r2 => value r2 < value r1)
                 (generateValidRatios maxDepth).
Proof.
  destruct (ratio_set_inv maxDepth) as ([tl Hhd] & _ & Hs).
  pose proof (catalog_strictly_descending maxDepth) as Hsorted.
  split; [| split]; [| | exact Hsorted].
  - unfold generateValidRatios. apply sort_Forall, Forall_map. exact Hs.
  - apply count_one_sorted; [exact Hsorted |].
    exists (mkRatio 1 (toFraction 1) (getDepth 1)). split; [| reflexivity].
    unfold generateValidRatios. apply sort_In. rewrite Hhd. now left.
Qed.

(** ** AssignmentOptimizer *)

Lemma flat_map_length_const {A B : Type} (f : A -> list B) (l : list A)
  (k : nat) :
  (forall a, List.length (f a) = k) ->
  List.length (flat_map f l) = (List.length l * k)%nat.
Proof.
  intro H. induction l as [| a l IH]; simpl; [reflexivity |].
  now rewrite length_app, H, IH.
Qed.

Section Assignments.
Variable batteryTypes : list BatteryType.
Variables targetPower R : Q.

(** The power of a list of assignments, added up in order from 0. *)
Definition total_power (l : list Assignment) : num :=
  fold_left (fun p a => add p (apower a)) l (Fin 0).

(** [totalPower >= targetPower - 0.01] *)
Definition feasible (l : list Assignment) : bool :=
  ge (total_power l) (Fin (targetPower - 0.01)).

Definition excess_of (l : list Assignment) : num :=
  sub (total_power l) (Fin targetPower).

(** [a] gives [ratio] a battery type of the list, with the duty cycle and
    the power of the data model. *)
Definition assigns (ratio0 : Ratio) (a : Assignment) : Prop :=
  ratio a = ratio0 /\ In (typeData a) batteryTypes /\
  aname a = name (typeData a) /\
  dutyCycle a =
    min2 (Fin 1) (div (Fin (R * value ratio0)) (Fin (consume (typeData a)))) /\
  apower a = mul (Fin (power (typeData a))) (dutyCycle a).

(** One battery type per ratio, repetition allowed. *)
Definition is_combination (ratios : list Ratio) (l : list Assignment) : Prop :=
  Forall2 assigns ratios l.

(** The combinations in the order in which [assign] reaches them. *)
Fixpoint combinations (bts : list BatteryType) (ratios : list Ratio)
  : list (list Assignment) :=
  match ratios with
  | [] => [[]]
  | ratio :: rest =>
      flat_map (fun b => map (cons (assignment_of R ratio b))
                             (combinations bts rest)) bts
  end.

(** What [assign] does when [index === ratios.length]. *)
Definition visit (st : AssignState) (l : list Assignment) : AssignState :=
  if feasible l then
    if lt (excess_of l) (minExcess st) then
      mkAssignState (Some (mkBestResult (total_power l) l)) (excess_of l)
    else st
  else st.

Lemma total_power_snoc (l : list Assignment) (a : Assignment) :
  total_power (l ++ [a]) = add (total_power l) (apower a).
Proof. unfold total_power. now rewrite fold_left_app. Qed.

Lemma fold_left_flat_map {A B C : Type} (f : A -> C -> A) (g : B -> list C)
  (l : list B) (s : A) :
  fold_left f (flat_map g l) s = fold_left (fun s b => fold_left f (g b) s) l s.
Proof.
  revert s. induction l as [| b l IH]; simpl; intro s; [reflexivity |].
  now rewrite fold_left_app, IH.
Qed.

Lemma fold_left_ext {A B : Type} (f g : A -> B -> A) (l : list B) (s : A) :
  (forall s b, f s b = g s b) -> fold_left f l s = fold_left g l s.
Proof.
  intro H. revert s. induction l as [| b l IH]; simpl; intro s; [reflexivity |].
  now rewrite H, IH.
Qed.

Lemma assign_visits (rest : list Ratio) :
  forall (cur : list Assignment) (st : AssignState),
    assign batteryTypes targetPower R rest cur (total_power cur) st
    = fold_left visit (map (app cur) (combinations batteryTypes rest)) st.
Proof.
  induction rest as [| ratio0 rest IH]; intros cur st.
  - simpl. rewrite app_nil_r. reflexivity.
  - cbn [assign combinations].
    rewrite flat_map_concat_map, concat_map, map_map.
    rewrite <- flat_map_concat_map, fold_left_flat_map.
    apply fold_left_ext. intros st' b.
    rewrite <- total_power_snoc, IH, !map_map.
    f_equal. apply map_ext. intro l. now rewrite <- app_assoc.
Qed.

Lemma combinations_spec (ratios : list Ratio) (l : list Assignment) :
  In l (combinations batteryTypes ratios) <-> is_combination ratios l.
Proof.
  unfold is_combination. revert l.
  induction ratios as [| ratio0 rest IH]; intro l; simpl.
  - split.
    + intros [<- | []]. constructor.
    + inversion 1. now left.
  - rewrite in_flat_map. split.
    + intros (b & Hb & Hl). apply in_map_iff in Hl as (l' & <- & Hl').
      constructor; [| now apply IH]. now repeat split.
    + inversion 1 as [| ? a ? l' (Hr & Hin & Hn & Hd & Hp) Hl']; subst.
      exists (typeData a). split; [exact Hin |].
      apply in_map_iff. exists l'. split; [| now apply IH].
      f_equal. destruct a as [n r d p t]; simpl in *. subst.
      reflexivity.
Qed.

Lemma combinations_length (ratios : list Ratio) :
  List.length (combinations batteryTypes ratios)
  = (List.length batteryTypes ^ List.length ratios)%nat.
Proof.
  induction ratios as [| ratio0 rest IH]; simpl; [reflexivity |].
  rewrite <- IH. apply flat_map_length_const.
  intro b. apply length_map.
Qed.

(** A feasible power is a number, and so is its excess. *)
Lemma feasible_number (l : list Assignment) :
  feasible l = true ->
  is_number (excess_of l) /\ lt (excess_of l) NInf = false /\
  (total_power l = PInf \/ exists q, total_power l = Fin q).
Proof.
  unfold feasible, excess_of, ge, is_number.
  destruct (total_power l) as [q | | |]; simpl; intro H; try discriminate.
  - repeat split; [discriminate | right; now exists q].
  - repeat split; [discriminate | now left].
Qed.

(** The state of the search after the combinations [seen]. *)
Definition searched (seen : list (list Assignment)) (st : AssignState) : Prop :=
  is_number (minExcess st) /\
  (forall l, In l seen -> feasible l = true ->
             le (minExcess st) (excess_of l) = true) /\
  match bestResult st with
  | Some r =>
      In (br_batteries r) seen /\
      totalGenerated r = total_power (br_batteries r) /\
      feasible (br_batteries r) = true /\
      minExcess st = excess_of (br_batteries r)
  | None => minExcess st = PInf
  end.

Lemma visit_searched (seen : list (list Assignment)) (st : AssignState)
  (l : list Assignment) :
  searched seen st -> searched (seen ++ [l]) (visit st l).
Proof.
  intros (Hn & Hmin & Hbest). unfold visit.
  destruct (feasible l) eqn:Hf.
  - destruct (feasible_number l Hf) as (Hnum & _ & _).
    destruct (lt (excess_of l) (minExcess st)) eqn:Hlt.
    + repeat split; simpl.
      * exact Hnum.
      * intros l' Hin Hf'. apply in_app_or in Hin as [Hin | [<- | []]].
        -- apply lt_le. eapply lt_le_trans; [exact Hlt | now apply Hmin].
        -- now apply le_refl.
      * apply in_or_app. right. now left.
      * exact Hf.
    + repeat split.
      * exact Hn.
      * intros l' Hin Hf'. apply in_app_or in Hin as [Hin | [<- | []]].
        -- now apply Hmin.
        -- now apply lt_false_le.
      * destruct (bestResult st) as [r |]; [| exact Hbest].
        destruct Hbest as (Hin & Ht & Hfr & He).
        repeat split; auto. apply in_or_app. now left.
  - repeat split.
    + exact Hn.
    + intros l' Hin Hf'. apply in_app_or in Hin as [Hin | [<- | []]].
      * now apply Hmin.
      * congruence.
    + destruct (bestResult st) as [r |]; [| exact Hbest].
      destruct Hbest as (Hin & Ht & Hfr & He).
      repeat split; auto. apply in_or_app. now left.
Qed.

Lemma fold_visit_searched (ls seen : list (list Assignment))
  (st : AssignState) :
  searched seen st -> searched (seen ++ ls) (fold_left visit ls st).
Proof.
  revert seen st. induction ls as [| l ls IH]; intros seen st H; simpl.
  - now rewrite app_nil_r.
  - replace (seen ++ l :: ls) with ((seen ++ [l]) ++ ls)
      by now rewrite <- app_assoc.
    apply IH. now apply visit_searched.
Qed.

Lemma findBest_searched (ratios : list Ratio) :
  searched (combinations batteryTypes ratios)
           (assign batteryTypes targetPower R ratios [] (Fin 0)
                   (mkAssignState None PInf)).
Proof.
  change (Fin 0) with (total_power []).
  rewrite assign_visits. rewrite map_id.
  apply (fold_visit_searched _ []).
  repeat split; simpl; [discriminate | intros l []].
Qed.

(** With no battery type of consumption 0, the power of a combination is
    finite. *)
Lemma combination_finite (ratios : list Ratio) (l : list Assignment) :
  Forall (fun b => ~ consume b == 0) batteryTypes ->
  is_combination ratios l ->
  forall p0 : Q, exists q, fold_left (fun p a => add p (apower a)) l (Fin p0) = Fin q.
Proof.
  intros Hc. unfold is_combination. induction 1 as [| r a rs l Ha Hl IH]; intro p0.
  - now exists p0.
  - simpl. destruct Ha as (_ & Hin & _ & Hd & Hp).
    rewrite Forall_forall in Hc. specialize (Hc _ Hin).
    rewrite Hp, Hd. simpl.
    destruct (Qeq_bool (consume (typeData a)) 0) eqn:E; [qbool; contradiction |].
    unfold min2. simpl.
    destruct (Qle_bool 1 (R * value r / consume (typeData a))); simpl; apply IH.
Qed.

End Assignments.

(** C1.  [findBestVariableAssignment] returns, among the
    [|batteryTypes|^|ratios|] ways to give each ratio one battery type (with
    [dutyCycle = min(1, R * ratio.value / consume)] and
    [power = batteryType.power * dutyCycle]), a feasible one
    ([totalPower >= targetPower - 0.01]) of minimum excess
    [totalPower - targetPower]; it returns null exactly when none is
    feasible.  The battery types have a consumption other than 0, as the data
    model requires. *)
Theorem findBestVariableAssignment_optimal (ratios : list Ratio)
  (batteryTypes : list BatteryType) (targetPower R : Q) :
  Forall (fun b => ~ consume b == 0) batteryTypes ->
  List.length (combinations R batteryTypes ratios)
  = (List.length batteryTypes ^ List.length ratios)%nat /\
  (forall l, In l (combinations R batteryTypes ratios)
             <-> is_combination batteryTypes R ratios l) /\
  match findBestVariableAssignment ratios batteryTypes targetPower R with
  | Some best =>
      is_combination batteryTypes R ratios (br_batteries best) /\
      totalGenerated best = total_power (br_batteries best) /\
      feasible targetPower (br_batteries best) = true /\
      forall l, is_combination batteryTypes R ratios l ->
                feasible targetPower l = true ->
                le (excess_of targetPower (br_batteries best))
                   (excess_of targetPower l) = true
  | None =>
      forall l, is_combination batteryTypes R ratios l ->
                feasible targetPower l = false
  end.
Proof.
  intro Hc. split; [apply combinations_length |].
  split; [intro l; apply combinations_spec |].
  destruct (findBest_searched batteryTypes targetPower R ratios)
    as (Hn & Hmin & Hbest).
  unfold findBestVariableAssignment.
  destruct (bestResult _) as [best |].
  - destruct Hbest as (Hin & Ht & Hf & He). repeat split; auto.
    + now apply combinations_spec.
    + intros l Hl Hfl. rewrite <- He. apply Hmin; [| exact Hfl].
      now apply combinations_spec.
  - intros l Hl. destruct (feasible targetPower l) eqn:Hf; [| reflexivity].
    exfalso.
    assert (Hle := Hmin l (proj2 (combinations_spec _ _ _ _) Hl) Hf).
    rewrite Hbest in Hle.
    destruct (combination_finite batteryTypes R ratios l Hc Hl 0) as [q Hq].
    unfold excess_of, total_power in Hle. rewrite Hq in Hle. discriminate.
Qed.

(** ** CombinationSearch *)

(** [sel] picks ratios of [from] at non-decreasing positions: a position may
    be picked again, and later picks never go back. *)
Inductive chosen_from : list Ratio -> list Ratio -> Prop :=
| chosen_none (from : list Ratio) : chosen_from from []
| chosen_take (r : Ratio) (from sel : list Ratio) :
    chosen_from (r :: from) sel -> chosen_from (r :: from) (r :: sel)
| chosen_skip (r : Ratio) (from sel : list Ratio) :
    chosen_from from sel -> chosen_from (r :: from) sel.

Lemma chosen_from_In (from sel : list Ratio) :
  chosen_from from sel -> forall r, In r sel -> In r from.
Proof.
  induction 1 as [| r from sel H IH | r from sel H IH]; intros x Hx.
  - destruct Hx.
  - destruct Hx as [<- | Hx]; [now left | now apply IH].
  - right. now apply IH.
Qed.

Lemma for_each_from_In {B : Type} (body : list Ratio -> Ratio -> list B)
  (from : list Ratio) (c : B) :
  In c (for_each_from body from) ->
  exists skipped r from', from = skipped ++ r :: from' /\
                          In c (body (r :: from') r).
Proof.
  induction from as [| r from IH]; simpl; [intros [] |].
  intro H. apply in_app_or in H as [H | H].
  - now exists [], r, from.
  - destruct (IH H) as (sk & r' & from' & -> & Hc).
    now exists (r :: sk), r', from'.
Qed.

Lemma chosen_skip_many (skipped from sel : list Ratio) :
  chosen_from from sel -> chosen_from (skipped ++ from) sel.
Proof.
  induction skipped as [| r sk IH]; simpl; intro H; [exact H |].
  apply chosen_skip. now apply IH.
Qed.

(** Every candidate that [searchCombinations] pushes is the evaluation of
    [currentRatios] extended by ratios chosen from [from]. *)
Lemma searchCombinations_chosen (n : Z) (params : Params) (fuel : nat) :
  forall (from cur : list Ratio) (rem : Q) (c : Solution),
    In c (searchCombinations fuel n params from cur rem) ->
    exists sel, chosen_from from sel /\
                In c (evaluate_combination n params (cur ++ sel)).
Proof.
  induction fuel as [| fuel IH]; intros from cur rem c; simpl; [intros [] |].
  destruct (Z.of_nat (List.length cur) =? n)%Z.
  - intro H. exists []. rewrite app_nil_r. split; [constructor | exact H].
  - destruct (Qlt_bool flow_limit (sum_values cur)); [intros [] |].
    intro H. apply for_each_from_In in H as (sk & r & from' & -> & H).
    destruct (Qlt_bool flow_limit (sum_values cur + value r)); [destruct H |].
    apply IH in H as (sel & Hsel & Hc).
    exists (r :: sel). split.
    + apply chosen_skip_many. now apply chosen_take.
    + now rewrite <- app_assoc in Hc.
Qed.

Lemma for_each_from_ext {B : Type}
  (body body' : list Ratio -> Ratio -> list B) (from : list Ratio) :
  (forall from_i r, body from_i r = body' from_i r) ->
  for_each_from body from = for_each_from body' from.
Proof.
  intro H. induction from as [| r from IH]; simpl; [reflexivity |].
  now rewrite H, IH.
Qed.

(** A selection longer than [n] is never extended to one of length [n]:
    nothing is pushed, whatever the fuel.  This is the case of a negative
    [n]. *)
Lemma searchCombinations_overlong (n : Z) (params : Params) (fuel : nat) :
  forall (from cur : list Ratio) (rem : Q),
    (n < Z.of_nat (List.length cur))%Z ->
    searchCombinations fuel n params from cur rem = [].
Proof.
  induction fuel as [| fuel IH]; intros from cur rem Hn; [reflexivity |].
  cbn [searchCombinations].
  destruct (Z.eqb_spec (Z.of_nat (List.length cur)) n) as [E | _]; [lia |].
  destruct (Qlt_bool flow_limit (sum_values cur)); [reflexivity |].
  induction from as [| r from IHf]; [reflexivity |].
  cbn [for_each_from]. rewrite IHf.
  destruct (Qlt_bool flow_limit (sum_values cur + value r)); [reflexivity |].
  rewrite IH; [reflexivity |]. rewrite length_app. cbn [List.length]. lia.
Qed.

(** Fuel beyond the number of ratios still to choose changes nothing. *)
Lemma searchCombinations_fuel (n : Z) (params : Params) (fuel : nat) :
  forall (fuel' : nat) (from cur : list Ratio) (rem : Q),
    (Z.of_nat (List.length cur) <= n)%Z ->
    (n - Z.of_nat (List.length cur) < Z.of_nat fuel)%Z ->
    (n - Z.of_nat (List.length cur) < Z.of_nat fuel')%Z ->
    searchCombinations fuel n params from cur rem
    = searchCombinations fuel' n params from cur rem.
Proof.
  induction fuel as [| fuel IH]; intros fuel' from cur rem Hle Hf Hf'; [lia |].
  destruct fuel' as [| fuel']; [lia |].
  cbn [searchCombinations].
  destruct (Z.eqb_spec (Z.of_nat (List.length cur)) n) as [E | Hne];
    [reflexivity |].
  destruct (Qlt_bool flow_limit (sum_values cur)); [reflexivity |].
  apply for_each_from_ext. intros from_i r.
  destruct (Qlt_bool flow_limit (sum_values cur + value r)); [reflexivity |].
  apply IH; rewrite length_app; cbn [List.length]; lia.
Qed.

(** The fuel that [searchForNBatteries] gives is enough. *)
Lemma searchForNBatteries_fuel (n : Z) (params : Params) (from : list Ratio)
  (extra : nat) :
  searchCombinations (S (Z.to_nat n) + extra) n params from [] 1
  = searchCombinations (S (Z.to_nat n)) n params from [] 1.
Proof.
  destruct (Z.lt_ge_cases n 0) as [Hneg | Hpos].
  - now rewrite !searchCombinations_overlong by (cbn [List.length]; lia).
  - apply searchCombinations_fuel; cbn [List.length]; lia.
Qed.

Lemma searchForNBatteries_chosen (validRatios : list Ratio) (n : Z)
  (params : Params) (c : Solution) :
  In c (searchForNBatteries validRatios n params) ->
  exists sel, chosen_from (usableRatios validRatios params) sel /\
              In c (evaluate_combination n params sel).
Proof.
  unfold searchForNBatteries.
  destruct (usableRatios validRatios params) as [| r us] eqn:E; [intros [] |].
  intro H. apply searchCombinations_chosen in H. exact H.
Qed.

(** [l.reduce((sum, a) => sum + a.ratio.value, 0)] over assignments. *)
Definition sum_ratio_values (l : list Assignment) : Q :=
  fold_left (fun sum a => sum + value (ratio a)) l 0.

Lemma is_combination_ratios (bts : list BatteryType) (R0 : Q)
  (ratios : list Ratio) (l : list Assignment) :
  is_combination bts R0 ratios l -> map ratio l = ratios.
Proof.
  induction 1 as [| r a rs l Ha Hl IH]; simpl; [reflexivity |].
  destruct Ha as [-> _]. now rewrite IH.
Qed.

Lemma sum_ratio_values_map (l : list Assignment) :
  sum_ratio_values l = sum_values (map ratio l).
Proof.
  unfold sum_ratio_values, sum_values. generalize 0.
  induction l as [| a l IH]; simpl; intro q; [reflexivity | apply IH].
Qed.

(** What holds of a candidate made from the ratios [rs] for the count [n]. *)
Record candidate_of (params : Params) (n : Z) (rs : list Ratio)
  (c : Solution) : Prop := mkCandidateOf {
  cand_success : success c = Some true;
  cand_count : batteryCount c = n;
  cand_ratios : map ratio (batteries c) = rs;
  cand_combination :
    is_combination (p_batteries params) (R params) rs (batteries c);
  cand_flow : sum_values rs <= flow_limit;
  cand_totalRatio : totalRatio c = Some (sum_values rs);
  cand_power : ge (totalPower c) (Fin (D params - 0.01)) = true;
  cand_generated :
    totalPower c = add (Fin (P_base params)) (total_power (batteries c));
  cand_excess : excess c = sub (totalPower c) (Fin (D params));
  cand_number : is_number (excess c);
  cand_complexity :
    complexity c = add (Fin (inject_Z n * 10)) (sum_depths rs);
  cand_unlabelled : type c = None /\ sname c = None /\ desc c = None
}.

Lemma evaluate_combination_candidate (n : Z) (params : Params)
  (rs : list Ratio) (c : Solution) :
  In c (evaluate_combination n params rs) -> candidate_of params n rs c.
Proof.
  unfold evaluate_combination.
  destruct (Qlt_bool flow_limit (sum_values rs)) eqn:Hflow; [intros [] |].
  pose proof (findBest_searched (p_batteries params)
                (D params - P_base params) (R params) rs) as (_ & _ & Hb).
  unfold findBestVariableAssignment.
  destruct (bestResult _) as [best |]; [| intros []].
  destruct Hb as (Hin & Ht & Hf & _).
  apply combinations_spec in Hin.
  intros [<- | []].
  assert (Hge : ge (add (Fin (P_base params)) (totalGenerated best))
                   (Fin (D params - 0.01)) = true).
  { rewrite Ht. unfold feasible, ge in *.
    destruct (total_power (br_batteries best)); simpl in *;
      try discriminate; try reflexivity.
    qbool. lra. }
  constructor;
    cbn [success batteryCount batteries totalPower excess totalRatio
         complexity type sname desc]; auto.
  - now apply is_combination_ratios in Hin.
  - qbool. exact Hflow.
  - now rewrite Ht.
  - unfold ge, is_number in *.
    destruct (add (Fin (P_base params)) (totalGenerated best));
      simpl in *; discriminate.
Qed.

Lemma searchForNBatteries_candidate (validRatios : list Ratio) (n : Z)
  (params : Params) (c : Solution) :
  In c (searchForNBatteries validRatios n params) ->
  exists rs, chosen_from (usableRatios validRatios params) rs /\
             candidate_of params n rs c.
Proof.
  intro H. apply searchForNBatteries_chosen in H as (rs & Hrs & Hc).
  exists rs. split; [exact Hrs |].
  now apply evaluate_combination_candidate.
Qed.

Lemma collectCandidates_candidate (params : Params) (c : Solution) :
  In c (collectCandidates params) ->
  exists n rs,
    chosen_from (usableRatios (generateValidRatios (maxDepth params)) params)
                rs /\
    candidate_of params n rs c.
Proof.
  unfold collectCandidates. intro H.
  apply in_flat_map in H as (n & _ & H).
  exists n. now apply searchForNBatteries_candidate.
Qed.

(** ** The store of candidates *)

Lemma update_length (r : Ref) (f : Solution -> Solution) (h : Store) :
  List.length (update r f h) = List.length h.
Proof.
  revert r. induction h as [| c h IH]; intros [| r]; simpl; auto.
Qed.

Lemma deref_update (r : Ref) (f : Solution -> Solution) (h : Store) (i : Ref) :
  deref (update r f h) i
  = if ((i =? r) && (r <? List.length h))%nat then f (deref h i)
    else deref h i.
Proof.
  unfold deref. revert r i.
  induction h as [| c h IH]; intros r i.
  - simpl. rewrite andb_false_r. now destruct r.
  - destruct r as [| r], i as [| i]; simpl; try reflexivity.
    rewrite IH. reflexivity.
Qed.

(** The fields that the ranking never writes. *)
Definition data (c : Solution)
  : option bool * Z * list Assignment * num * num * option Q * num :=
  (success c, batteryCount c, batteries c, totalPower c, excess c,
   totalRatio c, complexity c).

Lemma data_label (t n d : string) (c : Solution) : data (label t n d c) = data c.
Proof. reflexivity. Qed.

Lemma data_update (r : Ref) (t n d : string) (h : Store) (i : Ref) :
  data (deref (update r (label t n d) h) i) = data (deref h i).
Proof.
  rewrite deref_update.
  now destruct ((i =? r) && (r <? List.length h))%nat.
Qed.

Lemma data_excess (c c' : Solution) : data c = data c' -> excess c = excess c'.
Proof. unfold data. congruence. Qed.

Lemma data_batteryCount (c c' : Solution) :
  data c = data c' -> batteryCount c = batteryCount c'.
Proof. unfold data. congruence. Qed.

Lemma type_update (r : Ref) (t n d : string) (h : Store) (i : Ref) :
  type (deref (update r (label t n d) h) i)
  = if ((i =? r) && (r <? List.length h))%nat then Some t
    else type (deref h i).
Proof.
  rewrite deref_update.
  now destruct ((i =? r) && (r <? List.length h))%nat.
Qed.

Lemma balanced_ok_data (h h' : Store) (bp bs cand : Ref) :
  (forall i, data (deref h i) = data (deref h' i)) ->
  balanced_ok h bp bs cand = balanced_ok h' bp bs cand.
Proof.
  intro H. unfold balanced_ok.
  now rewrite (data_excess _ _ (H cand)), (data_excess _ _ (H bp)),
    (data_batteryCount _ _ (H cand)), (data_batteryCount _ _ (H bp)).
Qed.

Lemma find_ext {A : Type} (f g : A -> bool) (l : list A) :
  (forall x, f x = g x) -> find f l = find g l.
Proof.
  intro H. induction l as [| x l IH]; simpl; [reflexivity |].
  now rewrite H, IH.
Qed.

(** ** SolutionRanker *)

(** The array [allCandidates] after [sort((a, b) => a.excess - b.excess)]. *)
Definition sortedRefs (h0 : Store) : list Ref :=
  sort (by_excess h0) (seq 0 (List.length h0)).

Lemma rank_sorted (D0 : Q) (h0 : Store) :
  sortedCandidates (rank D0 h0) = sortedRefs h0.
Proof. reflexivity. Qed.

Lemma rank_precision (D0 : Q) (h0 : Store) :
  bestPrecision (rank D0 h0) = nth 0 (sortedRefs h0) 0%nat.
Proof. reflexivity. Qed.

Lemma rank_balanced (D0 : Q) (h0 : Store) :
  bestBalanced (rank D0 h0)
  = find (balanced_ok h0 (bestPrecision (rank D0 h0)) (bestSimple (rank D0 h0)))
         (sortedRefs h0).
Proof.
  unfold rank. cbn [bestBalanced bestPrecision bestSimple].
  apply find_ext. intro x. apply balanced_ok_data.
  intro i. now rewrite !data_update.
Qed.

Lemma rank_balanced_ok (D0 : Q) (h0 : Store) (b : Ref) :
  bestBalanced (rank D0 h0) = Some b ->
  In b (sortedRefs h0) /\
  balanced_ok h0 (bestPrecision (rank D0 h0)) (bestSimple (rank D0 h0)) b
  = true.
Proof. rewrite rank_balanced. apply find_some. Qed.

Lemma rank_solutions (D0 : Q) (h0 : Store) :
  solutions (rank D0 h0)
  = [bestPrecision (rank D0 h0)]
    ++ (if negb (bestSimple (rank D0 h0) =? bestPrecision (rank D0 h0))%nat
        then [bestSimple (rank D0 h0)] else [])
    ++ match bestBalanced (rank D0 h0) with
       | Some b => [b]
       | None => []
       end.
Proof.
  destruct (bestBalanced (rank D0 h0)) as [b |] eqn:E.
  - destruct (rank_balanced_ok _ _ _ E) as [_ Hok].
    unfold balanced_ok in Hok.
    apply andb_true_iff in Hok as [Hok _].
    revert E Hok. unfold rank.
    cbn [bestBalanced bestPrecision bestSimple solutions].
    intros -> ->. reflexivity.
  - revert E. unfold rank.
    cbn [bestBalanced bestPrecision bestSimple solutions].
    now intros ->.
Qed.

Lemma rank_data (D0 : Q) (h0 : Store) (i : Ref) :
  data (deref (store (rank D0 h0)) i) = data (deref h0 i).
Proof.
  unfold rank. cbn [store].
  match goal with |- context [find ?f ?l] => destruct (find f l) end;
    now rewrite !data_update.
Qed.

Lemma sortedRefs_In (h0 : Store) (i : Ref) :
  In i (sortedRefs h0) <-> (i < List.length h0)%nat.
Proof.
  unfold sortedRefs. rewrite sort_In, in_seq. lia.
Qed.

Lemma nth_sortedRefs (h0 : Store) (k : nat) :
  h0 <> [] -> (nth k (sortedRefs h0) 0 < List.length h0)%nat.
Proof.
  intro Hne.
  destruct (nth_in_or_default k (sortedRefs h0) 0%nat) as [H | ->].
  - now apply sortedRefs_In.
  - destruct h0; [congruence | simpl; lia].
Qed.

Lemma nth_sublist_valid (h0 : Store) (l : list Ref) (k : nat) :
  h0 <> [] -> (forall i, In i l -> (i < List.length h0)%nat) ->
  (nth k l 0 < List.length h0)%nat.
Proof.
  intros Hne Hl.
  destruct (nth_in_or_default k l 0%nat) as [H | ->]; [now apply Hl |].
  destruct h0; [congruence | simpl; lia].
Qed.

Lemma rank_precision_valid (D0 : Q) (h0 : Store) :
  h0 <> [] -> (bestPrecision (rank D0 h0) < List.length h0)%nat.
Proof. intro H. rewrite rank_precision. now apply nth_sortedRefs. Qed.

Lemma rank_simple_valid (D0 : Q) (h0 : Store) :
  h0 <> [] -> (bestSimple (rank D0 h0) < List.length h0)%nat.
Proof.
  intro Hne. unfold rank. cbn [bestSimple].
  repeat match goal with
         | |- context [if ?b then _ else _] => destruct b
         end;
    apply nth_sublist_valid; auto; intros i Hi;
    repeat (apply sort_In in Hi || apply filter_In in Hi as [Hi _]);
    now apply in_seq in Hi.
Qed.

Lemma rank_balanced_valid (D0 : Q) (h0 : Store) (b : Ref) :
  bestBalanced (rank D0 h0) = Some b -> (b < List.length h0)%nat.
Proof.
  intro H. apply rank_balanced_ok in H as [H _]. now apply sortedRefs_In.
Qed.

Lemma rank_solutions_valid (D0 : Q) (h0 : Store) (i : Ref) :
  h0 <> [] -> In i (solutions (rank D0 h0)) -> (i < List.length h0)%nat.
Proof.
  intros Hne. rewrite rank_solutions. intro H.
  apply in_app_or in H as [[<- | []] | H]; [now apply rank_precision_valid |].
  apply in_app_or in H as [H | H].
  - destruct (negb _); [| destruct H].
    destruct H as [<- | []]. now apply rank_simple_valid.
  - destruct (bestBalanced (rank D0 h0)) as [b |] eqn:E; [| destruct H].
    destruct H as [<- | []]. now apply rank_balanced_valid in E.
Qed.

(** ** Bounds on the solutions *)

(** The two bounds of a solution: the flow it draws and the power it
    delivers. *)
Definition within_bounds (params : Params) (s : Solution) : Prop :=
  sum_ratio_values (batteries s) <= 1 + (1 # 1000000000) /\
  ge (totalPower s) (Fin (D params - 0.01)) = true.

Lemma candidate_within_bounds (params : Params) (n : Z) (rs : list Ratio)
  (c : Solution) :
  candidate_of params n rs c -> within_bounds params c.
Proof.
  intro H. split; [| apply (cand_power _ _ _ _ H)].
  rewrite sum_ratio_values_map, (cand_ratios _ _ _ _ H).
  pose proof (cand_flow _ _ _ _ H) as Hf. unfold flow_limit in Hf. lra.
Qed.

Lemma within_bounds_data (params : Params) (c s : Solution) :
  data s = data c -> within_bounds params c -> within_bounds params s.
Proof.
  unfold data, within_bounds. intro H. injection H as _ _ -> -> _ _ _. auto.
Qed.

Lemma length_zero_nil {A : Type} (l : list A) :
  (List.length l =? 0)%nat = false -> l <> [].
Proof. destruct l; simpl; congruence. Qed.

Lemma Math_max_finite (l : list Q) :
  Math_max (map Fin l) = NInf \/ exists q, Math_max (map Fin l) = Fin q.
Proof.
  unfold Math_max.
  assert (H : forall acc,
             (acc = NInf \/ exists q, acc = Fin q) ->
             fold_left max2 (map Fin l) acc = NInf \/
             exists q, fold_left max2 (map Fin l) acc = Fin q).
  { induction l as [| x l IH]; intros acc Hacc; [exact Hacc |].
    cbn [map fold_left]. apply IH.
    destruct Hacc as [-> | [q ->]]; unfold max2; cbn.
    - right. now exists x.
    - right. destruct (Qle_bool q x); eauto. }
  apply H. now left.
Qed.

(** The loop over [n] starts at a finite count or at [Infinity], where it
    does not run: it never starts at [-Infinity] or NaN. *)
Lemma minBatteries_range (params : Params) :
  P_base params < D params ->
  minBatteries params = PInf \/ exists q, minBatteries params = Fin q.
Proof.
  intro H. unfold minBatteries. rewrite <- map_map.
  destruct (Math_max_finite (map power (p_batteries params)))
    as [-> | [m ->]]; cbn.
  - right. eauto.
  - destruct (Qeq_bool m 0); [| right; cbn [Math_ceil]; eauto].
    destruct (Qeq_bool (D params - P_base params) 0) eqn:E; [qbool; lra |].
    destruct (Qlt_bool 0 (D params - P_base params)) eqn:E'; [now left |].
    qbool. lra.
Qed.

(** The three outcomes of [searchOptimalCombination]. *)
Lemma searchOptimalCombination_cases (params : Params) :
  (D params <= P_base params /\
   searchOptimalCombination params = BaseSolution [baseSolution params]) \/
  (P_base params < D params /\ collectCandidates params = [] /\
   searchOptimalCombination params = Failed "无法找到满足需求的方案" []) \/
  (P_base params < D params /\ collectCandidates params <> [] /\
   searchOptimalCombination params
   = Succeeded
       (map (deref (store (rank (D params) (collectCandidates params))))
            (solutions (rank (D params) (collectCandidates params))))).
Proof.
  unfold searchOptimalCombination.
  destruct (Qle_bool (D params - P_base params) 0) eqn:E; qbool.
  - left. split; [lra | reflexivity].
  - right. destruct (List.length (collectCandidates params) =? 0)%nat eqn:El.
    + left. repeat split; [lra |].
      destruct (collectCandidates params); [reflexivity | discriminate].
    + right. repeat split; [lra |]. now apply length_zero_nil.
Qed.

(** A returned solution is a candidate of the search, with labels. *)
Lemma returned_solution (params : Params) (sols : list Solution)
  (s : Solution) :
  searchOptimalCombination params = Succeeded sols -> In s sols ->
  exists c, In c (collectCandidates params) /\ data s = data c.
Proof.
  destruct (searchOptimalCombination_cases params)
    as [[_ ->] | [(_ & _ & ->) | (_ & Hne & ->)]]; try discriminate.
  intros H Hs.
  assert (E : sols = map (deref (store (rank (D params)
                                               (collectCandidates params))))
                         (solutions (rank (D params)
                                          (collectCandidates params))))
    by congruence.
  rewrite E in Hs. clear E H.
  apply in_map_iff in Hs as (i & <- & Hi).
  apply rank_solutions_valid in Hi; [| exact Hne].
  exists (deref (collectCandidates params) i).
  split; [now apply nth_In | apply rank_data].
Qed.

(** C2.  Whatever [searchForNBatteries] pushes has ratios that sum to at
    most [1 + 1e-9] and a total power of at least [D - 0.01]; a selection
    whose ratios sum to more yields nothing; and so every solution that
    [searchOptimalCombination] returns on success satisfies both bounds. *)
Theorem solutions_within_bounds (params : Params) :
  (forall validRatios n c,
      In c (searchForNBatteries validRatios n params) ->
      within_bounds params c) /\
  (forall n rs, 1 + (1 # 1000000000) < sum_values rs ->
                evaluate_combination n params rs = []) /\
  (forall sols, searchOptimalCombination params = Succeeded sols ->
                forall s, In s sols -> within_bounds params s).
Proof.
  split; [| split].
  - intros vr n c H.
    apply searchForNBatteries_candidate in H as (rs & _ & H).
    apply (candidate_within_bounds _ _ _ _ H).
  - intros n rs H. unfold evaluate_combination.
    destruct (Qlt_bool flow_limit (sum_values rs)) eqn:E; [reflexivity |].
    qbool. unfold flow_limit in E. lra.
  - intros sols H s Hs.
    destruct (returned_solution _ _ _ H Hs) as (c & Hc & Hd).
    apply collectCandidates_candidate in Hc as (n & rs & _ & Hc).
    eapply within_bounds_data; [exact Hd |].
    apply (candidate_within_bounds _ _ _ _ Hc).
Qed.

(** ** The degenerate case and the failure *)

(** C6.  When [D <= P_base] the result is the single base solution, with no
    battery, [excess = P_base - D] and [complexity = 0]; it does not depend
    on the batteries, the supply rate or the depth: nothing is searched. *)
Theorem base_solution_when_covered (params : Params) :
  D params <= P_base params ->
  (exists s,
      searchOptimalCombination params = BaseSolution [s] /\
      type s = Some "base"%string /\
      batteryCount s = 0%Z /\ batteries s = [] /\
      totalPower s = Fin (P_base params) /\
      excess s = Fin (P_base params - D params) /\
      complexity s = Fin 0) /\
  (forall bs R0 depth0,
      searchOptimalCombination
        (mkParams (D params) (P_base params) bs R0 depth0)
      = searchOptimalCombination params).
Proof.
  intro H. split.
  - exists (baseSolution params).
    destruct (searchOptimalCombination_cases params)
      as [[_ ->] | [(Hlt & _) | (Hlt & _)]]; try lra.
    now repeat split.
  - intros bs R0 depth0.
    destruct (searchOptimalCombination_cases params)
      as [[_ ->] | [(Hlt & _) | (Hlt & _)]]; try lra.
    destruct (searchOptimalCombination_cases
                (mkParams (D params) (P_base params) bs R0 depth0))
      as [[_ ->] | [(Hlt & _) | (Hlt & _)]]; cbn [D P_base] in *; try lra.
    reflexivity.
Qed.

(** C8.  When [D > P_base] the search either fails with the value
    [{ success: false, message, solutions: [] }], which it does when no
    count yields a candidate, or succeeds with at least one solution. *)
Theorem failure_is_a_value (params : Params) :
  P_base params < D params ->
  (collectCandidates params = [] ->
   searchOptimalCombination params
   = Failed "无法找到满足需求的方案" []) /\
  (collectCandidates params <> [] ->
   exists s sols, searchOptimalCombination params = Succeeded (s :: sols)).
Proof.
  intro H.
  destruct (searchOptimalCombination_cases params)
    as [[Hle _] | [(_ & He & ->) | (_ & Hne & ->)]]; [lra | |].
  - split; [reflexivity | congruence].
  - split; [congruence |]. intros _.
    rewrite rank_solutions. cbn [app map]. eauto.
Qed.

(** ** The order of the batteries *)

Definition descending (r1 r2 : Ratio) : Prop := value r2 <= value r1.

Lemma chosen_from_descending (from sel : list Ratio) :
  chosen_from from sel ->
  StronglySorted descending from -> StronglySorted descending sel.
Proof.
  induction 1 as [| r from sel H IH | r from sel H IH]; intro Hs.
  - constructor.
  - constructor; [now apply IH |].
    apply Forall_forall. intros x Hx.
    apply (chosen_from_In _ _ H) in Hx as [<- | Hx].
    + unfold descending. lra.
    + inversion Hs as [| ? ? _ Hall]; subst.
      rewrite Forall_forall in Hall. now apply Hall.
  - apply IH. now inversion Hs.
Qed.

Lemma filter_sorted {A : Type} (rel : A -> A -> Prop) (f : A -> bool)
  (l : list A) :
  StronglySorted rel l -> StronglySorted rel (filter f l).
Proof.
  induction 1 as [| x l Hs IH Hx]; simpl; [constructor |].
  destruct (f x); [| exact IH].
  constructor; [exact IH |].
  apply Forall_forall. intros y Hy. apply filter_In in Hy as [Hy _].
  rewrite Forall_forall in Hx. now apply Hx.
Qed.

Lemma sorted_nth {A : Type} (rel : A -> A -> Prop) (l : list A) (d : A) :
  StronglySorted rel l ->
  forall i j, (i < j < List.length l)%nat -> rel (nth i l d) (nth j l d).
Proof.
  induction 1 as [| x l Hs IH Hx]; intros i j Hij; simpl in Hij; [lia |].
  destruct j as [| j]; [lia |]. destruct i as [| i]; simpl.
  - rewrite Forall_forall in Hx. apply Hx, nth_In. lia.
  - apply IH. lia.
Qed.

Lemma catalog_descending (depth0 : nat) :
  StronglySorted descending (generateValidRatios depth0).
Proof.
  pose proof (catalog_strictly_descending depth0) as H.
  revert H. generalize (generateValidRatios depth0) as l.
  induction 1 as [| x l Hs IH Hx]; constructor; auto.
  eapply Forall_impl; [| exact Hx]. unfold descending. intros; lra.
Qed.

(** C9.  The catalog that [this.validRatios] holds is empty or was made by
    [generateValidRatios]; in every candidate that [searchForNBatteries]
    then produces, the ratios of [batteries] never increase along the
    sequence. *)
Theorem candidate_batteries_descending (validRatios : list Ratio) (n : Z)
  (params : Params) (c : Solution) (d : Assignment) :
  validRatios = [] \/
  (exists depth0, validRatios = generateValidRatios depth0) ->
  In c (searchForNBatteries validRatios n params) ->
  forall i j, (i < j < List.length (batteries c))%nat ->
              value (ratio (nth j (batteries c) d))
              <= value (ratio (nth i (batteries c) d)).
Proof.
  intros Hv Hc i j Hij.
  apply searchForNBatteries_candidate in Hc as (rs & Hrs & Hc).
  assert (Hs : StronglySorted descending (map ratio (batteries c))).
  { rewrite (cand_ratios _ _ _ _ Hc).
    apply (chosen_from_descending _ _ Hrs).
    apply filter_sorted.
    destruct Hv as [-> | [depth0 ->]];
      [constructor | apply catalog_descending]. }
  pose proof (sorted_nth _ _ (ratio d) Hs i j) as H.
  rewrite !map_nth, length_map in H. now apply H.
Qed.

(** ** The order of the sorted candidates *)

(** [i] comes before [j] when its excess is smaller, or the same and [i] was
    found first. *)
Definition before (h : Store) (i j : Ref) : Prop :=
  lt (excess (deref h i)) (excess (deref h j)) = true \/
  (same (excess (deref h i)) (excess (deref h j)) /\ (i < j)%nat).

Lemma before_trans (h : Store) (i j k : Ref) :
  before h i j -> before h j k -> before h i k.
Proof.
  unfold before, same.
  intros [H1 | [[H1 H1'] L1]] [H2 | [[H2 H2'] L2]].
  - left. eapply lt_trans; eauto.
  - left. eapply lt_le_trans; eauto.
  - left. eapply le_lt_trans; eauto.
  - right. repeat split; [eapply le_trans; eauto .. | lia].
Qed.

Lemma seq_sorted (s n : nat) : StronglySorted Nat.lt (seq s n).
Proof.
  revert s. induction n as [| n IH]; intro s; simpl; constructor; [apply IH |].
  apply Forall_forall. intros x Hx. apply in_seq in Hx. unfold Nat.lt. lia.
Qed.

Lemma sorted_weaken {A : Type} (rel rel' : A -> A -> Prop) (l : list A) :
  (forall x y, In x l -> In y l -> rel x y -> rel' x y) ->
  StronglySorted rel l -> StronglySorted rel' l.
Proof.
  intros H Hs. induction Hs as [| x l Hs IH Hx]; constructor.
  - apply IH. intros; apply H; simpl; auto.
  - rewrite Forall_forall in *. intros y Hy. apply H; simpl; auto.
Qed.

Definition numbered (h : Store) : Prop :=
  forall c, In c h -> is_number (excess c).

Lemma sortedRefs_sorted (h : Store) :
  numbered h -> StronglySorted (before h) (sortedRefs h).
Proof.
  intro Hn. unfold sortedRefs.
  apply sort_sorted
    with (earlier := fun i j => (i < j)%nat /\ (i < List.length h)%nat
                                /\ (j < List.length h)%nat).
  - apply before_trans.
  - intros i j (Hij & Hi & Hj) H. left.
    unfold after, by_excess in H. rewrite after_sub in H; [exact H | |];
      apply Hn, nth_In; assumption.
  - intros i j (Hij & Hi & Hj) H.
    unfold after, by_excess in H. rewrite after_sub in H;
      [| apply Hn, nth_In; assumption ..].
    apply lt_false_le in H; [| apply Hn, nth_In; assumption ..].
    destruct (lt (excess (deref h i)) (excess (deref h j))) eqn:E;
      [now left | right].
    split; [| exact Hij]. split; [exact H |].
    apply lt_false_le; [apply Hn, nth_In; assumption .. | exact E].
  - eapply sorted_weaken; [| apply seq_sorted].
    intros x y Hx Hy Hxy. apply in_seq in Hx. apply in_seq in Hy.
    unfold Nat.lt in Hxy. lia.
Qed.

Lemma find_first_sorted {A : Type} (rel : A -> A -> Prop) (f : A -> bool)
  (l : list A) (b : A) :
  StronglySorted rel l -> find f l = Some b ->
  forall c, In c l -> f c = true -> c = b \/ rel b c.
Proof.
  induction 1 as [| x l Hs IH Hx]; simpl; [discriminate |].
  destruct (f x) eqn:E.
  - intros [= <-] c [<- | Hc] _; [now left | right].
    rewrite Forall_forall in Hx. now apply Hx.
  - intros Hb c [<- | Hc] Hfc; [congruence | now apply IH].
Qed.

Lemma collectCandidates_numbered (params : Params) :
  numbered (collectCandidates params).
Proof.
  intros c Hc. apply collectCandidates_candidate in Hc as (n & rs & _ & Hc).
  apply (cand_number _ _ _ _ Hc).
Qed.

(** The head of the sorted array has the least excess. *)
Lemma precision_minimal (D0 : Q) (h : Store) (c : Solution) :
  numbered h -> In c h ->
  le (excess (deref h (bestPrecision (rank D0 h)))) (excess c) = true.
Proof.
  intros Hn Hc. rewrite rank_precision.
  apply In_nth with (d := no_solution) in Hc as (j & Hj & <-).
  fold (deref h j).
  pose proof (sortedRefs_sorted h Hn) as Hs.
  assert (Hin : In j (sortedRefs h)) by now apply sortedRefs_In.
  destruct (sortedRefs h) as [| x l] eqn:E; [destruct Hin |].
  assert (Hxv : (x < List.length h)%nat)
    by (apply sortedRefs_In; rewrite E; now left).
  simpl. inversion Hs as [| ? ? _ Hx]; subst.
  destruct Hin as [<- | Hin].
  - now apply le_refl, Hn, nth_In.
  - rewrite Forall_forall in Hx. destruct (Hx j Hin) as [H1 | [[H1 _] _]];
      [now apply lt_le | exact H1].
Qed.

(** ** The balanced pick *)

(** A candidate that may be the balanced pick: it is neither the precision
    nor the simple pick, and its excess differs from the precision pick's by
    more than 1 or its battery count differs. *)
Definition qualifies (h : Store) (bp bs c : Ref) : Prop :=
  (c < List.length h)%nat /\ c <> bp /\ c <> bs /\
  (gt (Math_abs (sub (excess (deref h c)) (excess (deref h bp)))) (Fin 1)
   = true \/
   batteryCount (deref h c) <> batteryCount (deref h bp)).

Lemma balanced_ok_qualifies (h : Store) (bp bs c : Ref) :
  (c < List.length h)%nat ->
  balanced_ok h bp bs c = true <-> qualifies h bp bs c.
Proof.
  intro Hc. unfold balanced_ok, qualifies.
  rewrite !andb_true_iff, orb_true_iff, !negb_true_iff.
  rewrite !Nat.eqb_neq, Z.eqb_neq. tauto.
Qed.

(** The first qualifying candidate in the order in which the candidates were
    collected, as the specification describes the balanced pick. *)
Definition first_in_merge_order (h : Store) (bp bs : Ref) : option Ref :=
  find (balanced_ok h bp bs) (seq 0 (List.length h)).

(** C7, as the code has it.  The balanced pick is the qualifying candidate
    that comes first in the array sorted by excess: it has the least excess
    among the qualifying candidates and, among those of that excess, it is
    the one collected first.  There is none exactly when no candidate
    qualifies. *)
Theorem balanced_is_first_by_excess (params : Params) :
  let h := collectCandidates params in
  let r := rank (D params) h in
  match bestBalanced r with
  | Some b =>
      qualifies h (bestPrecision r) (bestSimple r) b /\
      forall c, qualifies h (bestPrecision r) (bestSimple r) c ->
                c = b \/ before h b c
  | None =>
      forall c, ~ qualifies h (bestPrecision r) (bestSimple r) c
  end.
Proof.
  intros h r.
  pose proof (sortedRefs_sorted h (collectCandidates_numbered params)) as Hs.
  destruct (bestBalanced r) as [b |] eqn:E.
  - pose proof (rank_balanced_valid _ _ _ E) as Hb.
    pose proof (rank_balanced_ok _ _ _ E) as [_ Hok].
    split; [now apply balanced_ok_qualifies |].
    intros c Hc. unfold r in E. rewrite rank_balanced in E.
    apply (find_first_sorted _ _ _ _ Hs E).
    + apply sortedRefs_In. apply Hc.
    + apply balanced_ok_qualifies; [apply Hc | exact Hc].
  - intros c Hc. unfold r in E. rewrite rank_balanced in E.
    assert (Hin : In c (sortedRefs h)) by (apply sortedRefs_In; apply Hc).
    pose proof (find_none _ _ E c Hin) as Hf.
    apply balanced_ok_qualifies in Hc; [| apply Hc].
    unfold r in Hc. congruence.
Qed.

(** ** The labels *)

Definition is_balanced (r : Ranking) (i : Ref) : bool :=
  match bestBalanced r with
  | Some b => (i =? b)%nat
  | None => false
  end.

Lemma rank_type (D0 : Q) (h : Store) (i : Ref) :
  h <> [] ->
  type (deref (store (rank D0 h)) i)
  = if is_balanced (rank D0 h) i then Some "balanced"%string
    else if (i =? bestSimple (rank D0 h))%nat then Some "simple"%string
    else if (i =? bestPrecision (rank D0 h))%nat then Some "precision"%string
    else type (deref h i).
Proof.
  intro Hne.
  pose proof (rank_precision_valid D0 h Hne) as Hp.
  pose proof (rank_simple_valid D0 h Hne) as Hsi.
  pose proof (rank_balanced_valid D0 h) as Hb.
  apply Nat.ltb_lt in Hp, Hsi.
  unfold is_balanced. revert Hp Hsi Hb. unfold rank.
  cbn [store bestBalanced bestSimple bestPrecision].
  intros Hp Hsi Hb.
  match goal with |- context [find ?f ?l] => destruct (find f l) as [b |] end.
  - specialize (Hb b eq_refl). apply Nat.ltb_lt in Hb.
    rewrite !type_update, !update_length, Hp, Hsi, Hb, !andb_true_r.
    reflexivity.
  - rewrite !type_update, !update_length, Hp, Hsi, !andb_true_r.
    reflexivity.
Qed.

(** C10, as the code has it.  When the simple pick is the precision pick
    (the same object), the first returned solution is that candidate: it has
    the least excess of all candidates and its label is "simple"; it is
    followed by the balanced pick when there is one, and by nothing else; no
    returned solution has the label "precision". *)
Theorem precision_relabelled_simple (params : Params) :
  let h := collectCandidates params in
  let r := rank (D params) h in
  P_base params < D params -> h <> [] ->
  bestSimple r = bestPrecision r ->
  exists p rest,
    searchOptimalCombination params = Succeeded (p :: rest) /\
    data p = data (deref h (bestPrecision r)) /\
    (forall c, In c h -> le (excess p) (excess c) = true) /\
    type p = Some "simple"%string /\
    (rest = [] \/ exists b, rest = [b] /\ type b = Some "balanced"%string) /\
    (forall s, In s (p :: rest) -> type s <> Some "precision"%string).
Proof.
  intros h r Hlt Hne Heq.
  destruct (searchOptimalCombination_cases params)
    as [[Hle _] | [(_ & He & _) | (_ & _ & ->)]]; [lra | contradiction |].
  fold h. fold r.
  assert (Hsol : solutions r
                 = bestPrecision r :: match bestBalanced r with
                                      | Some b => [b]
                                      | None => []
                                      end).
  { unfold r. rewrite rank_solutions. fold r.
    rewrite Heq, Nat.eqb_refl. reflexivity. }
  assert (Hp : type (deref (store r) (bestPrecision r)) = Some "simple"%string).
  { unfold r. rewrite rank_type by exact Hne. fold r.
    unfold is_balanced.
    destruct (bestBalanced r) as [b |] eqn:E.
    - destruct (rank_balanced_ok _ _ _ E) as [_ Hok]. fold r in Hok.
      unfold balanced_ok in Hok. rewrite !andb_true_iff in Hok.
      destruct Hok as [[Hok _] _]. apply negb_true_iff in Hok.
      rewrite Nat.eqb_sym, Hok, Heq, Nat.eqb_refl. reflexivity.
    - now rewrite Heq, Nat.eqb_refl. }
  assert (Hb : forall b, bestBalanced r = Some b ->
                         type (deref (store r) b) = Some "balanced"%string).
  { intros b E. unfold r. rewrite rank_type by exact Hne. fold r.
    unfold is_balanced. now rewrite E, Nat.eqb_refl. }
  rewrite Hsol. cbn [map].
  eexists _, _. split; [reflexivity |].
  split; [apply rank_data |].
  split.
  { intros c Hc. unfold r. rewrite (data_excess _ _ (rank_data _ _ _)).
    apply precision_minimal; [apply collectCandidates_numbered | exact Hc]. }
  split; [exact Hp |].
  destruct (bestBalanced r) as [b |]; cbn [map].
  - split; [right; exists (deref (store r) b); split; auto |].
    intros s [<- | [<- | []]]; [rewrite Hp | rewrite (Hb b eq_refl)];
      discriminate.
  - split; [now left |].
    intros s [<- | []]. rewrite Hp. discriminate.
Qed.

(** ** NetworkSynthesizer *)

Lemma slices_concat {A : Type} (fuel g : nat) (l : list A) :
  (0 < g)%nat -> (List.length l <= fuel)%nat ->
  List.concat (slices fuel g l) = l.
Proof.
  intro Hg. revert l. induction fuel as [| fuel IH]; intros l Hl.
  - destruct l; [reflexivity | simpl in Hl; lia].
  - destruct l as [| x l]; [reflexivity |].
    cbn [slices List.concat]. rewrite IH; [apply firstn_skipn |].
    rewrite length_skipn. cbn [List.length] in *. lia.
Qed.

Lemma slices_groups {A : Type} (fuel g : nat) (l : list A) :
  (0 < g)%nat ->
  Forall (fun grp => grp <> [] /\ (List.length grp <= g)%nat)
         (slices fuel g l).
Proof.
  intro Hg. revert l. induction fuel as [| fuel IH]; intro l; [constructor |].
  destruct l as [| x l]; [constructor |].
  cbn [slices]. constructor; [| apply IH].
  split; [| apply firstn_le_length].
  destruct g; [lia | discriminate].
Qed.

Lemma slices_count {A : Type} (fuel g : nat) (l : list A) :
  (0 < g)%nat -> (List.length l <= fuel)%nat -> l <> [] ->
  ((List.length (slices fuel g l) - 1) * g < List.length l)%nat.
Proof.
  intro Hg. revert l. induction fuel as [| fuel IH]; intros l Hl Hne.
  - destruct l; [congruence | simpl in Hl; lia].
  - destruct l as [| x l]; [congruence |].
    cbn [slices List.length].
    destruct (skipn g (x :: l)) as [| y l'] eqn:E.
    + destruct fuel; cbn [slices List.length]; lia.
    + assert (Hlen : List.length (skipn g (x :: l))
                     = (List.length (x :: l) - g)%nat) by apply length_skipn.
      rewrite E in Hlen. cbn [List.length] in Hlen, Hl.
      assert (H : ((List.length (slices fuel g (y :: l')) - 1) * g
                   < List.length (y :: l'))%nat).
      { apply IH; [cbn [List.length]; lia | discriminate]. }
      cbn [List.length] in H.
      destruct (List.length (slices fuel g (y :: l'))) as [| c] eqn:Ec.
      * destruct fuel; [lia | discriminate].
      * replace (S (S c) - 1)%nat with (S c) by lia.
        replace (S c - 1)%nat with c in H by lia.
        cbn [Nat.mul]. lia.
Qed.

Lemma battery_texts_app (a b : list Line) :
  battery_texts (a ++ b) = battery_texts a ++ battery_texts b.
Proof. apply flat_map_app. Qed.

Lemma declared_outlets_app (a b : list Line) :
  declared_outlets (a ++ b) = (declared_outlets a + declared_outlets b)%nat.
Proof. unfold declared_outlets. now rewrite map_app, list_sum_app. Qed.

Lemma outlet_lines_app (a b : list Line) :
  outlet_lines (a ++ b) = (outlet_lines a + outlet_lines b)%nat.
Proof. unfold outlet_lines. now rewrite map_app, list_sum_app. Qed.

Lemma splitter_lines_app (a b : list Line) :
  splitter_lines_2_or_3 (a ++ b)
  = splitter_lines_2_or_3 a && splitter_lines_2_or_3 b.
Proof. apply forallb_app. Qed.

(** What a description says: the fractions of its battery lines, and that
    its splitter lines declare 2 or 3 outlets and as many outlets as there
    are outlet lines. *)
Definition describes (ls : list Line) (fractions : list string) : Prop :=
  battery_texts ls = fractions /\
  outlet_lines ls = declared_outlets ls /\
  splitter_lines_2_or_3 ls = true.

(** The lines written so far by a branch: no battery line yet. *)
Definition partial (ls : list Line) : Prop := describes ls [].

Lemma describes_app (a b : list Line) (fa fb : list string) :
  describes a fa -> describes b fb -> describes (a ++ b) (fa ++ fb).
Proof.
  intros (Ha1 & Ha2 & Ha3) (Hb1 & Hb2 & Hb3). repeat split.
  - now rewrite battery_texts_app, Ha1, Hb1.
  - rewrite outlet_lines_app, declared_outlets_app. lia.
  - now rewrite splitter_lines_app, Ha3, Hb3.
Qed.

Lemma outlet_loop (split : Split) (l : list nat) :
  forall (currentIndent : nat) (ls : list Line),
    let st :=
      fold_left
        (fun (st : nat * list Line) (i : nat) =>
           let (currentIndent, ls) := st in
           let pre := outlet_prefix i (splitOutlets split) in
           if (i =? targetOutlet split)%nat then
             (S currentIndent, ls ++ [OutletOnward currentIndent pre (i + 1)])
           else (currentIndent, ls ++ [OutletReturn currentIndent pre (i + 1)]))
        l (currentIndent, ls) in
    battery_texts (snd st) = battery_texts ls /\
    outlet_lines (snd st) = (outlet_lines ls + List.length l)%nat /\
    declared_outlets (snd st) = declared_outlets ls /\
    splitter_lines_2_or_3 (snd st) = splitter_lines_2_or_3 ls.
Proof.
  induction l as [| i l IH]; intros ci ls; cbn [fold_left].
  - cbn [snd List.length]. repeat split. lia.
  - destruct (i =? targetOutlet split)%nat; cbn zeta;
      match goal with
      | |- context [fold_left ?f l (?c, ?x)] =>
          destruct (IH c x) as (H1 & H2 & H3 & H4)
      end;
      cbn zeta in *; rewrite H1, H2, H3, H4;
      rewrite battery_texts_app, outlet_lines_app, declared_outlets_app,
        splitter_lines_app; cbn; rewrite ?app_nil_r, ?andb_true_r;
      repeat split; lia.
Qed.

Lemma branch_step_partial (f : string) (k : nat) (ci : nat) (ls : list Line) :
  k = 2%nat \/ k = 3%nat -> partial ls ->
  partial (snd (branch_step f (ci, ls) (mkSplit "splitter" k 0))).
Proof.
  intros Hk (H1 & H2 & H3). unfold branch_step.
  cbn [splitType splitOutlets targetOutlet String.eqb Ascii.eqb Bool.eqb].
  cbn match.
  match goal with
  | |- context [fold_left ?g (seq 0 k) (?c, ?x)] =>
      destruct (outlet_loop (mkSplit "splitter" k 0) (seq 0 k) c x)
        as (G1 & G2 & G3 & G4)
  end.
  cbn zeta in *. cbn [splitType splitOutlets targetOutlet] in *.
  repeat split.
  - rewrite G1, battery_texts_app, H1. reflexivity.
  - rewrite G2, G3, outlet_lines_app, declared_outlets_app, length_seq. cbn. lia.
  - rewrite G4, splitter_lines_app, H3. cbn.
    destruct Hk as [-> | ->]; reflexivity.
Qed.

Lemma branch_fold_partial (f : string) (sequence : list Split) :
  Forall (fun s => s = mkSplit "splitter" 2 0 \/ s = mkSplit "splitter" 3 0)
         sequence ->
  forall st, partial (snd st) ->
             partial (snd (fold_left (branch_step f) sequence st)).
Proof.
  induction 1 as [| s l Hs Hl IH]; intros [ci ls] Hp; [exact Hp |].
  cbn [fold_left]. apply IH.
  destruct Hs as [-> | ->]; apply branch_step_partial; auto.
Qed.

Lemma findSplitSequence_splitters (targetRatio inputFlow : Q) :
  Forall (fun s => s = mkSplit "splitter" 2 0 \/ s = mkSplit "splitter" 3 0)
         (findSplitSequence targetRatio inputFlow).
Proof.
  unfold findSplitSequence. destruct (splitExponents targetRatio) as [a b].
  apply Forall_app. split; apply Forall_forall; intros s Hs;
    apply repeat_spec in Hs; auto.
Qed.

Lemma constructBranch_describes (r : Ratio) (inputFlow : Q) (depth0 : nat) :
  describes (constructBranch r inputFlow depth0) [fraction r].
Proof.
  unfold constructBranch.
  pose proof (findSplitSequence_splitters (value r) inputFlow) as Hs.
  destruct (findSplitSequence (value r) inputFlow) as [| s l] eqn:E.
  - now repeat split.
  - pose proof (branch_fold_partial (fraction r) (s :: l) Hs
                  (depth0, @nil Line)) as Hp.
    destruct (fold_left (branch_step (fraction r)) (s :: l) (depth0, []))
      as [ci ls].
    apply (describes_app ls _ [] [fraction r]).
    + apply Hp. now repeat split.
    + now repeat split.
Qed.

(** The groups of [buildNetworkTree], each with its outlet line. *)
Definition group_lines (fuel : nat) (totalFlow : Q) (depth0 count : nat)
  (ig : nat * list Ratio) : list Line :=
  let pre := outlet_prefix (fst ig) count in
  match snd ig with
  | [] => [OutletReturn depth0 pre (fst ig + 1)]
  | group =>
      OutletShare depth0 pre (fst ig + 1) count
      :: buildNetworkTree_lines fuel group
           (totalFlow / inject_Z (Z.of_nat count)) (depth0 + 2)
  end.

Lemma buildNetworkTree_lines_many (fuel : nat) (ratios : list Ratio)
  (totalFlow : Q) (depth0 : nat) :
  (4 <= List.length ratios)%nat ->
  buildNetworkTree_lines (S fuel) ratios totalFlow depth0
  = [SplitterLine depth0 3]
    ++ flat_map
         (group_lines fuel totalFlow depth0
            (List.length (slices (List.length ratios)
                                 (ceil_third (List.length ratios)) ratios)))
         (combine
            (seq 0 (List.length (slices (List.length ratios)
                                        (ceil_third (List.length ratios))
                                        ratios)))
            (slices (List.length ratios) (ceil_third (List.length ratios))
                    ratios))
    ++ map (fun i => OutletReturn depth0 "└─" (i + 1))
           (seq (List.length (slices (List.length ratios)
                                     (ceil_third (List.length ratios)) ratios))
                (3 - List.length (slices (List.length ratios)
                                         (ceil_third (List.length ratios))
                                         ratios))).
Proof.
  destruct ratios as [| r0 [| r1 [| r2 [| r3 rest]]]];
    cbn [List.length]; intro H; try lia.
  reflexivity.
Qed.

Lemma battery_texts_share (d : nat) (pre : string) (k share : nat)
  (l : list Line) :
  battery_texts (OutletShare d pre k share :: l) = battery_texts l.
Proof. reflexivity. Qed.

Lemma outlet_lines_share (d : nat) (pre : string) (k share : nat)
  (l : list Line) :
  outlet_lines (OutletShare d pre k share :: l) = S (outlet_lines l).
Proof. reflexivity. Qed.

Lemma declared_outlets_share (d : nat) (pre : string) (k share : nat)
  (l : list Line) :
  declared_outlets (OutletShare d pre k share :: l) = declared_outlets l.
Proof. reflexivity. Qed.

Lemma splitter_lines_share (d : nat) (pre : string) (k share : nat)
  (l : list Line) :
  splitter_lines_2_or_3 (OutletShare d pre k share :: l)
  = splitter_lines_2_or_3 l.
Proof. reflexivity. Qed.

Lemma group_lines_tally (fuel : nat) (totalFlow : Q) (depth0 count i : nat)
  (group : list Ratio) :
  (forall flow d, describes (buildNetworkTree_lines fuel group flow d)
                            (map fraction group)) ->
  let ls := group_lines fuel totalFlow depth0 count (i, group) in
  battery_texts ls = map fraction group /\
  outlet_lines ls = (1 + declared_outlets ls)%nat /\
  splitter_lines_2_or_3 ls = true.
Proof.
  intro H. unfold group_lines. cbn [fst snd]. destruct group as [| r g'].
  - now repeat split.
  - destruct (H (totalFlow / inject_Z (Z.of_nat count)) (depth0 + 2)%nat)
      as (G1 & G2 & G3).
    cbn zeta.
    set (sub := buildNetworkTree_lines fuel (r :: g') _ _) in *.
    change (?x :: sub) with ([x] ++ sub).
    rewrite battery_texts_app, outlet_lines_app, declared_outlets_app,
      splitter_lines_app, G1, G2, G3.
    now repeat split.
Qed.

Lemma group_lines_describe (fuel : nat) (totalFlow : Q) (depth0 count : nat)
  (groups : list (list Ratio)) :
  (forall group flow d,
      In group groups ->
      describes (buildNetworkTree_lines fuel group flow d)
                (map fraction group)) ->
  forall start,
    let ls := flat_map (group_lines fuel totalFlow depth0 count)
                       (combine (seq start (List.length groups)) groups) in
    battery_texts ls = map fraction (List.concat groups) /\
    outlet_lines ls = (List.length groups + declared_outlets ls)%nat /\
    splitter_lines_2_or_3 ls = true.
Proof.
  induction groups as [| g gs IH]; intros Hg start; cbn zeta.
  - now repeat split.
  - cbn [List.length seq combine flat_map List.concat].
    destruct (IH (fun group flow d H => Hg group flow d (or_intror H))
                 (S start)) as (H1 & H2 & H3).
    destruct (group_lines_tally fuel totalFlow depth0 count start g
                (fun flow d => Hg g flow d (or_introl eq_refl)))
      as (G1 & G2 & G3).
    cbn zeta in *.
    rewrite battery_texts_app, outlet_lines_app, declared_outlets_app,
      splitter_lines_app, map_app, H1, H2, H3, G1, G2, G3.
    repeat split. lia.
Qed.

Lemma return_lines (depth0 start k : nat) :
  let ls := map (fun i => OutletReturn depth0 "└─" (i + 1)) (seq start k) in
  battery_texts ls = [] /\ outlet_lines ls = k /\ declared_outlets ls = 0%nat /\
  splitter_lines_2_or_3 ls = true.
Proof.
  revert start. induction k as [| k IH]; intro start; cbn zeta.
  - now repeat split.
  - destruct (IH (S start)) as (H1 & H2 & H3 & H4). cbn zeta in *.
    cbn [seq map].
    change (battery_texts (?x :: ?l)) with (battery_texts [x] ++ battery_texts l).
    change (outlet_lines (?x :: ?l)) with (outlet_lines [x] + outlet_lines l)%nat.
    change (declared_outlets (?x :: ?l))
      with (declared_outlets [x] + declared_outlets l)%nat.
    change (splitter_lines_2_or_3 (?x :: ?l))
      with (splitter_lines_2_or_3 [x] && splitter_lines_2_or_3 l).
    rewrite H1, H2, H3, H4. now repeat split.
Qed.

Lemma ceil_third_bounds (n : nat) :
  (4 <= n)%nat ->
  (0 < ceil_third n)%nat /\ (ceil_third n < n)%nat /\ (n <= 3 * ceil_third n)%nat.
Proof.
  intro H. unfold ceil_third.
  pose proof (Nat.div_mod_eq (n + 2) 3) as E.
  pose proof (Nat.mod_upper_bound (n + 2) 3 ltac:(lia)) as U.
  lia.
Qed.

(** With fuel beyond the number of ratios, the description has one battery
    line per ratio, in order, and its splitters are matched by outlets. *)
Lemma buildNetworkTree_lines_describes (fuel : nat) :
  forall (ratios : list Ratio) (totalFlow : Q) (depth0 : nat),
    (List.length ratios < fuel)%nat ->
    describes (buildNetworkTree_lines fuel ratios totalFlow depth0)
              (map fraction ratios).
Proof.
  induction fuel as [| fuel IH]; intros ratios flow d Hlen; [lia |].
  destruct (le_lt_dec 4 (List.length ratios)) as [Hmany | Hfew].
  - rewrite buildNetworkTree_lines_many by exact Hmany.
    destruct (ceil_third_bounds _ Hmany) as (Hpos & Hlt & Hle).
    set (n := List.length ratios) in *.
    set (groups := slices n (ceil_third n) ratios).
    pose proof (slices_concat n (ceil_third n) ratios Hpos (Nat.le_refl _))
      as Hcat.
    pose proof (slices_groups n (ceil_third n) ratios Hpos) as Hgr.
    assert (Hcount : (List.length groups <= 3)%nat).
    { assert (Hne : ratios <> []) by (destruct ratios; [simpl in *; lia | discriminate]).
      pose proof (slices_count n (ceil_third n) ratios Hpos (Nat.le_refl _) Hne)
        as Hc.
      fold groups in Hc. fold n in Hc. nia. }
    fold groups in Hcat, Hgr.
    destruct (group_lines_describe fuel flow d (List.length groups) groups)
      with (start := 0%nat) as (H1 & H2 & H3).
    { intros group flow' d' Hin. apply IH.
      rewrite Forall_forall in Hgr. destruct (Hgr group Hin) as [_ Hg].
      clearbody n. clear - Hg Hlt Hlen. lia. }
    destruct (return_lines d (List.length groups) (3 - List.length groups))
      as (R1 & R2 & R3 & R4).
    cbn zeta in *.
    repeat split.
    + rewrite !battery_texts_app, H1, R1, Hcat. cbn. now rewrite app_nil_r.
    + rewrite !outlet_lines_app, !declared_outlets_app, H2, R2, R3.
      change (outlet_lines [SplitterLine d 3]) with 0%nat.
      change (declared_outlets [SplitterLine d 3]) with 3%nat.
      clear - Hcount. lia.
    + rewrite !splitter_lines_app, H3, R4. reflexivity.
  - destruct ratios as [| r0 [| r1 [| r2 [| r3 rest]]]];
      cbn [List.length] in Hfew; try lia.
    + now repeat split.
    + apply constructBranch_describes.
    + cbn [buildNetworkTree_lines].
      destruct (constructBranch_describes r0 (flow / 3) (d + 2))
        as (A1 & A2 & A3).
      destruct (constructBranch_describes r1 (flow / 3) (d + 2))
        as (B1 & B2 & B3).
      repeat split.
      * rewrite !battery_texts_app, A1, B1. reflexivity.
      * rewrite !outlet_lines_app, !declared_outlets_app, A2, B2.
        change (outlet_lines [SplitterLine d 3; OutletShare d "├─" 1 3])
          with 1%nat.
        change (declared_outlets [SplitterLine d 3; OutletShare d "├─" 1 3])
          with 3%nat.
        change (outlet_lines [OutletShare d "├─" 2 3]) with 1%nat.
        change (declared_outlets [OutletShare d "├─" 2 3]) with 0%nat.
        change (outlet_lines [OutletReturn d "└─" 3]) with 1%nat.
        change (declared_outlets [OutletReturn d "└─" 3]) with 0%nat. lia.
      * rewrite !splitter_lines_app, A3, B3. reflexivity.
    + cbn [buildNetworkTree_lines seq combine flat_map fst snd].
      destruct (constructBranch_describes r0 (flow / 3) (d + 2))
        as (A1 & A2 & A3).
      destruct (constructBranch_describes r1 (flow / 3) (d + 2))
        as (B1 & B2 & B3).
      destruct (constructBranch_describes r2 (flow / 3) (d + 2))
        as (C1 & C2 & C3).
      rewrite app_nil_r.
      repeat split.
      * rewrite !battery_texts_app, !battery_texts_share, A1, B1, C1.
        reflexivity.
      * rewrite !outlet_lines_app, !declared_outlets_app,
          !outlet_lines_share, !declared_outlets_share, A2, B2, C2.
        change (outlet_lines [SplitterLine d 3]) with 0%nat.
        change (declared_outlets [SplitterLine d 3]) with 3%nat. lia.
      * rewrite !splitter_lines_app, !splitter_lines_share, A3, B3, C3.
        reflexivity.
Qed.

Lemma flat_map_ext_in {A B : Type} (f g : A -> list B) (l : list A) :
  (forall a, In a l -> f a = g a) -> flat_map f l = flat_map g l.
Proof.
  induction l as [| a l IH]; simpl; intro H; [reflexivity |].
  rewrite (H a (or_introl eq_refl)), IH; auto.
Qed.

(** Fuel beyond the number of ratios changes nothing. *)
Lemma buildNetworkTree_lines_fuel (fuel : nat) :
  forall (fuel' : nat) (ratios : list Ratio) (totalFlow : Q) (depth0 : nat),
    (List.length ratios < fuel)%nat -> (List.length ratios < fuel')%nat ->
    buildNetworkTree_lines fuel ratios totalFlow depth0
    = buildNetworkTree_lines fuel' ratios totalFlow depth0.
Proof.
  induction fuel as [| fuel IH]; intros fuel' ratios flow d Hf Hf'; [lia |].
  destruct fuel' as [| fuel']; [lia |].
  destruct (le_lt_dec 4 (List.length ratios)) as [Hmany | Hfew].
  - rewrite !buildNetworkTree_lines_many by exact Hmany.
    destruct (ceil_third_bounds _ Hmany) as (Hpos & Hlt & _).
    pose proof (slices_groups (List.length ratios)
                  (ceil_third (List.length ratios)) ratios Hpos) as Hgr.
    f_equal. f_equal. apply flat_map_ext_in. intros [i g] Hin.
    apply in_combine_r in Hin. rewrite Forall_forall in Hgr.
    destruct (Hgr g Hin) as [_ Hg].
    unfold group_lines. cbn [fst snd]. destruct g as [| r g']; [reflexivity |].
    f_equal. apply IH; lia.
  - destruct ratios as [| r0 [| r1 [| r2 [| r3 rest]]]];
      cbn [List.length] in Hfew; try lia; reflexivity.
Qed.

(** ** The tree of the visualizer *)

Lemma buildBatteryBranch_tree (battery : Assignment) (index : nat) :
  battery_ratios (buildBatteryBranch battery index)
  = [fraction (ratio battery)] /\
  splitters_exact (buildBatteryBranch battery index) = true.
Proof.
  unfold buildBatteryBranch.
  destruct (le _ _); [now split |].
  apply fold_left_invariant with
    (I := fun t => battery_ratios t = [fraction (ratio battery)] /\
                   splitters_exact t = true).
  - now split.
  - intros t _ _ [H1 H2]. cbn. rewrite H1, H2. now split.
Qed.

Lemma battery_nodes_tree (l : list Assignment) (start : nat) :
  let ns := map (fun ib : nat * Assignment =>
                   buildBatteryBranch (snd ib) (fst ib))
                (combine (seq start (List.length l)) l) in
  flat_map battery_ratios ns = map (fun a => fraction (ratio a)) l /\
  forallb splitters_exact ns = true /\
  List.length ns = List.length l.
Proof.
  revert start. induction l as [| a l IH]; intro start; cbn zeta.
  - now repeat split.
  - cbn [List.length seq combine map flat_map forallb fst snd].
    destruct (IH (S start)) as (H1 & H2 & H3). cbn zeta in *.
    destruct (buildBatteryBranch_tree a start) as [B1 B2].
    rewrite H1, H2, H3, B1, B2. now repeat split.
Qed.

Lemma flat_map_concat {A B : Type} (f : A -> list B) (ls : list (list A)) :
  flat_map f (List.concat ls) = flat_map (flat_map f) ls.
Proof.
  induction ls as [| l ls IH]; simpl; [reflexivity |].
  now rewrite flat_map_app, IH.
Qed.

Lemma concat_length_bound {A : Type} (g : nat) (ls : list (list A)) :
  Forall (fun grp => grp <> [] /\ (List.length grp <= g)%nat) ls ->
  (List.length (List.concat ls) <= g * List.length ls)%nat.
Proof.
  induction 1 as [| l ls [_ Hl] Hls IH]; simpl; [lia |].
  rewrite length_app. lia.
Qed.

Lemma groupNode_tree (group : list NetworkNode) :
  group <> [] -> (List.length group <= 3)%nat ->
  forallb splitters_exact group = true ->
  battery_ratios (groupNode group) = flat_map battery_ratios group /\
  splitters_exact (groupNode group) = true.
Proof.
  intros Hne Hlen Hex.
  destruct group as [| a [| b [| c [| e rest]]]]; cbn [List.length] in Hlen;
    try congruence; try lia.
  - cbn in *. rewrite app_nil_r. now rewrite andb_true_r in Hex.
  - split; [reflexivity |]. cbn [groupNode splitters_exact List.length].
    now rewrite Hex.
  - split; [reflexivity |]. cbn [groupNode splitters_exact List.length].
    now rewrite Hex.
Qed.

Lemma groups_tree (groups : list (list NetworkNode)) :
  Forall (fun grp => grp <> [] /\ (List.length grp <= 3)%nat) groups ->
  forallb splitters_exact (List.concat groups) = true ->
  flat_map battery_ratios (map groupNode groups)
  = flat_map battery_ratios (List.concat groups) /\
  forallb splitters_exact (map groupNode groups) = true.
Proof.
  induction 1 as [| g gs [Hne Hlen] Hgs IH]; cbn [List.concat map flat_map forallb];
    intro Hex; [now split |].
  rewrite forallb_app in Hex. apply andb_true_iff in Hex as [Hg Hrest].
  destruct (IH Hrest) as [H1 H2].
  destruct (groupNode_tree g Hne Hlen Hg) as [G1 G2].
  rewrite flat_map_app, H1, H2, G1, G2. now split.
Qed.

(** With fuel up to the number of nodes, [buildSplitterTree] keeps the
    battery leaves in order and makes splitters of 2 or 3 children only. *)
Lemma buildSplitterTree_tree (fuel : nat) :
  forall nodes0 : list NetworkNode,
    (2 <= List.length nodes0 <= fuel)%nat ->
    forallb splitters_exact nodes0 = true ->
    battery_ratios (buildSplitterTree fuel nodes0)
    = flat_map battery_ratios nodes0 /\
    splitters_exact (buildSplitterTree fuel nodes0) = true.
Proof.
  induction fuel as [| fuel IH]; intros nodes0 Hlen Hex; [lia |].
  cbn [buildSplitterTree].
  destruct (List.length nodes0 <=? 3)%nat eqn:E3.
  - apply Nat.leb_le in E3. split; [reflexivity |].
    cbn [splitters_exact]. rewrite Nat.eqb_refl, Hex, andb_true_r. cbn [andb].
    destruct (List.length nodes0) as [| [| [| [| k]]]]; try lia; reflexivity.
  - apply Nat.leb_gt in E3.
    set (groups := slices (List.length nodes0) 3 nodes0).
    pose proof (slices_concat (List.length nodes0) 3 nodes0
                  ltac:(lia) (Nat.le_refl _)) as Hcat.
    pose proof (slices_groups (List.length nodes0) 3 nodes0 ltac:(lia)) as Hgr.
    assert (Hne : nodes0 <> [])
      by (destruct nodes0; [simpl in *; lia | discriminate]).
    pose proof (slices_count (List.length nodes0) 3 nodes0
                  ltac:(lia) (Nat.le_refl _) Hne) as Hcount.
    pose proof (concat_length_bound 3 _ Hgr) as Hbound.
    fold groups in Hcat, Hgr, Hcount, Hbound. rewrite Hcat in Hbound.
    destruct (groups_tree groups Hgr) as [G1 G2]; [now rewrite Hcat |].
    rewrite Hcat in G1. rewrite length_map.
    destruct (List.length groups <=? 3)%nat eqn:Eg.
    + apply Nat.leb_le in Eg. split; [exact G1 |].
      cbn [splitters_exact]. rewrite length_map, Nat.eqb_refl, G2, andb_true_r.
      cbn [andb].
      destruct (List.length groups) as [| [| [| [| k]]]]; try lia; reflexivity.
    + apply Nat.leb_gt in Eg.
      destruct (IH (map groupNode groups)) as [H1 H2].
      * rewrite length_map. lia.
      * exact G2.
      * rewrite H1, H2. now split.
Qed.

(** Fuel beyond the number of nodes changes nothing. *)
Lemma buildSplitterTree_fuel (fuel : nat) :
  forall (fuel' : nat) (nodes0 : list NetworkNode),
    (List.length nodes0 <= fuel)%nat -> (List.length nodes0 <= fuel')%nat ->
    (1 <= List.length nodes0)%nat ->
    buildSplitterTree fuel nodes0 = buildSplitterTree fuel' nodes0.
Proof.
  induction fuel as [| fuel IH]; intros fuel' nodes0 Hf Hf' Hne; [lia |].
  destruct fuel' as [| fuel']; [lia |].
  cbn [buildSplitterTree].
  destruct (List.length nodes0 <=? 3)%nat eqn:E3; [reflexivity |].
  apply Nat.leb_gt in E3.
  destruct (_ <=? 3)%nat eqn:Eg; [reflexivity |].
  apply Nat.leb_gt in Eg. rewrite length_map in Eg.
  assert (Hnn : nodes0 <> [])
    by (destruct nodes0; [simpl in *; lia | discriminate]).
  pose proof (slices_count (List.length nodes0) 3 nodes0
                ltac:(lia) (Nat.le_refl _) Hnn) as Hcount.
  apply IH; rewrite length_map; lia.
Qed.

Lemma buildVisualizationTree_tree (s : Solution) :
  battery_ratios (buildVisualizationTree s)
  = map (fun a => fraction (ratio a)) (batteries s) /\
  splitters_exact (buildVisualizationTree s) = true.
Proof.
  unfold buildVisualizationTree.
  destruct (batteries s) as [| a l] eqn:E; [now split |].
  assert (Hlen : (1 <= List.length (batteries s))%nat)
    by (rewrite E; simpl; lia).
  rewrite <- E. clear E.
  destruct (battery_nodes_tree (batteries s) 0) as (H1 & H2 & H3).
  cbn zeta in H1, H2, H3.
  set (ns := map _ (combine _ (batteries s))) in *.
  destruct (buildSplitterTree_tree (List.length (ns ++ [ReturnNode]))
                                   (ns ++ [ReturnNode])) as [T1 T2].
  - rewrite length_app, H3. cbn [List.length]. lia.
  - now rewrite forallb_app, H2.
  - cbn [battery_ratios splitters_exact flat_map forallb].
    rewrite T1, T2, flat_map_app, H1. cbn. now rewrite !app_nil_r.
Qed.

(** C3, as the code has it.  For a solution with [k >= 1] batteries,
    [constructSplitterNetwork] returns no tree: [nodes] is empty or absent,
    and the network is in the description.  The description has exactly [k]
    battery lines, which carry the fraction strings of the solution's
    assignments in order; every splitter line in it declares 2 or 3 outlets,
    and it has as many outlet lines as its splitter lines declare.  The tree
    of nodes is the one that [buildVisualizationTree] makes of the same
    solution: it has exactly those [k] battery leaves, and each of its
    splitters has as many children as its [outlets], 2 or 3. *)
Theorem network_is_described (s : Solution) :
  success s = Some true ->
  batteryCount s <> 0%Z ->
  batteryCount s = Z.of_nat (List.length (batteries s)) ->
  (nodes (constructSplitterNetwork s) = None \/
   nodes (constructSplitterNetwork s) = Some []) /\
  returned_battery_ratios (constructSplitterNetwork s) = [] /\
  description (constructSplitterNetwork s) = text (network_lines s) /\
  battery_texts (network_lines s)
  = map (fun a => fraction (ratio a)) (batteries s) /\
  Z.of_nat (List.length (battery_texts (network_lines s))) = batteryCount s /\
  splitter_lines_2_or_3 (network_lines s) = true /\
  outlet_lines (network_lines s) = declared_outlets (network_lines s) /\
  battery_ratios (buildVisualizationTree s)
  = map (fun a => fraction (ratio a)) (batteries s) /\
  splitters_exact (buildVisualizationTree s) = true.
Proof.
  intros Hs Hk Hlen.
  assert (Hno : no_network s = false).
  { unfold no_network. rewrite Hs. apply Z.eqb_neq in Hk. now rewrite Hk. }
  destruct (buildNetworkTree_lines_describes
              (S (List.length (map ratio (batteries s))))
              (map ratio (batteries s))
              (flow_of s (map ratio (batteries s))) 0 ltac:(lia))
    as (H1 & H2 & H3).
  fold (network_lines s) in H1, H2, H3. rewrite map_map in H1.
  destruct (buildVisualizationTree_tree s) as [T1 T2].
  unfold constructSplitterNetwork. rewrite Hno.
  split; [| repeat split; auto].
  - unfold buildNetworkTree.
    destruct (map ratio (batteries s)) as [| r [| r' l]]; auto.
  - unfold buildNetworkTree.
    destruct (map ratio (batteries s)) as [| r [| r' l]]; reflexivity.
  - unfold buildNetworkTree, network_lines.
    destruct (map ratio (batteries s)) as [| r [| r' l]]; reflexivity.
  - now rewrite H1, length_map.
Qed.

(* ================================================================== *)
(** * Scenarios                                                        *)
(* ================================================================== *)

Definition solutions_of (r : SearchResult) : list Solution :=
  match r with
  | BaseSolution sols => sols
  | Failed _ sols => sols
  | Succeeded sols => sols
  end.

Definition reduced (x : num) : num :=
  match x with
  | Fin q => Fin (Qred q)
  | _ => x
  end.

(** The label of a solution, its battery count, the fractions of its
    ratios and its excess. *)
Definition summary (s : Solution) : option string * Z * list string * num :=
  (type s, batteryCount s, map (fun a => fraction (ratio a)) (batteries s),
   reduced (excess s)).

(** The default battery of the application. *)
Definition standardBattery : BatteryType :=
  mkBatteryType "标准电池组" 1100 0.025.

(** [D = 1100, P_base = 0, R = 1, maxDepth = 5] with the default battery. *)
Definition scenario_full_load : Params :=
  mkParams 1100 0 [standardBattery] 1 5.

(** [D = 100, P_base = 200]: the base covers the demand. *)
Definition scenario_covered : Params :=
  mkParams 100 200 [standardBattery] 1 5.

(** [maxDepth = 0]: the catalog holds the ratio 1 only, which is above the
    full-load threshold of the default battery. *)
Definition scenario_no_ratio : Params :=
  mkParams 1100 0 [standardBattery] 1 0.

(** A battery that consumes twice the supply, [D = 450], [maxDepth = 1]:
    the catalog is 1, 1/2, 1/3 and the search, for one and two batteries,
    collects the candidates (1), (1/2), (1/2, 1/2), (1/2, 1/3) and
    (1/3, 1/3), of excess 550, 50, 550, 383.33 and 216.67. *)
Definition scenario_small : Params :=
  mkParams 450 0 [mkBatteryType "大型电池组" 2000 2] 1 1.

Lemma scenario_small_candidates :
  map summary (collectCandidates scenario_small)
  = [(None, 1%Z, ["1"%string], Fin 550);
     (None, 1%Z, ["1/2"%string], Fin 50);
     (None, 2%Z, ["1/2"%string; "1/2"%string], Fin 550);
     (None, 2%Z, ["1/2"%string; "1/3"%string], Fin (1150 # 3));
     (None, 2%Z, ["1/3"%string; "1/3"%string], Fin (650 # 3))].
Proof. vm_compute. reflexivity. Qed.

Lemma scenario_small_picks :
  let r := rank (D scenario_small) (collectCandidates scenario_small) in
  sortedCandidates r = [1; 4; 3; 0; 2]%nat /\
  bestPrecision r = 1%nat /\ bestSimple r = 1%nat /\
  bestBalanced r = Some 4%nat.
Proof. vm_compute. repeat split. Qed.

(** The first solution returned in the small scenario: one battery on the
    ratio 1/2. *)
Definition half_solution : Solution :=
  nth 0 (solutions_of (searchOptimalCombination scenario_small)) no_solution.

Lemma scenario_full_load_result :
  map summary (solutions_of (searchOptimalCombination scenario_full_load))
  = [(Some "precision"%string, 3%Z,
      ["1/81"%string; "1/108"%string; "1/243"%string], Fin (7700 # 243));
     (Some "simple"%string, 2%Z,
      ["1/72"%string; "1/81"%string], Fin (4400 # 81));
     (Some "balanced"%string, 4%Z,
      ["1/108"%string; "1/162"%string; "1/162"%string; "1/243"%string],
      Fin (7700 # 243))].
Proof. vm_compute. reflexivity. Qed.

(** ** C1 *)

Definition sample_ratios : list Ratio :=
  [mkRatio 0.5 "1/2" (Fin 1); mkRatio (1 / 3) "1/3" (Fin 1)].

Definition sample_types : list BatteryType :=
  [mkBatteryType "a" 100 1; mkBatteryType "b" 300 1].

(** Two ratios, two battery types, a target of 120 at supply rate 1: the
    four combinations deliver 83.3, 150, 183.3 and 250, and the one of 150
    is returned. *)
Lemma findBestVariableAssignment_optimal_witness :
  Forall (fun b => ~ consume b == 0) sample_types /\
  List.length (combinations 1 sample_types sample_ratios)
  = (List.length sample_types ^ List.length sample_ratios)%nat /\
  (forall l, In l (combinations 1 sample_types sample_ratios)
             <-> is_combination sample_types 1 sample_ratios l) /\
  match findBestVariableAssignment sample_ratios sample_types 120 1 with
  | Some best =>
      is_combination sample_types 1 sample_ratios (br_batteries best) /\
      totalGenerated best = total_power (br_batteries best) /\
      feasible 120 (br_batteries best) = true /\
      forall l, is_combination sample_types 1 sample_ratios l ->
                feasible 120 l = true ->
                le (excess_of 120 (br_batteries best)) (excess_of 120 l) = true
  | None =>
      forall l, is_combination sample_types 1 sample_ratios l ->
                feasible 120 l = false
  end.
Proof.
  assert (H : Forall (fun b => ~ consume b == 0) sample_types).
  { repeat constructor; intro E; discriminate E. }
  split; [exact H |].
  exact (findBestVariableAssignment_optimal sample_ratios sample_types 120 1 H).
Defined.

(** ** C3 *)

(** C3 as stated fails: for the one-battery solution of the small scenario,
    what [constructSplitterNetwork] returns has no [nodes] at all, hence no
    battery leaf, while [batteryCount] is 1. *)
Lemma network_has_no_battery_leaf :
  success half_solution = Some true /\
  batteryCount half_solution = 1%Z /\
  map (fun a => fraction (ratio a)) (batteries half_solution)
  = ["1/2"%string] /\
  nodes (constructSplitterNetwork half_solution) = None /\
  List.length (returned_battery_ratios (constructSplitterNetwork half_solution))
  = 0%nat.
Proof. vm_compute. repeat split. Qed.

Lemma network_is_described_witness :
  success half_solution = Some true /\
  batteryCount half_solution <> 0%Z /\
  batteryCount half_solution
  = Z.of_nat (List.length (batteries half_solution)) /\
  (nodes (constructSplitterNetwork half_solution) = None \/
   nodes (constructSplitterNetwork half_solution) = Some []) /\
  returned_battery_ratios (constructSplitterNetwork half_solution) = [] /\
  description (constructSplitterNetwork half_solution)
  = text (network_lines half_solution) /\
  battery_texts (network_lines half_solution)
  = map (fun a => fraction (ratio a)) (batteries half_solution) /\
  Z.of_nat (List.length (battery_texts (network_lines half_solution)))
  = batteryCount half_solution /\
  splitter_lines_2_or_3 (network_lines half_solution) = true /\
  outlet_lines (network_lines half_solution)
  = declared_outlets (network_lines half_solution) /\
  battery_ratios (buildVisualizationTree half_solution)
  = map (fun a => fraction (ratio a)) (batteries half_solution) /\
  splitters_exact (buildVisualizationTree half_solution) = true.
Proof.
  assert (H1 : success half_solution = Some true) by (vm_compute; reflexivity).
  assert (H2 : batteryCount half_solution <> 0%Z)
    by (vm_compute; discriminate).
  assert (H3 : batteryCount half_solution
               = Z.of_nat (List.length (batteries half_solution)))
    by (vm_compute; reflexivity).
  split; [exact H1 |]. split; [exact H2 |]. split; [exact H3 |].
  exact (network_is_described half_solution H1 H2 H3).
Defined.

(** ** C4 *)

Lemma scenario_full_load_succeeds :
  exists sols,
    searchOptimalCombination scenario_full_load = Succeeded sols.
Proof.
  pose proof scenario_full_load_result as H.
  destruct (searchOptimalCombination_cases scenario_full_load)
    as [[Hle _] | [(_ & _ & E) | (_ & _ & E)]].
  - exfalso. revert Hle. cbn [D P_base scenario_full_load]. intro Hle.
    apply Qle_bool_iff in Hle. discriminate Hle.
  - rewrite E in H. discriminate H.
  - eauto.
Qed.

(** C4 as stated fails: for [D = 1100, P_base = 0, R = 1, maxDepth = 5] and
    the battery of power 1100 and consumption 0.025, no returned solution
    has one battery. *)
Lemma full_load_has_no_single_battery :
  ~ exists s,
      In s (solutions_of (searchOptimalCombination scenario_full_load)) /\
      batteryCount s = 1%Z.
Proof.
  intros (s & Hin & Hk).
  apply (in_map summary) in Hin. rewrite scenario_full_load_result in Hin.
  unfold summary in Hin. rewrite Hk in Hin.
  destruct Hin as [H | [H | [H | []]]]; discriminate H.
Qed.

(** C4, as the code has it.  For that input the ratio 1 is above the
    full-load threshold [consume / R + 0.0001 = 0.0251] and is not usable;
    no single battery on a usable ratio meets the target; and the search
    succeeds with three solutions: three batteries on 1/81, 1/108 and 1/243
    (excess 7700/243, about 31.69) as the precision pick, two batteries on
    1/72 and 1/81 (excess 4400/81) as the simple pick, and four batteries as
    the balanced pick. *)
Theorem full_load_scenario :
  existsb (fun r => Qeq_bool (value r) 1)
          (usableRatios (generateValidRatios 5) scenario_full_load) = false /\
  searchForNBatteries (generateValidRatios 5) 1 scenario_full_load = [] /\
  exists p s b,
    searchOptimalCombination scenario_full_load = Succeeded [p; s; b] /\
    summary p = (Some "precision"%string, 3%Z,
                 ["1/81"%string; "1/108"%string; "1/243"%string],
                 Fin (7700 # 243)) /\
    summary s = (Some "simple"%string, 2%Z,
                 ["1/72"%string; "1/81"%string], Fin (4400 # 81)) /\
    summary b = (Some "balanced"%string, 4%Z,
                 ["1/108"%string; "1/162"%string; "1/162"%string;
                  "1/243"%string],
                 Fin (7700 # 243)).
Proof.
  split; [vm_compute; reflexivity |].
  split; [vm_compute; reflexivity |].
  destruct scenario_full_load_succeeds as [sols E].
  pose proof scenario_full_load_result as H. rewrite E in H.
  cbn [solutions_of] in H.
  destruct sols as [| p [| s [| b [| x sols]]]]; try discriminate H.
  exists p, s, b. split; [exact E |].
  cbn [map] in H. unfold summary in *. repeat split; congruence.
Qed.

(** ** C6 *)

Lemma base_solution_when_covered_witness :
  D scenario_covered <= P_base scenario_covered /\
  (exists s,
      searchOptimalCombination scenario_covered = BaseSolution [s] /\
      type s = Some "base"%string /\
      batteryCount s = 0%Z /\ batteries s = [] /\
      totalPower s = Fin (P_base scenario_covered) /\
      excess s = Fin (P_base scenario_covered - D scenario_covered) /\
      complexity s = Fin 0) /\
  (forall bs R0 depth0,
      searchOptimalCombination
        (mkParams (D scenario_covered) (P_base scenario_covered) bs R0 depth0)
      = searchOptimalCombination scenario_covered).
Proof.
  assert (H : D scenario_covered <= P_base scenario_covered)
    by (apply Qle_bool_iff; reflexivity).
  split; [exact H |].
  exact (base_solution_when_covered scenario_covered H).
Defined.

(** ** C7 *)

(** C7 as stated fails: in the small scenario the precision and simple
    picks are candidate 1, of excess 50; candidate 0, the first collected, of
    excess 550, is the first qualifying candidate in the order of collection,
    but the balanced pick is candidate 4, of excess 216.67. *)
Lemma balanced_is_not_first_in_merge_order :
  bestBalanced (rank (D scenario_small) (collectCandidates scenario_small))
  = Some 4%nat /\
  first_in_merge_order
    (collectCandidates scenario_small)
    (bestPrecision (rank (D scenario_small) (collectCandidates scenario_small)))
    (bestSimple (rank (D scenario_small) (collectCandidates scenario_small)))
  = Some 0%nat.
Proof. vm_compute. split; reflexivity. Qed.

(** ** C8 *)

Lemma failure_is_a_value_witness :
  P_base scenario_no_ratio < D scenario_no_ratio /\
  (collectCandidates scenario_no_ratio = [] ->
   searchOptimalCombination scenario_no_ratio
   = Failed "无法找到满足需求的方案" []) /\
  (collectCandidates scenario_no_ratio <> [] ->
   exists s sols,
     searchOptimalCombination scenario_no_ratio = Succeeded (s :: sols)).
Proof.
  assert (H : P_base scenario_no_ratio < D scenario_no_ratio)
    by (apply Qlt_bool_iff; reflexivity).
  split; [exact H |].
  exact (failure_is_a_value scenario_no_ratio H).
Defined.

(** The premise of the failure holds there: nothing is collected. *)
Lemma scenario_no_ratio_fails :
  collectCandidates scenario_no_ratio = [] /\
  searchOptimalCombination scenario_no_ratio
  = Failed "无法找到满足需求的方案" [].
Proof. vm_compute. split; reflexivity. Qed.

(** ** C9 *)

(** The candidate (1/2, 1/3) of the small scenario. *)
Definition half_third_candidate : Solution :=
  nth 1 (searchForNBatteries (generateValidRatios 1) 2 scenario_small)
      no_solution.

Definition no_assignment : Assignment :=
  mkAssignment "" (mkRatio 0 "" (Fin 0)) (Fin 0) (Fin 0)
               (mkBatteryType "" 0 0).

Lemma candidate_batteries_descending_witness :
  (generateValidRatios 1 = [] \/
   exists depth0, generateValidRatios 1 = generateValidRatios depth0) /\
  In half_third_candidate
     (searchForNBatteries (generateValidRatios 1) 2 scenario_small) /\
  forall i j,
    (i < j < List.length (batteries half_third_candidate))%nat ->
    value (ratio (nth j (batteries half_third_candidate) no_assignment))
    <= value (ratio (nth i (batteries half_third_candidate) no_assignment)).
Proof.
  assert (H1 : generateValidRatios 1 = [] \/
               exists depth0, generateValidRatios 1 = generateValidRatios depth0)
    by (right; now exists 1%nat).
  assert (H2 : In half_third_candidate
                  (searchForNBatteries (generateValidRatios 1) 2
                                       scenario_small))
    by (vm_compute; right; left; reflexivity).
  split; [exact H1 |]. split; [exact H2 |].
  exact (candidate_batteries_descending
           (generateValidRatios 1) 2 scenario_small half_third_candidate
           no_assignment H1 H2).
Defined.

(** ** C10 *)

(** C10 as stated fails: in the small scenario the simple pick is the
    precision pick, and the returned list has two solutions, the relabelled
    candidate and the balanced pick. *)
Lemma relabelled_list_has_two_solutions :
  bestSimple (rank (D scenario_small) (collectCandidates scenario_small))
  = bestPrecision (rank (D scenario_small) (collectCandidates scenario_small))
  /\
  map summary (solutions_of (searchOptimalCombination scenario_small))
  = [(Some "simple"%string, 1%Z, ["1/2"%string], Fin 50);
     (Some "balanced"%string, 2%Z, ["1/3"%string; "1/3"%string],
      Fin (650 # 3))].
Proof. vm_compute. split; reflexivity. Qed.

Lemma precision_relabelled_simple_witness :
  P_base scenario_small < D scenario_small /\
  collectCandidates scenario_small <> [] /\
  bestSimple (rank (D scenario_small) (collectCandidates scenario_small))
  = bestPrecision (rank (D scenario_small) (collectCandidates scenario_small))
  /\
  exists p rest,
    searchOptimalCombination scenario_small = Succeeded (p :: rest) /\
    data p
    = data (deref (collectCandidates scenario_small)
                  (bestPrecision (rank (D scenario_small)
                                       (collectCandidates scenario_small)))) /\
    (forall c, In c (collectCandidates scenario_small) ->
               le (excess p) (excess c) = true) /\
    type p = Some "simple"%string /\
    (rest = [] \/ exists b, rest = [b] /\ type b = Some "balanced"%string) /\
    (forall s, In s (p :: rest) -> type s <> Some "precision"%string).
Proof.
  assert (H1 : P_base scenario_small < D scenario_small)
    by (apply Qlt_bool_iff; reflexivity).
  assert (H2 : collectCandidates scenario_small <> [])
    by (vm_compute; discriminate).
  assert (H3 : bestSimple (rank (D scenario_small)
                                (collectCandidates scenario_small))
               = bestPrecision (rank (D scenario_small)
                                     (collectCandidates scenario_small)))
    by (vm_compute; reflexivity).
  split; [exact H1 |]. split; [exact H2 |]. split; [exact H3 |].
  exact (precision_relabelled_simple scenario_small H1 H2 H3).
Defined.

(* ================================================================== *)
(** * Further properties of the code                                   *)
(* ================================================================== *)

(** ** The catalog, pair by pair *)

(** The value that [generateValidRatios] computes for the exponents [a] and
    [b], and the denominator that [toFraction] prints for them. *)
Definition ratio_value (a b : nat) : Q := Math_pow 0.5 a * Math_pow (1 / 3) b.

Definition denominator (a b : nat) : N := (2 ^ N.of_nat a * 3 ^ N.of_nat b)%N.

Lemma odd_pow3 (b : nat) : Z.odd (3 ^ Z.of_nat b) = true.
Proof.
  induction b as [| b IH]; [reflexivity |].
  rewrite Nat2Z.inj_succ, Z.pow_succ_r by lia.
  now rewrite Z.odd_mul, IH.
Qed.

Lemma smooth_inj (a b a' b' : nat) :
  (2 ^ Z.of_nat a * 3 ^ Z.of_nat b = 2 ^ Z.of_nat a' * 3 ^ Z.of_nat b')%Z ->
  a = a' /\ b = b'.
Proof.
  revert a'. induction a as [| a IH]; intros [| a'] H.
  - split; [reflexivity |]. cbn [Z.of_nat] in H. rewrite !Z.pow_0_r, !Z.mul_1_l in H.
    apply Z.pow_inj_r in H; lia.
  - exfalso. apply (f_equal Z.odd) in H.
    rewrite Nat2Z.inj_succ, Z.pow_succ_r, <- Z.mul_assoc in H by lia.
    cbn [Z.of_nat] in H. rewrite Z.pow_0_r, Z.mul_1_l, odd_pow3 in H.
    rewrite (Z.odd_mul 2) in H. discriminate.
  - exfalso. apply (f_equal Z.odd) in H.
    rewrite Nat2Z.inj_succ, Z.pow_succ_r, <- Z.mul_assoc in H by lia.
    cbn [Z.of_nat] in H. rewrite Z.pow_0_r, Z.mul_1_l, odd_pow3 in H.
    rewrite (Z.odd_mul 2) in H. discriminate.
  - rewrite !Nat2Z.inj_succ, !Z.pow_succ_r, <- !Z.mul_assoc in H by lia.
    apply Z.mul_reg_l in H; [| lia].
    destruct (IH a' H) as [-> ->]. now split.
Qed.

Lemma denominator_Z (a b : nat) :
  Z.of_N (denominator a b) = (2 ^ Z.of_nat a * 3 ^ Z.of_nat b)%Z.
Proof.
  unfold denominator. rewrite N2Z.inj_mul, !N2Z.inj_pow, !nat_N_Z. reflexivity.
Qed.

Lemma ratio_value_denominator (a b : nat) :
  ratio_value a b * inject_Z (Z.of_N (denominator a b)) == 1.
Proof.
  rewrite denominator_Z. unfold ratio_value, Math_pow.
  rewrite inject_Z_mult, !Zpower_Qpower by lia.
  transitivity ((0.5 * inject_Z 2) ^ Z.of_nat a * ((1 / 3) * inject_Z 3) ^ Z.of_nat b).
  - rewrite !Qmult_power. ring.
  - assert (E2 : 0.5 * inject_Z 2 == 1) by reflexivity.
    assert (E3 : (1 / 3) * inject_Z 3 == 1) by reflexivity.
    rewrite E2, E3, !Qpower_1. reflexivity.
Qed.

Lemma ratio_value_inv (a b : nat) :
  ratio_value a b == 1 / inject_Z (Z.of_N (denominator a b)).
Proof.
  pose proof (ratio_value_denominator a b) as H.
  assert (Hpos : ~ inject_Z (Z.of_N (denominator a b)) == 0).
  { intro E. rewrite E in H. lra. }
  field_simplify_eq; [| exact Hpos]. lra.
Qed.

Lemma ratio_value_inj (a b a' b' : nat) :
  ratio_value a b == ratio_value a' b' -> a = a' /\ b = b'.
Proof.
  intro E. apply smooth_inj. rewrite <- !denominator_Z.
  apply inject_Z_injective.
  pose proof (ratio_value_denominator a b) as H.
  pose proof (ratio_value_denominator a' b') as H'.
  rewrite E in H.
  assert (Hv : ~ ratio_value a' b' == 0) by (intro Z0; rewrite Z0 in H; lra).
  apply (Qmult_inj_l _ _ (ratio_value a' b')); [exact Hv |]. lra.
Qed.

Lemma ratio_value_pos (a b : nat) : 0 < ratio_value a b.
Proof.
  rewrite ratio_value_inv. apply Qlt_shift_div_l.
  - change 0 with (inject_Z 0). rewrite <- Zlt_Qlt, denominator_Z.
    apply Z.mul_pos_pos; apply Z.pow_pos_nonneg; lia.
  - lra.
Qed.

(** The pairs of exponents in the order in which the two loops of
    [generateValidRatios] reach them; the first is (0, 0). *)
Definition exponent_pairs (maxDepth : nat) : list (nat * nat) :=
  flat_map (fun a => map (pair a) (seq 0 (S (maxDepth - a))))
           (seq 0 (S maxDepth)).

Definition pair_value (ab : nat * nat) : Q := ratio_value (fst ab) (snd ab).

Lemma exponent_pairs_In (maxDepth a b : nat) :
  In (a, b) (exponent_pairs maxDepth) <-> (a + b <= maxDepth)%nat.
Proof.
  unfold exponent_pairs. rewrite in_flat_map. split.
  - intros (a' & Ha & H). apply in_map_iff in H as (b' & [= <- <-] & Hb).
    apply in_seq in Ha. apply in_seq in Hb. lia.
  - intro H. exists a. split; [apply in_seq; lia |].
    apply in_map. apply in_seq. lia.
Qed.

Lemma NoDup_flat_map {A B : Type} (f : A -> list B) (l : list A) :
  NoDup l -> (forall a, In a l -> NoDup (f a)) ->
  (forall a a' x, In x (f a) -> In x (f a') -> a = a') ->
  NoDup (flat_map f l).
Proof.
  intros Hl Hf Hd. induction Hl as [| a l Ha Hl IH]; simpl; [constructor |].
  apply NoDup_app.
  - apply Hf. now left.
  - apply IH. intros; apply Hf. now right.
  - intros x Hx Hx'. apply in_flat_map in Hx' as (a' & Ha' & Hx').
    rewrite (Hd _ _ _ Hx Hx') in Ha. contradiction.
Qed.

Lemma exponent_pairs_NoDup (maxDepth : nat) : NoDup (exponent_pairs maxDepth).
Proof.
  apply NoDup_flat_map.
  - apply seq_NoDup.
  - intros a _. generalize (seq_NoDup (S (maxDepth - a)) 0).
    generalize (seq 0 (S (maxDepth - a))) as l.
    induction 1 as [| b l Hb Hl IH]; simpl; constructor; [| exact IH].
    intro H. apply in_map_iff in H as (b' & [= ->] & H). contradiction.
  - intros a a' [x y] H H'.
    apply in_map_iff in H as (? & [= <- _] & _).
    apply in_map_iff in H' as (? & [= <- _] & _). reflexivity.
Qed.

Lemma distinct_values (l : list (nat * nat)) :
  NoDup l -> StronglySorted differ (map pair_value l).
Proof.
  induction 1 as [| ab l Hab Hl IH]; simpl; constructor; [exact IH |].
  apply Forall_map, Forall_forall. intros ab' Hin E.
  destruct ab as [a b], ab' as [a' b']. unfold pair_value in E.
  cbn [fst snd] in E. apply ratio_value_inj in E as [Ea Eb].
  subst. contradiction.
Qed.

(** Adding values that are new and pairwise distinct appends them. *)
Lemma Set_add_many (vs s : list Q) :
  StronglySorted differ (s ++ vs) ->
  fold_left (fun s v => Set_add v s) vs s = s ++ vs.
Proof.
  revert s. induction vs as [| v vs IH]; intros s H; simpl.
  - now rewrite app_nil_r.
  - assert (E : Set_add v s = s ++ [v]).
    { unfold Set_add.
      destruct (existsb (Qeq_bool v) s) eqn:Ex; [| reflexivity].
      exfalso. apply existsb_exists in Ex as (x & Hx & Hv). qbool.
      clear IH. induction s as [| y s IHs]; [destruct Hx |].
      simpl in H. inversion H as [| ? ? Hs Hy]; subst.
      destruct Hx as [-> | Hx]; [| now apply IHs].
      rewrite Forall_forall in Hy. apply (Hy v); [| now symmetry].
      apply in_or_app. right. now left. }
    rewrite E, IH; rewrite <- app_assoc; [reflexivity | exact H].
Qed.

(** The values that the inner loop adds for [a]. *)
Definition added (maxDepth a : nat) : list Q :=
  map (ratio_value a)
      (filter (fun b => negb ((a =? 0) && (b =? 0))%nat)
              (seq 0 (S (maxDepth - a)))).

Lemma ratios_inner_added (maxDepth a : nat) (s : list Q) :
  ratios_inner maxDepth a s
  = fold_left (fun s v => Set_add v s) (added maxDepth a) s.
Proof.
  unfold ratios_inner, added.
  generalize (seq 0 (S (maxDepth - a))) as l. intro l. revert s.
  induction l as [| b l IH]; intro s; simpl; [reflexivity |].
  destruct ((a =? 0) && (b =? 0))%nat; simpl; apply IH.
Qed.

Lemma filter_all {A : Type} (f : A -> bool) (l : list A) :
  (forall x, In x l -> f x = true) -> filter f l = l.
Proof.
  induction l as [| x l IH]; intro H; simpl; [reflexivity |].
  rewrite H by now left. f_equal. apply IH. intros; apply H. now right.
Qed.

Lemma added_later (maxDepth : nat) (l : list nat) :
  Forall (fun a => a <> 0%nat) l ->
  flat_map (added maxDepth) l
  = map pair_value
        (flat_map (fun a => map (pair a) (seq 0 (S (maxDepth - a)))) l).
Proof.
  induction 1 as [| a l Ha Hl IH]; cbn [flat_map]; [reflexivity |].
  rewrite map_app, <- IH. f_equal.
  unfold added. rewrite map_map. apply Nat.eqb_neq in Ha. rewrite Ha.
  cbn [andb negb]. rewrite filter_all by reflexivity. reflexivity.
Qed.

Lemma added_pairs (maxDepth : nat) :
  1 :: flat_map (added maxDepth) (seq 0 (S maxDepth))
  = map pair_value (exponent_pairs maxDepth).
Proof.
  unfold exponent_pairs.
  change (seq 0 (S maxDepth)) with (0%nat :: seq 1 maxDepth).
  cbn [flat_map]. rewrite map_app, Nat.sub_0_r.
  change (seq 0 (S maxDepth)) with (0%nat :: seq 1 maxDepth).
  cbn [map]. change (pair_value (0%nat, 0%nat)) with 1.
  rewrite <- app_comm_cons. f_equal. f_equal.
  - unfold added. rewrite Nat.sub_0_r.
    change (seq 0 (S maxDepth)) with (0%nat :: seq 1 maxDepth).
    cbn [filter Nat.eqb andb negb]. rewrite map_map.
    rewrite filter_all; [reflexivity |].
    intros b Hb. apply in_seq in Hb. destruct b; [lia | reflexivity].
  - apply added_later. apply Forall_forall. intros a Ha.
    apply in_seq in Ha. lia.
Qed.

(** The set [ratios] holds one value for each pair of exponents, in the
    order of the loops. *)
Lemma ratio_set_pairs (maxDepth : nat) :
  ratio_set maxDepth = map pair_value (exponent_pairs maxDepth).
Proof.
  unfold ratio_set.
  rewrite (fold_left_ext _ (fun s a => fold_left (fun s v => Set_add v s)
                                                 (added maxDepth a) s))
    by (intros; apply ratios_inner_added).
  rewrite <- fold_left_flat_map, Set_add_many.
  - apply added_pairs.
  - cbn [app]. rewrite added_pairs.
    apply distinct_values, exponent_pairs_NoDup.
Qed.

Lemma exponent_pairs_length (maxDepth : nat) :
  (2 * List.length (exponent_pairs maxDepth)
   = (maxDepth + 1) * (maxDepth + 2))%nat.
Proof.
  unfold exponent_pairs.
  assert (H : forall k, (k <= S maxDepth)%nat ->
    (2 * List.length (flat_map (fun a => map (pair a) (seq 0 (S (maxDepth - a))))
                               (seq (S maxDepth - k) k))
     = k * (k + 1))%nat).
  { induction k as [| k IH]; intro Hk; [reflexivity |].
    replace (S maxDepth - S k)%nat with (maxDepth - k)%nat by lia.
    rewrite <- (cons_seq k (maxDepth - k)). cbn [flat_map].
    rewrite length_app, length_map, length_seq.
    specialize (IH ltac:(lia)).
    replace (S maxDepth - k)%nat with (S (maxDepth - k)) in IH by lia.
    replace (maxDepth - (maxDepth - k))%nat with k by lia. nia. }
  specialize (H (S maxDepth) (Nat.le_refl _)).
  rewrite Nat.sub_diag in H. rewrite H. lia.
Qed.

(** The catalog, entry by entry. *)
Definition catalog_entry (ab : nat * nat) : Ratio :=
  mkRatio (pair_value ab) (toFraction (pair_value ab)) (getDepth (pair_value ab)).

Lemma generateValidRatios_entries (maxDepth : nat) :
  Permutation (generateValidRatios maxDepth)
              (map catalog_entry (exponent_pairs maxDepth)).
Proof.
  unfold generateValidRatios. rewrite sort_perm, ratio_set_pairs, map_map.
  reflexivity.
Qed.

(** X1.  The catalog of [generateValidRatios(maxDepth)] is complete: it
    holds a ratio of value [0.5^a * (1/3)^b] exactly for the exponents with
    [a + b <= maxDepth], and so it has [(maxDepth + 1)(maxDepth + 2) / 2]
    entries. *)
Theorem generateValidRatios_complete (maxDepth : nat) :
  (forall a b,
      (a + b <= maxDepth)%nat <->
      exists r, In r (generateValidRatios maxDepth) /\
                value r == ratio_value a b) /\
  (2 * List.length (generateValidRatios maxDepth)
   = (maxDepth + 1) * (maxDepth + 2))%nat.
Proof.
  pose proof (generateValidRatios_entries maxDepth) as Hp.
  split.
  - intros a b. split.
    + intro H. exists (catalog_entry (a, b)). split; [| reflexivity].
      apply (Permutation_in _ (Permutation_sym Hp)).
      apply in_map. now apply exponent_pairs_In.
    + intros (r & Hr & Hv).
      apply (Permutation_in _ Hp) in Hr.
      apply in_map_iff in Hr as ([a' b'] & <- & Hab).
      cbn [catalog_entry value] in Hv. unfold pair_value in Hv.
      cbn [fst snd] in Hv. apply ratio_value_inj in Hv as [-> ->].
      now apply exponent_pairs_In.
  - rewrite (Permutation_length Hp), length_map.
    apply exponent_pairs_length.
Qed.

(** ** The labels of the catalog: toFraction and getDepth *)

Definition same_pair (p q : nat * nat) : bool :=
  ((fst p =? fst q) && (snd p =? snd q))%nat.

(** On the grid of [toFraction] and [getDepth] the first match of a value is
    its own pair of exponents. *)
Lemma grid_first_match :
  forallb (fun ab => match find (matches (pair_value ab)) exponent_grid with
                     | Some ab' => same_pair ab ab'
                     | None => false
                     end) exponent_grid = true.
Proof. vm_compute. reflexivity. Qed.

(** Beyond the grid, up to the exponents 26 and 16, nothing matches. *)
Definition beyond_grid : list (nat * nat) :=
  filter (fun ab => negb ((fst ab <=? 10) && (snd ab <=? 10))%nat)
         (flat_map (fun a => map (pair a) (seq 0 17)) (seq 0 27)).

Lemma beyond_grid_no_match :
  forallb (fun ab => forallb (fun g => negb (matches (pair_value ab) g))
                             exponent_grid) beyond_grid = true.
Proof. vm_compute. reflexivity. Qed.

Lemma grid_values_large :
  forallb (fun g => Qle_bool (1 # 60466176) (pair_value g)) exponent_grid = true.
Proof. vm_compute. reflexivity. Qed.

Lemma exponent_grid_In (a b : nat) :
  In (a, b) exponent_grid <-> (a <= 10 /\ b <= 10)%nat.
Proof.
  unfold exponent_grid. rewrite in_flat_map. split.
  - intros (a' & Ha & H). apply in_map_iff in H as (b' & [= <- <-] & Hb).
    apply in_seq in Ha. apply in_seq in Hb. lia.
  - intros [Ha Hb]. exists a. split; [apply in_seq; lia |].
    apply in_map_iff. exists b. split; [reflexivity | apply in_seq; lia].
Qed.

Lemma same_pair_eq (p q : nat * nat) : same_pair p q = true -> p = q.
Proof.
  destruct p, q. unfold same_pair. cbn [fst snd].
  rewrite andb_true_iff, !Nat.eqb_eq. intros [-> ->]. reflexivity.
Qed.

Lemma find_on_grid (a b : nat) :
  (a <= 10)%nat -> (b <= 10)%nat ->
  find (matches (ratio_value a b)) exponent_grid = Some (a, b).
Proof.
  intros Ha Hb.
  pose proof grid_first_match as H. rewrite forallb_forall in H.
  specialize (H (a, b) (proj2 (exponent_grid_In a b) (conj Ha Hb))).
  change (pair_value (a, b)) with (ratio_value a b) in H.
  destruct (find (matches (ratio_value a b)) exponent_grid) as [ab' |];
    [| discriminate].
  now rewrite (same_pair_eq _ _ H).
Qed.

Lemma matches_far (v : Q) (g : nat * nat) :
  In g exponent_grid -> v <= 1 # 120932352 -> matches v g = false.
Proof.
  intros Hg Hv.
  pose proof grid_values_large as H. rewrite forallb_forall in H.
  specialize (H g Hg). qbool.
  unfold matches. fold (ratio_value (fst g) (snd g)). fold (pair_value g).
  qbool. apply Qle_trans with (pair_value g - v); [lra | apply Qle_Qabs].
Qed.

Lemma ratio_value_small (a b : nat) :
  (27 <= a \/ 17 <= b)%nat -> ratio_value a b <= 1 # 120932352.
Proof.
  intro H. rewrite ratio_value_inv.
  assert (Hd : (120932352 <= Z.of_N (denominator a b))%Z).
  { rewrite denominator_Z.
    assert (0 < 2 ^ Z.of_nat a)%Z by (apply Z.pow_pos_nonneg; lia).
    assert (0 < 3 ^ Z.of_nat b)%Z by (apply Z.pow_pos_nonneg; lia).
    destruct H as [H | H].
    - assert (2 ^ 27 <= 2 ^ Z.of_nat a)%Z by (apply Z.pow_le_mono_r; lia).
      change (2 ^ 27)%Z with 134217728%Z in *. nia.
    - assert (3 ^ 17 <= 3 ^ Z.of_nat b)%Z by (apply Z.pow_le_mono_r; lia).
      change (3 ^ 17)%Z with 129140163%Z in *. nia. }
  apply Qle_shift_div_r.
  - change 0 with (inject_Z 0). rewrite <- Zlt_Qlt. lia.
  - rewrite Zle_Qle in Hd. change (inject_Z 120932352) with (120932352 # 1) in Hd.
    assert (E : (1 # 120932352) * inject_Z (Z.of_N (denominator a b))
                == inject_Z (Z.of_N (denominator a b)) / 120932352)
      by (field).
    rewrite E. apply Qle_shift_div_l; lra.
Qed.

Lemma no_match_beyond (a b : nat) (g : nat * nat) :
  (10 < a \/ 10 < b)%nat -> In g exponent_grid ->
  matches (ratio_value a b) g = false.
Proof.
  intros Hab Hg.
  destruct (le_lt_dec 27 a) as [Ha | Ha];
    [apply matches_far; [exact Hg | apply ratio_value_small; lia] |].
  destruct (le_lt_dec 17 b) as [Hb | Hb];
    [apply matches_far; [exact Hg | apply ratio_value_small; lia] |].
  pose proof beyond_grid_no_match as H. rewrite forallb_forall in H.
  assert (Hin : In (a, b) beyond_grid).
  { unfold beyond_grid. apply filter_In. split.
    - apply in_flat_map. exists a. split; [apply in_seq; lia |].
      apply in_map_iff. exists b. split; [reflexivity | apply in_seq; lia].
    - cbn [fst snd]. apply negb_true_iff, andb_false_iff.
      rewrite !Nat.leb_gt. lia. }
  specialize (H _ Hin). rewrite forallb_forall in H.
  specialize (H g Hg). now apply negb_true_iff in H.
Qed.

Lemma find_beyond_grid (a b : nat) :
  (10 < a \/ 10 < b)%nat ->
  find (matches (ratio_value a b)) exponent_grid = None.
Proof.
  intro H. destruct (find _ _) as [g |] eqn:E; [| reflexivity].
  apply find_some in E as [Hg Hm].
  rewrite (no_match_beyond a b g H Hg) in Hm. discriminate.
Qed.

Lemma ratio_value_one (a b : nat) :
  Qeq_bool (ratio_value a b) 1 = ((a =? 0) && (b =? 0))%nat.
Proof.
  destruct (Qeq_bool (ratio_value a b) 1) eqn:E; qbool; symmetry.
  - change 1 with (ratio_value 0 0) in E.
    apply ratio_value_inj in E as [-> ->]. reflexivity.
  - apply andb_false_iff. rewrite !Nat.eqb_neq.
    destruct a; [| now left]. destruct b; [| now right].
    exfalso. apply E. reflexivity.
Qed.

(** X2.  [getDepth] and [toFraction] recover the exponents of a catalog
    value when both are at most 10, the bound of their loops: the depth is
    [a + b] and the fraction is 1 over [2^a * 3^b], or the text of 1 for the
    value 1.  Beyond that bound no pair of the loops matches: the depth is
    [Infinity] and the fraction is the decimal text of six digits. *)
Theorem catalog_value_decoded (a b : nat) :
  getDepth (ratio_value a b)
  = (if ((a <=? 10) && (b <=? 10))%nat
     then Fin (inject_Z (Z.of_nat (a + b))) else PInf) /\
  toFraction (ratio_value a b)
  = (if ((a =? 0) && (b =? 0))%nat then "1"
     else if ((a <=? 10) && (b <=? 10))%nat
          then "1/" ++ string_of_N (denominator a b)
          else toFixed 6 (ratio_value a b))%string.
Proof.
  unfold getDepth, toFraction. rewrite ratio_value_one.
  destruct ((a <=? 10) && (b <=? 10))%nat eqn:E.
  - apply andb_true_iff in E as [Ha Hb]. apply Nat.leb_le in Ha, Hb.
    rewrite find_on_grid by assumption.
    destruct ((a =? 0) && (b =? 0))%nat eqn:E0; [| now split].
    apply andb_true_iff in E0 as [Ea Eb]. apply Nat.eqb_eq in Ea, Eb.
    subst. now split.
  - apply andb_false_iff in E. rewrite !Nat.leb_gt in E.
    rewrite find_beyond_grid by lia.
    destruct ((a =? 0) && (b =? 0))%nat eqn:E0; [| now split].
    apply andb_true_iff in E0 as [Ea Eb]. apply Nat.eqb_eq in Ea, Eb. lia.
Qed.

(** X3.  Up to [maxDepth = 10] the fields of every catalog entry agree: for
    its exponents [a] and [b] the value is 1 over [2^a * 3^b], the depth is
    [a + b], which is at most [maxDepth], and the fraction is the text of
    that quotient. *)
Theorem catalog_depth_bounded (maxDepth : nat) :
  (maxDepth <= 10)%nat ->
  Forall (fun r =>
            exists a b,
              (a + b <= maxDepth)%nat /\
              value r == 1 / inject_Z (Z.of_N (denominator a b)) /\
              depth r = Fin (inject_Z (Z.of_nat (a + b))) /\
              fraction r
              = (if (a + b =? 0)%nat then "1"
                 else "1/" ++ string_of_N (denominator a b))%string)
         (generateValidRatios maxDepth).
Proof.
  intro Hd.
  eapply Permutation_Forall;
    [symmetry; apply generateValidRatios_entries |].
  apply Forall_map, Forall_forall. intros [a b] Hab.
  apply exponent_pairs_In in Hab. exists a, b.
  unfold catalog_entry, pair_value. cbn [fst snd value depth fraction].
  unfold getDepth, toFraction.
  rewrite ratio_value_one, find_on_grid by lia.
  assert (E0 : ((a =? 0) && (b =? 0))%nat = (a + b =? 0)%nat)
    by (destruct a, b; reflexivity).
  rewrite E0.
  split; [exact Hab |]. split; [apply ratio_value_inv |].
  destruct (a + b =? 0)%nat eqn:E;
    [apply Nat.eqb_eq in E; rewrite E |]; split; reflexivity.
Qed.

(** X4.  From [maxDepth = 11] on the catalog holds ratios that it cannot
    label: the entry of value 1/2048 has the depth [Infinity] and the
    decimal text 0.000488 as its fraction. *)
Theorem catalog_depth_unbounded (maxDepth : nat) :
  (11 <= maxDepth)%nat ->
  exists r, In r (generateValidRatios maxDepth) /\
            value r == 1 # 2048 /\ depth r = PInf /\
            fraction r = "0.000488"%string.
Proof.
  intro Hd. exists (catalog_entry (11%nat, 0%nat)). split.
  - apply (Permutation_in _ (Permutation_sym (generateValidRatios_entries _))).
    apply in_map. apply exponent_pairs_In. lia.
  - vm_compute. repeat split; reflexivity.
Qed.

(** ** The splitters of a ratio: findSplitSequence *)

(** The share of the input that reaches the end of a sequence of splitters,
    each passing on one outlet of its [outlets]. *)
Definition sequence_share (sequence : list Split) : Q :=
  fold_left (fun q s => q / inject_Z (Z.of_nat (splitOutlets s))) sequence 1.

Lemma grid_splitExponents :
  forallb (fun ab => same_pair (splitExponents (pair_value ab)) ab)
          exponent_grid = true.
Proof. vm_compute. reflexivity. Qed.

Lemma splitExponents_on_grid (a b : nat) :
  (a <= 10)%nat -> (b <= 10)%nat -> splitExponents (ratio_value a b) = (a, b).
Proof.
  intros Ha Hb.
  pose proof grid_splitExponents as H. rewrite forallb_forall in H.
  specialize (H (a, b) (proj2 (exponent_grid_In a b) (conj Ha Hb))).
  now apply same_pair_eq in H.
Qed.

Lemma splitExponents_beyond_grid (a b : nat) :
  (10 < a \/ 10 < b)%nat -> splitExponents (ratio_value a b) = (0%nat, 0%nat).
Proof.
  intro H. unfold splitExponents.
  apply fold_left_invariant with (I := fun ab => ab = (0%nat, 0%nat));
    [reflexivity |].
  intros ab i Hi ->.
  destruct (find _ _) as [j |] eqn:E; [| reflexivity].
  apply find_some in E as [Hj Hm].
  apply in_seq in Hi. apply in_seq in Hj.
  rewrite (no_match_beyond a b (i, j) H) in Hm; [discriminate |].
  apply exponent_grid_In. lia.
Qed.

Lemma share_thirds (k : nat) (q : Q) :
  fold_left (fun q s => q / inject_Z (Z.of_nat (splitOutlets s)))
            (repeat (mkSplit "splitter" 3 0) k) q
  == q * Math_pow (1 / 3) k.
Proof.
  revert q. induction k as [| k IH]; intro q; cbn [repeat fold_left].
  - unfold Math_pow. cbn [Z.of_nat Qpower]. ring.
  - rewrite IH. unfold Math_pow.
    rewrite Nat2Z.inj_succ, <- Z.add_1_r, Qpower_plus' by lia.
    cbn [splitOutlets]. change (inject_Z (Z.of_nat 3)) with 3.
    change ((1 / 3) ^ 1) with (1 / 3). field.
Qed.

Lemma share_halves (k : nat) (q : Q) :
  fold_left (fun q s => q / inject_Z (Z.of_nat (splitOutlets s)))
            (repeat (mkSplit "splitter" 2 0) k) q
  == q * Math_pow 0.5 k.
Proof.
  revert q. induction k as [| k IH]; intro q; cbn [repeat fold_left].
  - unfold Math_pow. cbn [Z.of_nat Qpower]. ring.
  - rewrite IH. unfold Math_pow.
    rewrite Nat2Z.inj_succ, <- Z.add_1_r, Qpower_plus' by lia.
    cbn [splitOutlets]. change (inject_Z (Z.of_nat 2)) with 2.
    change (0.5 ^ 1) with 0.5. field.
Qed.

Lemma findSplitSequence_exponents (a b : nat) (inputFlow : Q) :
  findSplitSequence (ratio_value a b) inputFlow
  = if ((a <=? 10) && (b <=? 10))%nat
    then repeat (mkSplit "splitter" 3 0) b ++ repeat (mkSplit "splitter" 2 0) a
    else [].
Proof.
  unfold findSplitSequence.
  destruct ((a <=? 10) && (b <=? 10))%nat eqn:E.
  - apply andb_true_iff in E as [Ha Hb]. apply Nat.leb_le in Ha, Hb.
    now rewrite splitExponents_on_grid by assumption.
  - apply andb_false_iff in E. rewrite !Nat.leb_gt in E.
    now rewrite splitExponents_beyond_grid by lia.
Qed.

(** X5.  [findSplitSequence] turns a catalog value into its splitters: [b]
    of three outlets, then [a] of two, each passing the flow on through its
    first outlet, so that the share that arrives is the value; it does not
    read [inputFlow].  Beyond the exponent 10 it finds no exponents and
    returns no splitter at all. *)
Theorem findSplitSequence_decoded (a b : nat) (inputFlow : Q) :
  findSplitSequence (ratio_value a b) inputFlow
  = (if ((a <=? 10) && (b <=? 10))%nat
     then repeat (mkSplit "splitter" 3 0) b ++ repeat (mkSplit "splitter" 2 0) a
     else []) /\
  sequence_share (findSplitSequence (ratio_value a b) inputFlow)
  == (if ((a <=? 10) && (b <=? 10))%nat then ratio_value a b else 1).
Proof.
  split; [apply findSplitSequence_exponents |].
  rewrite findSplitSequence_exponents. unfold sequence_share.
  destruct ((a <=? 10) && (b <=? 10))%nat; [| reflexivity].
  rewrite fold_left_app, share_halves.
  rewrite (share_thirds b 1). unfold ratio_value. ring.
Qed.

(** ** Ties between assignments *)

Section FirstBest.
Variable batteryTypes : list BatteryType.
Variables targetPower R0 : Q.

(** The best result so far is the first of the combinations seen that has
    its excess: every feasible combination before it has a larger one. *)
Definition first_best (seen : list (list Assignment)) (st : AssignState)
  : Prop :=
  match bestResult st with
  | Some r =>
      exists pre post,
        seen = pre ++ br_batteries r :: post /\
        forall l, In l pre -> feasible targetPower l = true ->
                  lt (excess_of targetPower (br_batteries r))
                     (excess_of targetPower l) = true
  | None => True
  end.

Lemma visit_first_best (seen : list (list Assignment)) (st : AssignState)
  (l : list Assignment) :
  searched targetPower seen st -> first_best seen st ->
  first_best (seen ++ [l]) (visit targetPower st l).
Proof.
  intros (Hn & Hmin & Hbest) Hfirst. unfold visit.
  assert (Hkeep : first_best (seen ++ [l]) st).
  { unfold first_best in *. destruct (bestResult st) as [r |]; [| exact I].
    destruct Hfirst as (pre & post & -> & Hpre).
    exists pre, (post ++ [l]). split; [| exact Hpre].
    now rewrite <- app_assoc. }
  destruct (feasible targetPower l) eqn:Hf; [| exact Hkeep].
  destruct (lt (excess_of targetPower l) (minExcess st)) eqn:Hlt;
    [| exact Hkeep].
  unfold first_best. cbn [bestResult br_batteries].
  exists seen, []. split; [reflexivity |].
  intros l' Hl' Hf'. eapply lt_le_trans; [exact Hlt |]. now apply Hmin.
Qed.

Lemma fold_visit_first_best (ls seen : list (list Assignment))
  (st : AssignState) :
  searched targetPower seen st -> first_best seen st ->
  first_best (seen ++ ls) (fold_left (visit targetPower) ls st).
Proof.
  revert seen st. induction ls as [| l ls IH]; intros seen st Hs Hf; simpl.
  - now rewrite app_nil_r.
  - replace (seen ++ l :: ls) with ((seen ++ [l]) ++ ls)
      by now rewrite <- app_assoc.
    apply IH; [now apply visit_searched | now apply visit_first_best].
Qed.

End FirstBest.

(** X6.  Among the assignments of least excess,
    [findBestVariableAssignment] returns the one that its enumeration
    reaches first: every feasible assignment that it tries before the one it
    returns has a strictly larger excess.  The battery types are tried in the
    order of the list, for the first ratio outermost. *)
Theorem first_best_assignment_wins (ratios : list Ratio)
  (batteryTypes : list BatteryType) (targetPower R0 : Q) (best : BestResult) :
  findBestVariableAssignment ratios batteryTypes targetPower R0 = Some best ->
  exists pre post,
    combinations R0 batteryTypes ratios = pre ++ br_batteries best :: post /\
    forall l, In l pre -> feasible targetPower l = true ->
              lt (excess_of targetPower (br_batteries best))
                 (excess_of targetPower l) = true.
Proof.
  unfold findBestVariableAssignment. intro H.
  pose proof (fold_visit_first_best targetPower
                (combinations R0 batteryTypes ratios) []
                (mkAssignState None PInf)) as Hfb.
  cbn [app] in Hfb.
  change (Fin 0) with (total_power []) in H.
  rewrite assign_visits, map_id in H.
  unfold first_best in Hfb. rewrite H in Hfb. apply Hfb.
  - repeat split; simpl; [discriminate | intros l []].
  - exact I.
Qed.

(** ** The search is exhaustive *)

(** Every candidate that [searchCombinations] pushes is made of [n] ratios. *)
Lemma searchCombinations_counted (n : Z) (params : Params) (fuel : nat) :
  forall (from cur : list Ratio) (rem : Q) (c : Solution),
    In c (searchCombinations fuel n params from cur rem) ->
    exists sel, chosen_from from sel /\
                Z.of_nat (List.length (cur ++ sel)) = n /\
                In c (evaluate_combination n params (cur ++ sel)).
Proof.
  induction fuel as [| fuel IH]; intros from cur rem c; simpl; [intros [] |].
  destruct (Z.eqb_spec (Z.of_nat (List.length cur)) n) as [E | _].
  - intro H. exists []. rewrite app_nil_r. repeat split; [constructor | | ]; assumption.
  - destruct (Qlt_bool flow_limit (sum_values cur)); [intros [] |].
    intro H. apply for_each_from_In in H as (sk & r & from' & -> & H).
    destruct (Qlt_bool flow_limit (sum_values cur + value r)); [destruct H |].
    apply IH in H as (sel & Hsel & Hn & Hc).
    exists (r :: sel). rewrite <- app_assoc in Hn, Hc. repeat split; auto.
    apply chosen_skip_many. now apply chosen_take.
Qed.

Lemma sum_values_from (l : list Ratio) (q : Q) :
  fold_left (fun sum r => sum + value r) l q == q + sum_values l.
Proof.
  unfold sum_values. revert q.
  induction l as [| r l IH]; intro q; cbn [fold_left]; [ring |].
  rewrite IH, (IH (0 + value r)). ring.
Qed.

Lemma sum_values_app (l l' : list Ratio) :
  sum_values (l ++ l') == sum_values l + sum_values l'.
Proof.
  unfold sum_values at 1. rewrite fold_left_app. apply sum_values_from.
Qed.

Lemma sum_values_nonneg (l : list Ratio) :
  Forall (fun r => 0 <= value r) l -> 0 <= sum_values l.
Proof.
  induction 1 as [| r l Hr Hl IH].
  - unfold sum_values. cbn. lra.
  - change (r :: l) with ([r] ++ l). rewrite sum_values_app.
    unfold sum_values at 1. cbn [fold_left]. lra.
Qed.

Lemma evaluate_combination_flow (n : Z) (params : Params) (rs : list Ratio)
  (c : Solution) :
  In c (evaluate_combination n params rs) -> sum_values rs <= flow_limit.
Proof.
  unfold evaluate_combination.
  destruct (Qlt_bool flow_limit (sum_values rs)) eqn:E; [intros [] |].
  intros _. now qbool.
Qed.

(** Every selection of [n] ratios at non-decreasing positions whose sum is
    within the limit is reached: the pruning skips no candidate when no ratio
    is negative. *)
Lemma searchCombinations_reaches (n : Z) (params : Params) (c : Solution)
  (from sel : list Ratio) :
  chosen_from from sel ->
  Forall (fun r => 0 <= value r) from ->
  forall (fuel : nat) (cur : list Ratio) (rem : Q),
    (List.length sel < fuel)%nat ->
    Z.of_nat (List.length (cur ++ sel)) = n ->
    In c (evaluate_combination n params (cur ++ sel)) ->
    In c (searchCombinations fuel n params from cur rem).
Proof.
  induction 1 as [from | r from sel Hsel IH | r from sel Hsel IH];
    intros Hpos fuel cur rem Hfuel Hn Hc.
  - destruct fuel as [| fuel]; [cbn in Hfuel; lia |].
    rewrite app_nil_r in Hn, Hc. cbn [searchCombinations].
    rewrite (proj2 (Z.eqb_eq _ _) Hn). exact Hc.
  - destruct fuel as [| fuel]; [cbn in Hfuel; lia |].
    cbn [List.length] in Hfuel.
    pose proof (evaluate_combination_flow _ _ _ _ Hc) as Hflow.
    assert (Hsel_pos : Forall (fun x => 0 <= value x) sel).
    { apply Forall_forall. intros x Hx. rewrite Forall_forall in Hpos.
      apply Hpos. now apply (chosen_from_In _ _ Hsel). }
    assert (Hr : 0 <= value r) by now inversion Hpos.
    replace (cur ++ r :: sel) with ((cur ++ [r]) ++ sel) in *
      by now rewrite <- app_assoc.
    pose proof (sum_values_nonneg _ Hsel_pos) as Hs.
    assert (E1 : sum_values (cur ++ [r]) = sum_values cur + value r)
      by (unfold sum_values; now rewrite fold_left_app).
    rewrite sum_values_app, E1 in Hflow.
    cbn [searchCombinations].
    destruct (Z.eqb_spec (Z.of_nat (List.length cur)) n) as [E | _].
    { rewrite !length_app in Hn. cbn [List.length] in Hn. lia. }
    destruct (Qlt_bool flow_limit (sum_values cur)) eqn:E2; [qbool; lra |].
    cbn [for_each_from]. apply in_or_app. left.
    destruct (Qlt_bool flow_limit (sum_values cur + value r)) eqn:E3;
      [qbool; lra |].
    apply IH; auto. lia.
  - destruct sel as [| x sel'].
    + destruct fuel as [| fuel]; [cbn in Hfuel; lia |].
      rewrite app_nil_r in Hn, Hc. cbn [searchCombinations].
      rewrite (proj2 (Z.eqb_eq _ _) Hn). exact Hc.
    + assert (Hpos' : Forall (fun r => 0 <= value r) from)
        by now inversion Hpos.
      specialize (IH Hpos' fuel cur rem Hfuel Hn Hc).
      destruct fuel as [| fuel]; [cbn in Hfuel; lia |].
      cbn [searchCombinations] in *.
      destruct (Z.eqb_spec (Z.of_nat (List.length cur)) n) as [E | _].
      { rewrite !length_app in Hn. cbn [List.length] in Hn. lia. }
      destruct (Qlt_bool flow_limit (sum_values cur)); [exact IH |].
      cbn [for_each_from]. apply in_or_app. now right.
Qed.

(** X7.  [searchForNBatteries] is exhaustive: when some ratio is usable and
    no ratio is negative, its candidates are exactly those of the selections
    of [n] usable ratios at non-decreasing positions of the catalog; the
    pruning on the running sum loses none of them. *)
Theorem search_is_exhaustive (validRatios : list Ratio) (n : Z)
  (params : Params) (c : Solution) :
  usableRatios validRatios params <> [] ->
  Forall (fun r => 0 <= value r) validRatios ->
  (In c (searchForNBatteries validRatios n params) <->
   exists sel,
     chosen_from (usableRatios validRatios params) sel /\
     Z.of_nat (List.length sel) = n /\
     In c (evaluate_combination n params sel)).
Proof.
  intros Hne Hpos. unfold searchForNBatteries.
  destruct (usableRatios validRatios params) as [| r us] eqn:E;
    [congruence |].
  split.
  - intro H. apply searchCombinations_counted in H. exact H.
  - intros (sel & Hsel & Hn & Hc).
    apply (searchCombinations_reaches n params c (r :: us) sel Hsel);
      auto; [| lia].
    rewrite <- E. unfold usableRatios. apply Forall_forall.
    intros x Hx. apply filter_In in Hx as [Hx _].
    rewrite Forall_forall in Hpos. now apply Hpos.
Qed.

(** ** The fields of a solution *)

Lemma for_n_In (lo hi : num) (n : Z) :
  In n (for_n lo hi) ->
  exists l h, lo = Fin l /\ hi = Fin h /\ (Qfloor l <= n <= Qfloor h)%Z.
Proof.
  unfold for_n. destruct lo as [l | | |], hi as [h | | |]; try (intros []).
  intro H. apply in_map_iff in H as (k & <- & Hk). apply in_seq in Hk.
  exists l, h. repeat split; lia.
Qed.

(** A candidate of the search: its count is one of the loop, its ratios are
    chosen from the usable ones, one per battery. *)
Lemma collectCandidates_counted (params : Params) (c : Solution) :
  In c (collectCandidates params) ->
  exists n rs,
    In n (for_n (minBatteries params) (searchLimit params)) /\
    chosen_from (usableRatios (generateValidRatios (maxDepth params)) params)
                rs /\
    Z.of_nat (List.length rs) = n /\
    candidate_of params n rs c.
Proof.
  unfold collectCandidates. intro H.
  apply in_flat_map in H as (n & Hn & H).
  unfold searchForNBatteries in H.
  destruct (usableRatios _ params) as [| r us] eqn:E; [destruct H |].
  apply searchCombinations_counted in H as (rs & Hrs & Hlen & Hc).
  cbn [app] in Hlen, Hc. exists n, rs.
  split; [exact Hn |]. split; [exact Hrs |]. split; [exact Hlen |].
  now apply evaluate_combination_candidate.
Qed.

(** A candidate of the search, with the count and the selection it was made
    for. *)
Lemma returned_candidate (params : Params) (sols : list Solution)
  (s : Solution) :
  searchOptimalCombination params = Succeeded sols -> In s sols ->
  exists c n rs,
    data s = data c /\
    In n (for_n (minBatteries params) (searchLimit params)) /\
    chosen_from (usableRatios (generateValidRatios (maxDepth params)) params)
                rs /\
    Z.of_nat (List.length rs) = n /\
    candidate_of params n rs c.
Proof.
  intros H Hs.
  destruct (returned_solution _ _ _ H Hs) as (c & Hc & Hd).
  apply collectCandidates_counted in Hc as (n & rs & Hc).
  exists c, n, rs. now split.
Qed.

(** The fields of a solution agree with one another and with the
    parameters. *)
Definition consistent (params : Params) (s : Solution) : Prop :=
  success s = Some true /\
  batteryCount s = Z.of_nat (List.length (batteries s)) /\
  Forall (fun a => In (typeData a) (p_batteries params) /\
                   aname a = name (typeData a) /\
                   dutyCycle a
                   = min2 (Fin 1) (div (Fin (R params * value (ratio a)))
                                       (Fin (consume (typeData a)))) /\
                   apower a = mul (Fin (power (typeData a))) (dutyCycle a))
         (batteries s) /\
  totalRatio s = Some (sum_ratio_values (batteries s)) /\
  totalPower s = add (Fin (P_base params)) (total_power (batteries s)) /\
  excess s = sub (totalPower s) (Fin (D params)) /\
  complexity s
  = add (Fin (inject_Z (batteryCount s) * 10))
        (sum_depths (map ratio (batteries s))).

Lemma is_combination_each (bts : list BatteryType) (R0 : Q)
  (rs : list Ratio) (l : list Assignment) :
  is_combination bts R0 rs l ->
  Forall (fun a => assigns bts R0 (ratio a) a) l.
Proof.
  induction 1 as [| r a rs l Ha Hl IH]; constructor; [| exact IH].
  destruct Ha as (Hr & Ha). rewrite Hr. now split.
Qed.

Lemma candidate_consistent (params : Params) (n : Z) (rs : list Ratio)
  (c : Solution) :
  Z.of_nat (List.length rs) = n -> candidate_of params n rs c ->
  consistent params c.
Proof.
  intros Hn H.
  pose proof (cand_ratios _ _ _ _ H) as Hrs.
  pose proof (cand_count _ _ _ _ H) as Hcount.
  pose proof (cand_combination _ _ _ _ H) as Hcomb.
  assert (Hl : List.length (batteries c) = List.length rs)
    by (rewrite <- Hrs; now rewrite length_map).
  unfold consistent.
  split; [apply (cand_success _ _ _ _ H) |].
  split; [rewrite Hcount, Hl; now symmetry |].
  split.
  { apply is_combination_each in Hcomb.
    eapply Forall_impl; [| exact Hcomb].
    intros a (_ & H1 & H2 & H3 & H4). auto. }
  split.
  { rewrite sum_ratio_values_map, Hrs. apply (cand_totalRatio _ _ _ _ H). }
  split; [apply (cand_generated _ _ _ _ H) |].
  split; [apply (cand_excess _ _ _ _ H) |].
  rewrite Hcount, Hrs. apply (cand_complexity _ _ _ _ H).
Qed.

Lemma consistent_data (params : Params) (c s : Solution) :
  data s = data c -> consistent params c -> consistent params s.
Proof.
  unfold data, consistent. intro H.
  injection H as -> -> -> -> -> -> ->. auto.
Qed.

(** X8.  The fields of every solution of a successful result agree with one
    another and with the parameters: [batteryCount] is the number of
    batteries; each battery has a type of the parameters, the name of that
    type, the duty cycle [min(1, R * ratio.value / consume)] and the power of
    its type times the duty cycle; [totalRatio] is the sum of the ratios,
    [totalPower] the base power plus the powers of the batteries, [excess]
    the total power less the target and [complexity] ten times the count
    plus the depths of the ratios. *)
Theorem solution_fields_consistent (params : Params) (sols : list Solution)
  (s : Solution) :
  searchOptimalCombination params = Succeeded sols -> In s sols ->
  consistent params s.
Proof.
  intros H Hs.
  destruct (returned_solution _ _ _ H Hs) as (c & Hc & Hd).
  apply collectCandidates_counted in Hc as (n & rs & _ & _ & Hn & Hc).
  eapply consistent_data; [exact Hd |].
  now apply (candidate_consistent params n rs).
Qed.

(** X9.  Every battery of a solution is fed a ratio of the catalog of
    [maxDepth], and one that is at most the largest full-load ratio,
    [max(consume / R)], plus 0.0001. *)
Theorem solution_ratios_usable (params : Params) (sols : list Solution)
  (s : Solution) :
  searchOptimalCombination params = Succeeded sols -> In s sols ->
  Forall (fun a =>
            In (ratio a) (generateValidRatios (maxDepth params)) /\
            le (Fin (value (ratio a)))
               (add (maxFullLoadRatio params) (Fin 0.0001)) = true)
         (batteries s).
Proof.
  intros H Hs.
  destruct (returned_solution _ _ _ H Hs) as (c & Hc & Hd).
  apply collectCandidates_counted in Hc as (n & rs & _ & Hrs & _ & Hc).
  assert (E : batteries s = batteries c) by (unfold data in Hd; congruence).
  rewrite E. apply Forall_forall. intros a Ha.
  assert (Hin : In (ratio a) rs).
  { rewrite <- (cand_ratios _ _ _ _ Hc). now apply in_map. }
  apply (chosen_from_In _ _ Hrs) in Hin.
  unfold usableRatios in Hin. now apply filter_In in Hin.
Qed.

(** ** The number of batteries *)

Lemma min2_lower (x y : num) :
  is_number (min2 x y) ->
  is_number x /\ is_number y /\
  le (min2 x y) x = true /\ le (min2 x y) y = true.
Proof.
  unfold min2, is_number.
  destruct x as [a | | |], y as [b | | |]; cbn; try congruence;
    try (repeat split; try discriminate; qbool; lra).
  destruct (Qle_bool a b) eqn:E; cbn; intros _;
    repeat split; try discriminate; qbool; lra.
Qed.

Lemma Math_min_three (x y z : num) (h : Q) :
  Math_min [x; y; z] = Fin h ->
  le (Fin h) x = true /\ le (Fin h) y = true /\ le (Fin h) z = true.
Proof.
  unfold Math_min. cbn [fold_left]. intro H.
  assert (Hn : is_number (min2 (min2 (min2 PInf x) y) z))
    by (rewrite H; discriminate).
  destruct (min2_lower _ _ Hn) as (Hn2 & _ & L1 & L2).
  destruct (min2_lower _ _ Hn2) as (Hn3 & _ & L3 & L4).
  destruct (min2_lower _ _ Hn3) as (_ & _ & _ & L5).
  rewrite H in *. repeat split.
  - eapply le_trans; [exact L1 |]. eapply le_trans; [exact L3 | exact L5].
  - eapply le_trans; [exact L1 | exact L4].
  - exact L2.
Qed.

Lemma fold_max2_upper (l : list Q) :
  forall acc : num,
    (acc = NInf \/ exists m, acc = Fin m) ->
    le acc (fold_left max2 (map Fin l) acc) = true /\
    Forall (fun q => le (Fin q) (fold_left max2 (map Fin l) acc) = true) l.
Proof.
  induction l as [| x l IH]; intros acc Hacc; cbn [map fold_left].
  - split; [| constructor].
    destruct Hacc as [-> | [m ->]]; [reflexivity | apply le_refl; discriminate].
  - assert (Hstep : (exists m, max2 acc (Fin x) = Fin m) /\
                    le acc (max2 acc (Fin x)) = true /\
                    le (Fin x) (max2 acc (Fin x)) = true).
    { destruct Hacc as [-> | [m ->]]; unfold max2; cbn.
      - repeat split; [eauto | qbool; lra].
      - destruct (Qle_bool m x) eqn:E; cbn; qbool;
          repeat split; eauto; qbool; lra. }
    destruct Hstep as (Hfin & L1 & L2).
    destruct (IH (max2 acc (Fin x)) (or_intror Hfin)) as [L3 Hall].
    split; [eapply le_trans; eauto |].
    constructor; [eapply le_trans; eauto | exact Hall].
Qed.

Lemma Math_max_upper (l : list Q) (q : Q) :
  In q l -> exists m, Math_max (map Fin l) = Fin m /\ q <= m.
Proof.
  intro Hq.
  destruct (fold_max2_upper l NInf (or_introl eq_refl)) as [_ Hall].
  rewrite Forall_forall in Hall. specialize (Hall q Hq).
  fold (Math_max (map Fin l)) in Hall.
  destruct (Math_max_finite l) as [E | [m E]]; rewrite E in Hall.
  - discriminate.
  - exists m. split; [exact E |]. cbn in Hall. now qbool.
Qed.

Lemma succeeded_needs_power (params : Params) (sols : list Solution) :
  searchOptimalCombination params = Succeeded sols ->
  P_base params < D params.
Proof.
  destruct (searchOptimalCombination_cases params)
    as [[_ ->] | [(_ & _ & ->) | (H & _)]]; try discriminate.
  intros _. exact H.
Qed.

(** X10.  The number of batteries of a solution is one of the counts that
    the search tries: at least [minBatteries] and at most [searchLimit],
    hence at most [minBatteries + 3] and at most 8; and it is at least 1
    when some battery type has a positive power. *)
Theorem battery_count_bounded (params : Params) (sols : list Solution)
  (s : Solution) :
  searchOptimalCombination params = Succeeded sols -> In s sols ->
  le (minBatteries params) (Fin (inject_Z (batteryCount s))) = true /\
  le (Fin (inject_Z (batteryCount s))) (searchLimit params) = true /\
  le (Fin (inject_Z (batteryCount s))) (add (minBatteries params) (Fin 3))
  = true /\
  (batteryCount s <= 8)%Z /\
  ((exists b, In b (p_batteries params) /\ 0 < power b) ->
   (1 <= batteryCount s)%Z).
Proof.
  intros H Hs. pose proof (succeeded_needs_power _ _ H) as Hlt.
  destruct (returned_solution _ _ _ H Hs) as (c & Hc & Hd).
  apply collectCandidates_counted in Hc as (n & rs & Hn & _ & _ & Hc).
  rewrite (data_batteryCount _ _ Hd), (cand_count _ _ _ _ Hc).
  apply for_n_In in Hn as (l & h & El & Eh & Hl & Hh).
  pose proof (Math_min_three _ _ _ _ Eh) as (L1 & _ & L3).
  assert (Hnh : inject_Z n <= h).
  { apply Qle_trans with (inject_Z (Qfloor h)); [| apply Qfloor_le].
    now rewrite <- Zle_Qle. }
  assert (Hz : exists z, l = inject_Z z).
  { unfold minBatteries in El.
    destruct (div _ _) as [a | | |]; cbn [Math_ceil] in El; try discriminate.
    injection El as <-. eauto. }
  destruct Hz as [z ->]. rewrite Qfloor_Z in Hl.
  rewrite El, Eh. cbn [le]. repeat split.
  - qbool. now rewrite <- Zle_Qle.
  - qbool. exact Hnh.
  - cbn [add]. cbn [le] in L1. rewrite El in L1. cbn [add le] in L1. qbool. lra.
  - cbn [le] in L3. qbool.
    assert (inject_Z n <= inject_Z 8) by (change (inject_Z 8) with 8; lra).
    now rewrite <- Zle_Qle in *.
  - intros (b & Hb & Hp).
    unfold minBatteries in El. rewrite <- map_map in El.
    destruct (Math_max_upper (map power (p_batteries params)) (power b)
                (in_map _ _ _ Hb)) as (m & Em & Hm).
    rewrite Em in El. cbn [div] in El.
    destruct (Qeq_bool m 0) eqn:E0; [qbool; lra |].
    cbn [Math_ceil] in El. injection El as El.
    apply inject_Z_injective in El.
    assert (Hq : 0 < (D params - P_base params) / m).
    { apply Qlt_shift_div_l; lra. }
    pose proof (Qle_ceiling ((D params - P_base params) / m)) as Hc'.
    rewrite El in Hc'.
    assert (Hz : inject_Z 0 < inject_Z z) by (change (inject_Z 0) with 0; lra).
    rewrite <- Zlt_Qlt in Hz. lia.
Qed.

(** ** Duty cycles *)

Lemma catalog_positive (maxDepth : nat) (r : Ratio) :
  In r (generateValidRatios maxDepth) -> 0 < value r.
Proof.
  intro H. apply (Permutation_in _ (generateValidRatios_entries _)) in H.
  apply in_map_iff in H as ([a b] & <- & _). apply ratio_value_pos.
Qed.

(** X11.  With a supply rate that is not negative and battery types that
    all consume fuel, every battery of a solution runs for a share of the
    time between 0 and 1, and delivers that share of the power of its
    type. *)
Theorem duty_cycle_bounded (params : Params) (sols : list Solution)
  (s : Solution) :
  0 <= R params ->
  Forall (fun b => 0 < consume b) (p_batteries params) ->
  searchOptimalCombination params = Succeeded sols -> In s sols ->
  Forall (fun a => exists d, dutyCycle a = Fin d /\ 0 <= d <= 1 /\
                             apower a = Fin (power (typeData a) * d))
         (batteries s).
Proof.
  intros HR Hcons H Hs.
  destruct (returned_candidate _ _ _ H Hs) as (c & n & rs & Hd & _ & Hrs & _ & Hc).
  assert (E : batteries s = batteries c) by (unfold data in Hd; congruence).
  rewrite E.
  pose proof (is_combination_each _ _ _ _ (cand_combination _ _ _ _ Hc)) as Hall.
  apply Forall_forall. intros a Ha.
  rewrite Forall_forall in Hall. destruct (Hall a Ha) as (_ & Hin & _ & Hduty & Hpow).
  rewrite Forall_forall in Hcons. specialize (Hcons _ Hin).
  assert (Hv : 0 < value (ratio a)).
  { apply (catalog_positive (maxDepth params)).
    assert (Hr : In (ratio a) rs)
      by (rewrite <- (cand_ratios _ _ _ _ Hc); now apply in_map).
    apply (chosen_from_In _ _ Hrs) in Hr.
    unfold usableRatios in Hr. now apply filter_In in Hr. }
  assert (Hq : 0 <= R params * value (ratio a) / consume (typeData a)).
  { apply Qle_shift_div_l; [exact Hcons |].
    rewrite Qmult_0_l. apply Qmult_le_0_compat; lra. }
  rewrite Hpow, Hduty. cbn [div].
  destruct (Qeq_bool (consume (typeData a)) 0) eqn:E0; [qbool; lra |].
  unfold min2. cbn [is_nan orb le].
  destruct (Qle_bool 1 (R params * value (ratio a) / consume (typeData a)))
    eqn:E1; qbool; eexists; (split; [reflexivity |]); split;
    try reflexivity; lra.
Qed.

(** ** Searches that cannot succeed *)

Lemma no_candidate_fails (params : Params) :
  P_base params < D params ->
  (forall c, ~ In c (collectCandidates params)) ->
  searchOptimalCombination params = Failed "无法找到满足需求的方案" [].
Proof.
  intros Hlt Hnone.
  destruct (searchOptimalCombination_cases params)
    as [[Hle _] | [(_ & _ & ->) | (_ & Hne & _)]]; [lra | reflexivity |].
  destruct (collectCandidates params) as [| c l]; [congruence |].
  exfalso. apply (Hnone c). now left.
Qed.

Lemma flat_map_nil {A B : Type} (f : A -> list B) (l : list A) :
  (forall x, f x = []) -> flat_map f l = [].
Proof.
  intro H. induction l as [| x l IH]; simpl; [reflexivity |].
  now rewrite H, IH.
Qed.

(** X12.  With no battery type and a demand above the base power, the
    search fails: [Math.max()] of no full-load ratio is [-Infinity], so no
    ratio is usable. *)
Theorem no_battery_type_fails (params : Params) :
  p_batteries params = [] -> P_base params < D params ->
  searchOptimalCombination params = Failed "无法找到满足需求的方案" [].
Proof.
  intros He Hlt. apply no_candidate_fails; [exact Hlt |].
  intros c Hc. unfold collectCandidates in Hc.
  rewrite flat_map_nil in Hc; [destruct Hc |].
  intro n. unfold searchForNBatteries, usableRatios, maxFullLoadRatio.
  rewrite He. cbn [map Math_max fold_left add].
  generalize (generateValidRatios (maxDepth params)) as l.
  induction l as [| r l IH]; [reflexivity | exact IH].
Qed.

(** A supply rate of 0 feeds no battery: a deficit above the tolerance 0.01
    cannot be met. *)
Lemma unfed_power (bts : list BatteryType) (R0 : Q) (rs : list Ratio)
  (l : list Assignment) :
  R0 == 0 -> is_combination bts R0 rs l ->
  forall p0 : num,
    (p0 = NaN \/ exists q, p0 = Fin q /\ q == 0) ->
    let p := fold_left (fun p a => add p (apower a)) l p0 in
    p = NaN \/ exists q, p = Fin q /\ q == 0.
Proof.
  intros HR. unfold is_combination.
  induction 1 as [| r a rs l Ha Hl IH]; intros p0 Hp0; [exact Hp0 |].
  cbn [fold_left]. apply IH.
  destruct Ha as (_ & _ & _ & Hd & Hp). rewrite Hp, Hd. cbn [div].
  destruct Hp0 as [-> | (q & -> & Hq)]; [now left |].
  destruct (Qeq_bool (consume (typeData a)) 0) eqn:E0.
  - assert (E : Qeq_bool (R0 * value r) 0 = true) by (qbool; rewrite HR; ring).
    rewrite E. now left.
  - unfold min2. cbn [is_nan orb le].
    assert (Ez : R0 * value r / consume (typeData a) == 0).
    { rewrite HR. unfold Qdiv. ring. }
    destruct (Qle_bool 1 (R0 * value r / consume (typeData a))) eqn:E1;
      [qbool; lra |].
    right. cbn [mul add]. eexists. split; [reflexivity |].
    rewrite Ez, Hq. ring.
Qed.

(** X13.  With a supply rate of 0 every duty cycle is 0 (or NaN, for a type
    that consumes nothing): no battery delivers power, and the search fails
    as soon as the demand exceeds the base power by more than the tolerance
    0.01. *)
Theorem zero_supply_fails (params : Params) :
  R params == 0 -> P_base params + 0.01 < D params ->
  searchOptimalCombination params = Failed "无法找到满足需求的方案" [].
Proof.
  intros HR Hlt. apply no_candidate_fails; [lra |].
  intros c Hc. apply collectCandidates_candidate in Hc as (n & rs & _ & Hc).
  pose proof (cand_power _ _ _ _ Hc) as Hp.
  rewrite (cand_generated _ _ _ _ Hc) in Hp.
  destruct (unfed_power _ _ _ _ HR (cand_combination _ _ _ _ Hc) (Fin 0))
    as [E | (q & E & Hq)].
  - right. exists 0. now split.
  - unfold total_power in Hp. rewrite E in Hp. discriminate.
  - unfold total_power in Hp. rewrite E in Hp. cbn in Hp. qbool. lra.
Qed.

(** ** The labels of the solutions *)

(** The three fields that the ranking writes. *)
Definition labels (c : Solution) : option string * option string * option string :=
  (type c, sname c, desc c).

Definition base_labels : option string * option string * option string :=
  (Some "base", Some "无需电池", Some "基地发电已满足需求")%string.

Definition precision_labels : option string * option string * option string :=
  (Some "precision", Some "精准优先", Some "追求最小的功率溢出")%string.

Definition simple_labels : option string * option string * option string :=
  (Some "simple", Some "结构精简", Some "分流器层数更少或电池更少")%string.

Definition balanced_labels : option string * option string * option string :=
  (Some "balanced", Some "均衡方案", Some "综合考虑功率与复杂度")%string.

Lemma labels_update (r : Ref) (t n d : string) (h : Store) (i : Ref) :
  labels (deref (update r (label t n d) h) i)
  = if ((i =? r) && (r <? List.length h))%nat then (Some t, Some n, Some d)
    else labels (deref h i).
Proof.
  rewrite deref_update.
  now destruct ((i =? r) && (r <? List.length h))%nat.
Qed.

Lemma rank_labels (D0 : Q) (h : Store) (i : Ref) :
  h <> [] ->
  labels (deref (store (rank D0 h)) i)
  = if is_balanced (rank D0 h) i then balanced_labels
    else if (i =? bestSimple (rank D0 h))%nat then simple_labels
    else if (i =? bestPrecision (rank D0 h))%nat then precision_labels
    else labels (deref h i).
Proof.
  intro Hne.
  pose proof (rank_precision_valid D0 h Hne) as Hp.
  pose proof (rank_simple_valid D0 h Hne) as Hsi.
  pose proof (rank_balanced_valid D0 h) as Hb.
  apply Nat.ltb_lt in Hp, Hsi.
  unfold is_balanced. revert Hp Hsi Hb. unfold rank.
  cbn [store bestBalanced bestSimple bestPrecision].
  intros Hp Hsi Hb.
  match goal with |- context [find ?f ?l] => destruct (find f l) as [b |] end.
  - specialize (Hb b eq_refl). apply Nat.ltb_lt in Hb.
    rewrite !labels_update, !update_length, Hp, Hsi, Hb, !andb_true_r.
    reflexivity.
  - rewrite !labels_update, !update_length, Hp, Hsi, !andb_true_r.
    reflexivity.
Qed.

(** The balanced pick is neither of the other two. *)
Lemma rank_balanced_distinct (D0 : Q) (h : Store) (b : Ref) :
  bestBalanced (rank D0 h) = Some b ->
  b <> bestPrecision (rank D0 h) /\ b <> bestSimple (rank D0 h).
Proof.
  intro E. destruct (rank_balanced_ok _ _ _ E) as [_ Hok].
  unfold balanced_ok in Hok. rewrite !andb_true_iff, !negb_true_iff in Hok.
  destruct Hok as [[H1 H2] _]. apply Nat.eqb_neq in H1, H2. now split.
Qed.

(** X14.  The solutions of a result carry the labels of the ranking, type,
    name and description, in this order: the precision pick unless it is
    also the simple pick, the simple pick, and the balanced pick when there
    is one.  The result for a covered demand holds the base solution alone,
    and a failure holds no solution. *)
Theorem solutions_labelled (params : Params) :
  match searchOptimalCombination params with
  | BaseSolution sols => map labels sols = [base_labels]
  | Failed _ sols => sols = []
  | Succeeded sols =>
      map labels sols = [precision_labels; simple_labels] \/
      map labels sols = [precision_labels; simple_labels; balanced_labels] \/
      map labels sols = [simple_labels] \/
      map labels sols = [simple_labels; balanced_labels]
  end.
Proof.
  destruct (searchOptimalCombination_cases params)
    as [[_ ->] | [(_ & _ & ->) | (_ & Hne & ->)]]; [reflexivity .. |].
  rewrite rank_solutions, map_map.
  set (h := collectCandidates params) in *.
  set (r := rank (D params) h).
  assert (Hl : forall i, labels (deref (store r) i)
                         = if is_balanced r i then balanced_labels
                           else if (i =? bestSimple r)%nat then simple_labels
                           else if (i =? bestPrecision r)%nat
                                then precision_labels
                                else labels (deref h i))
    by (intro i; apply rank_labels; exact Hne).
  pose proof (rank_balanced_distinct (D params) h) as Hb. fold r in Hb.
  unfold is_balanced in Hl.
  destruct (bestBalanced r) as [b |].
  - destruct (Hb b eq_refl) as [Hbp Hbs].
    assert (Ep : (bestPrecision r =? b)%nat = false) by (apply Nat.eqb_neq; congruence).
    assert (Es : (bestSimple r =? b)%nat = false) by (apply Nat.eqb_neq; congruence).
    destruct (bestSimple r =? bestPrecision r)%nat eqn:E; cbn [negb app map].
    + apply Nat.eqb_eq in E. right. right. right.
      rewrite !Hl, Ep, E, !Nat.eqb_refl. reflexivity.
    + right. left.
      rewrite !Hl, Ep, Es, !Nat.eqb_refl. rewrite Nat.eqb_sym, E.
      reflexivity.
  - destruct (bestSimple r =? bestPrecision r)%nat eqn:E; cbn [negb app map].
    + apply Nat.eqb_eq in E. right. right. left.
      rewrite !Hl, E, !Nat.eqb_refl. reflexivity.
    + left. rewrite !Hl, !Nat.eqb_refl. rewrite Nat.eqb_sym, E. reflexivity.
Qed.

(** ** The order in which the candidates are collected *)

Lemma sorted_app {A : Type} (rel : A -> A -> Prop) (a b : list A) :
  StronglySorted rel a -> StronglySorted rel b ->
  (forall x y, In x a -> In y b -> rel x y) ->
  StronglySorted rel (a ++ b).
Proof.
  intros Ha Hb Hab. induction Ha as [| x a Ha IH Hx]; [exact Hb |].
  cbn [app]. constructor.
  - apply IH. intros; apply Hab; [now right | assumption].
  - apply Forall_app. split; [exact Hx |].
    apply Forall_forall. intros y Hy. apply Hab; [now left | exact Hy].
Qed.

Lemma for_n_sorted (lo hi : num) : StronglySorted Z.lt (for_n lo hi).
Proof.
  unfold for_n. destruct lo as [l | | |], hi as [h | | |]; try constructor.
  generalize (Z.to_nat (Qfloor h - Qfloor l + 1)) as m.
  generalize 0%nat as s. intros s m. revert s.
  induction m as [| m IH]; intro s; cbn [seq map]; constructor; [apply IH |].
  apply Forall_map, Forall_forall. intros k Hk. apply in_seq in Hk.
  cbn beta. lia.
Qed.

(** The candidates are collected by ascending number of batteries. *)
Lemma collectCandidates_by_count (params : Params) :
  StronglySorted (fun c c' => (batteryCount c <= batteryCount c')%Z)
                 (collectCandidates params).
Proof.
  unfold collectCandidates.
  set (f := fun n => searchForNBatteries _ n params).
  assert (Hf : forall n c, In c (f n) -> batteryCount c = n).
  { intros n c Hc. unfold f in Hc.
    apply searchForNBatteries_candidate in Hc as (rs & _ & Hc).
    apply (cand_count _ _ _ _ Hc). }
  pose proof (for_n_sorted (minBatteries params) (searchLimit params)) as Hs.
  induction Hs as [| n l Hs IH Hn]; cbn [flat_map]; [constructor |].
  apply sorted_app; [| exact IH |].
  - assert (Hall : Forall (fun c => batteryCount c = n) (f n))
      by (apply Forall_forall; intros c Hc; now apply Hf).
    induction Hall as [| c cs Hc Hcs IHc]; constructor; [exact IHc |].
    eapply Forall_impl; [| exact Hcs]. intros c' Hc'. cbn beta in *. lia.
  - intros c c' Hc Hc'. apply in_flat_map in Hc' as (n' & Hn' & Hc').
    rewrite (Hf _ _ Hc), (Hf _ _ Hc').
    rewrite Forall_forall in Hn. specialize (Hn _ Hn'). lia.
Qed.

(** The head of the sorted array: every other candidate has a larger
    excess, or the same and was collected later. *)
Lemma precision_first (D0 : Q) (h : Store) (j : Ref) :
  numbered h -> (j < List.length h)%nat ->
  j = bestPrecision (rank D0 h) \/ before h (bestPrecision (rank D0 h)) j.
Proof.
  intros Hn Hj. rewrite rank_precision.
  pose proof (sortedRefs_sorted h Hn) as Hs.
  assert (Hin : In j (sortedRefs h)) by now apply sortedRefs_In.
  destruct (sortedRefs h) as [| x l]; [destruct Hin |].
  cbn [nth]. inversion Hs as [| ? ? _ Hx]; subst.
  destruct Hin as [<- | Hin]; [now left | right].
  rewrite Forall_forall in Hx. now apply Hx.
Qed.

(** X15.  The first solution of a successful result has the least excess of
    all the candidates that the search found, hence of all the solutions;
    and among the candidates of that excess it has the fewest batteries,
    since the sort is stable and the candidates are collected by ascending
    number of batteries. *)
Theorem first_solution_least_excess (params : Params) (sols : list Solution) :
  searchOptimalCombination params = Succeeded sols ->
  exists p rest,
    sols = p :: rest /\
    (forall c, In c (collectCandidates params) ->
               le (excess p) (excess c) = true) /\
    (forall s, In s sols -> le (excess p) (excess s) = true) /\
    (forall c, In c (collectCandidates params) ->
               le (excess c) (excess p) = true ->
               (batteryCount p <= batteryCount c)%Z).
Proof.
  intro H.
  assert (Hsols : sols = map (deref (store (rank (D params)
                                                 (collectCandidates params))))
                             (solutions (rank (D params)
                                              (collectCandidates params)))
                  /\ collectCandidates params <> []).
  { destruct (searchOptimalCombination_cases params)
      as [[_ E] | [(_ & _ & E) | (_ & Hne & E)]];
      rewrite E in H; try discriminate.
    split; [congruence | exact Hne]. }
  destruct Hsols as [Hsols Hne]. rewrite rank_solutions in Hsols.
  cbn [app map] in Hsols.
  set (h := collectCandidates params) in *.
  set (r := rank (D params) h) in *.
  rewrite Hsols.
  pose proof (collectCandidates_numbered params) as Hnum. fold h in Hnum.
  assert (Hd : data (deref (store r) (bestPrecision r))
               = data (deref h (bestPrecision r))) by apply rank_data.
  assert (Hmin : forall c, In c h ->
                           le (excess (deref (store r) (bestPrecision r)))
                              (excess c) = true).
  { intros c Hc. rewrite (data_excess _ _ Hd).
    now apply precision_minimal. }
  eexists _, _. split; [reflexivity |]. split; [exact Hmin |]. split.
  - intros s Hs. rewrite <- Hsols in Hs.
    destruct (returned_solution _ _ _ H Hs) as (c & Hc & Hdc).
    rewrite (data_excess _ _ Hdc). now apply Hmin.
  - intros c Hc Hle.
    rewrite (data_excess _ _ Hd) in Hle. rewrite (data_batteryCount _ _ Hd).
    apply In_nth with (d := no_solution) in Hc as (j & Hj & <-).
    fold (deref h j) in *.
    pose proof (precision_first (D params) h j Hnum Hj) as Hfirst.
    fold r in Hfirst. destruct Hfirst as [-> | Hb]; [lia |].
    destruct Hb as [Hlt | [_ Hlater]].
    + apply lt_not_le in Hlt. congruence.
    + apply (sorted_nth _ _ no_solution (collectCandidates_by_count params)).
      fold h. unfold Ref in *. lia.
Qed.

(** ** The simple pick *)

(** [c.excess <= excessThreshold + 0.01], the filter of [simpleCandidates]. *)
Definition within_threshold (D0 : Q) (h : Store) (c : Ref) : bool :=
  le (excess (deref h c)) (add (max2 (Fin (D0 * 0.05)) (Fin 100)) (Fin 0.01)).

(** A number that is finite or [Infinity], as a complexity is. *)
Definition extended (x : num) : Prop := x = PInf \/ exists q, x = Fin q.

Lemma getDepth_extended (v : Q) : extended (getDepth v).
Proof.
  unfold getDepth, extended.
  destruct (Qeq_bool v 1); [right; eauto |].
  destruct (find (matches v) exponent_grid) as [[a b] |]; [right; eauto | now left].
Qed.

Lemma add_extended (x y : num) : extended x -> extended y -> extended (add x y).
Proof.
  intros [-> | [a ->]] [-> | [b ->]]; cbn; unfold extended; eauto.
Qed.

Lemma catalog_depth_extended (maxDepth : nat) (r : Ratio) :
  In r (generateValidRatios maxDepth) -> extended (depth r).
Proof.
  intro H. apply (Permutation_in _ (generateValidRatios_entries _)) in H.
  apply in_map_iff in H as (ab & <- & _). apply getDepth_extended.
Qed.

Lemma sum_depths_extended (rs : list Ratio) :
  Forall (fun r => extended (depth r)) rs -> extended (sum_depths rs).
Proof.
  unfold sum_depths. intro H.
  apply fold_left_invariant; [right; eauto |].
  intros s r Hr Hs. apply add_extended; [exact Hs |].
  rewrite Forall_forall in H. now apply H.
Qed.

Lemma candidate_complexity_extended (params : Params) (c : Solution) :
  In c (collectCandidates params) -> extended (complexity c).
Proof.
  intro H. apply collectCandidates_counted in H as (n & rs & _ & Hrs & _ & Hc).
  rewrite (cand_complexity _ _ _ _ Hc).
  apply add_extended; [right; eauto |].
  apply sum_depths_extended, Forall_forall. intros r Hr.
  apply (chosen_from_In _ _ Hrs) in Hr.
  unfold usableRatios in Hr. apply filter_In in Hr as [Hr _].
  now apply catalog_depth_extended in Hr.
Qed.

(** [i] is at most as complex as [j]. *)
Definition simpler (h : Store) (i j : Ref) : Prop :=
  le (complexity (deref h i)) (complexity (deref h j)) = true.

Lemma complexity_order (cx cy e : num) :
  extended cx -> extended cy ->
  (gt (or_else (sub cx cy) e) (Fin 0) = true -> le cy cx = true) /\
  (gt (or_else (sub cx cy) e) (Fin 0) = false -> le cx cy = true) /\
  (gt (sub cx cy) (Fin 0) = true -> le cy cx = true) /\
  (gt (sub cx cy) (Fin 0) = false -> le cx cy = true).
Proof.
  intros [-> | [a ->]] [-> | [b ->]]; cbn; repeat split; try congruence;
    unfold or_else, truthy, gt; cbn;
    try (destruct (Qeq_bool (a - b) 0) eqn:E; cbn);
    intro H; qbool; lra.
Qed.

Lemma sort_ext {A : Type} (cmp cmp' : A -> A -> num) (l : list A) :
  (forall a b, cmp a b = cmp' a b) -> sort cmp l = sort cmp' l.
Proof.
  intro H. induction l as [| x l IH]; simpl; [reflexivity |].
  rewrite IH. generalize (sort cmp' l) as s.
  induction s as [| y s IHs]; simpl; [reflexivity |].
  unfold after. now rewrite H, IHs.
Qed.

Lemma all_pairs {A : Type} (P : A -> Prop) (l : list A) :
  Forall P l -> StronglySorted (fun x y => P x /\ P y) l.
Proof.
  induction 1 as [| x l Hx Hl IH]; constructor; [exact IH |].
  eapply Forall_impl; [| exact Hl]. now split.
Qed.

(** Both sorts by complexity put the less complex candidate first. *)
Lemma sorted_by_complexity (h : Store) (l : list Ref) :
  Forall (fun i => extended (complexity (deref h i))) l ->
  StronglySorted (simpler h) (sort (by_complexity_then_excess h) l) /\
  StronglySorted (simpler h) (sort (by_complexity h) l).
Proof.
  intro H. apply all_pairs in H. unfold simpler.
  split;
    (eapply sort_sorted; [| | | exact H]; cbn beta;
     [intros x y z; apply le_trans
     | intros x y [Hx Hy] Ha; unfold after in Ha
     | intros x y [Hx Hy] Ha; unfold after in Ha]).
  - unfold by_complexity_then_excess, by_complexity in Ha.
    now apply (complexity_order _ _ _ Hx Hy) in Ha.
  - unfold by_complexity_then_excess, by_complexity in Ha.
    now apply (complexity_order _ _ _ Hx Hy) in Ha.
  - unfold by_complexity in Ha.
    now apply (complexity_order _ _ (Fin 0) Hx Hy) in Ha.
  - unfold by_complexity in Ha.
    now apply (complexity_order _ _ (Fin 0) Hx Hy) in Ha.
Qed.

(** The candidates within the threshold, in the order of the sorted array. *)
Definition simpleRefs (D0 : Q) (h : Store) : list Ref :=
  filter (within_threshold D0 h) (sortedRefs h).

Lemma data_complexity (c c' : Solution) :
  data c = data c' -> complexity c = complexity c'.
Proof. unfold data. congruence. Qed.

(** The simple pick, read in the store before the labels are written. *)
Lemma rank_simple (D0 : Q) (h : Store) :
  bestSimple (rank D0 h)
  = let simple' := sort (by_complexity_then_excess h) (simpleRefs D0 h) in
    let bestSimple0 :=
      if (0 <? List.length (simpleRefs D0 h))%nat then nth 0 simple' 0%nat
      else nth 0 (sort (by_complexity h) (sortedRefs h)) 0%nat in
    if ((bestSimple0 =? bestPrecision (rank D0 h))
        && (1 <? List.length (simpleRefs D0 h)))%nat
    then nth 1 simple' 0%nat
    else bestSimple0.
Proof.
  unfold rank. cbn [bestSimple bestPrecision]. cbn zeta.
  fold (sortedRefs h).
  set (h1 := update _ _ h).
  assert (Hd : forall i, data (deref h1 i) = data (deref h i))
    by (intro i; apply data_update).
  assert (Ef : filter (fun c => le (excess (deref h1 c))
                                  (add (max2 (Fin (D0 * 0.05)) (Fin 100))
                                       (Fin 0.01))) (sortedRefs h)
               = simpleRefs D0 h).
  { unfold simpleRefs. apply filter_ext. intro c. unfold within_threshold.
    now rewrite (data_excess _ _ (Hd c)). }
  assert (Ec : forall l, sort (by_complexity_then_excess h1) l
                         = sort (by_complexity_then_excess h) l).
  { intro l. apply sort_ext. intros a b.
    unfold by_complexity_then_excess, by_complexity, by_excess.
    now rewrite (data_complexity _ _ (Hd a)), (data_complexity _ _ (Hd b)),
      (data_excess _ _ (Hd a)), (data_excess _ _ (Hd b)). }
  assert (Ec' : forall l, sort (by_complexity h1) l = sort (by_complexity h) l).
  { intro l. apply sort_ext. intros a b. unfold by_complexity.
    now rewrite (data_complexity _ _ (Hd a)), (data_complexity _ _ (Hd b)). }
  rewrite Ef, Ec, Ec'. reflexivity.
Qed.

Lemma sorted_nth_le {A : Type} (rel : A -> A -> Prop) (l : list A) (d : A) :
  StronglySorted rel l -> (forall x, In x l -> rel x x) ->
  forall i j, (i <= j < List.length l)%nat -> rel (nth i l d) (nth j l d).
Proof.
  intros Hs Hr i j Hij. destruct (Nat.eq_dec i j) as [-> | Hne].
  - apply Hr, nth_In. lia.
  - apply sorted_nth; [exact Hs | lia].
Qed.

(** The candidate of least excess is within the threshold as soon as one
    candidate is. *)
Lemma precision_within (D0 : Q) (h : Store) (c : Ref) :
  numbered h -> (c < List.length h)%nat ->
  within_threshold D0 h c = true ->
  within_threshold D0 h (bestPrecision (rank D0 h)) = true.
Proof.
  intros Hn Hc Hw. unfold within_threshold in *.
  eapply le_trans; [| exact Hw].
  apply precision_minimal; [exact Hn | now apply nth_In].
Qed.

(** X16.  The simple pick is within the excess threshold,
    [max(0.05 * D, 100) + 0.01], whenever the candidate of least excess is;
    and it is no more complex than any other candidate within the
    threshold, the precision pick apart, or than any other candidate at all
    when none is within the threshold. *)
Theorem simple_pick_least_complex (params : Params) :
  let h := collectCandidates params in
  let r := rank (D params) h in
  (within_threshold (D params) h (bestPrecision r) = true ->
   within_threshold (D params) h (bestSimple r) = true) /\
  (forall c, (c < List.length h)%nat -> c <> bestPrecision r ->
             within_threshold (D params) h c = true ->
             le (complexity (deref h (bestSimple r))) (complexity (deref h c))
             = true) /\
  (within_threshold (D params) h (bestPrecision r) = false ->
   forall c, (c < List.length h)%nat ->
             le (complexity (deref h (bestSimple r))) (complexity (deref h c))
             = true).
Proof.
  intros h r.
  pose proof (collectCandidates_numbered params) as Hnum. fold h in Hnum.
  set (simple := simpleRefs (D params) h).
  set (simple' := sort (by_complexity_then_excess h) simple).
  assert (Hsimple : forall c, In c simple <->
                              (c < List.length h)%nat /\
                              within_threshold (D params) h c = true).
  { intro c. unfold simple, simpleRefs. rewrite filter_In, sortedRefs_In.
    tauto. }
  assert (Hsimple' : forall c, In c simple' <-> In c simple)
    by (intro c; apply sort_In).
  assert (Hlen : List.length simple' = List.length simple)
    by apply sort_length.
  assert (Hext : forall l, (forall c, In c l -> (c < List.length h)%nat) ->
                           Forall (fun i => extended (complexity (deref h i))) l).
  { intros l Hl. apply Forall_forall. intros i Hi.
    apply (candidate_complexity_extended params). apply nth_In.
    now apply Hl. }
  assert (Hrefl : forall c, (c < List.length h)%nat -> simpler h c c).
  { intros c Hc. unfold simpler.
    destruct (candidate_complexity_extended params (deref h c)) as [-> | [q ->]];
      [now apply nth_In | reflexivity | apply le_refl; discriminate]. }
  assert (Hs1 : StronglySorted (simpler h) simple').
  { apply sorted_by_complexity, Hext. intros c Hc. now apply Hsimple in Hc. }
  assert (Hs2 : StronglySorted (simpler h)
                               (sort (by_complexity h) (sortedRefs h))).
  { apply sorted_by_complexity, Hext. intros c Hc. now apply sortedRefs_In. }
  assert (Hbs : bestSimple r
                = let bestSimple0 :=
                    if (0 <? List.length simple)%nat then nth 0 simple' 0%nat
                    else nth 0 (sort (by_complexity h) (sortedRefs h)) 0%nat in
                  if ((bestSimple0 =? bestPrecision r)
                      && (1 <? List.length simple))%nat
                  then nth 1 simple' 0%nat
                  else bestSimple0)
    by apply rank_simple.
  cbn zeta in Hbs. unfold Ref in *.
  split; [| split].
  - intro Hw.
    assert (Hne : h <> []).
    { intro E. unfold within_threshold in Hw. rewrite E in Hw.
      unfold deref in Hw. now destruct (bestPrecision r) in Hw. }
    assert (Hp : In (bestPrecision r) simple).
    { apply Hsimple. split; [now apply rank_precision_valid | exact Hw]. }
    assert (Hpos : (0 < List.length simple)%nat)
      by (clear - Hp; destruct simple; [destruct Hp | simpl; lia]).
    rewrite (proj2 (Nat.ltb_lt _ _) Hpos) in Hbs.
    assert (Hin : In (bestSimple r) simple').
    { rewrite Hbs.
      destruct ((nth 0 simple' 0%nat =? bestPrecision r)
                && (1 <? List.length simple))%nat eqn:E.
      - apply andb_true_iff in E as [_ E]. apply Nat.ltb_lt in E.
        apply nth_In. lia.
      - apply nth_In. lia. }
    apply Hsimple', Hsimple in Hin. apply Hin.
  - intros c Hc Hcp Hcw.
    assert (Hin : In c simple') by (apply Hsimple', Hsimple; now split).
    assert (Epos : (0 < List.length simple)%nat).
    { rewrite <- Hlen. clear - Hin.
      destruct simple'; [destruct Hin | simpl; lia]. }
    rewrite (proj2 (Nat.ltb_lt _ _) Epos) in Hbs.
    apply In_nth with (d := 0%nat) in Hin as (j & Hj & Ej).
    rewrite <- Ej, Hbs. fold (simpler h).
    destruct ((nth 0 simple' 0%nat =? bestPrecision r)
              && (1 <? List.length simple))%nat eqn:E.
    + apply andb_true_iff in E as [E0 E1].
      apply Nat.eqb_eq in E0. apply Nat.ltb_lt in E1.
      assert (j <> 0)%nat
        by (intros ->; apply Hcp; rewrite <- Ej; exact E0).
      refine (sorted_nth_le (simpler h) simple' 0%nat Hs1 _ 1%nat j _);
        [| unfold Ref in *; lia].
      intros x Hx. apply Hrefl. now apply Hsimple', Hsimple in Hx.
    + refine (sorted_nth_le (simpler h) simple' 0%nat Hs1 _ 0%nat j _);
        [| unfold Ref in *; lia].
      intros x Hx. apply Hrefl. now apply Hsimple', Hsimple in Hx.
  - intros Hw c Hc.
    assert (Epos : List.length simple = 0%nat).
    { destruct (List.length simple) eqn:El; [reflexivity | exfalso].
      assert (Hex : exists x, In x simple)
        by (clear - El; destruct simple as [| x l];
            [discriminate | exists x; now left]).
      destruct Hex as [x Hx]. apply Hsimple in Hx as [Hx Hxw].
      pose proof (precision_within _ _ _ Hnum Hx Hxw) as Hpw.
      fold r in Hpw. congruence. }
    rewrite Epos in Hbs. cbn [Nat.ltb Nat.leb andb] in Hbs.
    rewrite andb_false_r in Hbs.
    assert (Hin : In c (sort (by_complexity h) (sortedRefs h)))
      by now apply sort_In, sortedRefs_In.
    apply In_nth with (d := 0%nat) in Hin as (j & Hj & Ej).
    rewrite <- Ej, Hbs. fold (simpler h).
    refine (sorted_nth_le (simpler h) _ 0%nat Hs2 _ 0%nat j _);
      [| unfold Ref in *; lia].
    intros x Hx. apply Hrefl. now apply sort_In, sortedRefs_In in Hx.
Qed.

(** ** The network of a solution *)

Lemma network_description (s : Solution) :
  no_network s = false ->
  description (constructSplitterNetwork s) = text (network_lines s).
Proof.
  intro Hno. unfold constructSplitterNetwork. rewrite Hno.
  unfold buildNetworkTree, network_lines.
  destruct (map ratio (batteries s)) as [| r [| r' l]]; reflexivity.
Qed.

Lemma network_lines_describe (s : Solution) :
  describes (network_lines s) (map (fun a => fraction (ratio a)) (batteries s)).
Proof.
  unfold network_lines. rewrite <- (map_map ratio fraction).
  apply buildNetworkTree_lines_describes. lia.
Qed.

(** X17.  Every solution of a result can be displayed.  One without
    batteries, the base solution among them, gets the description of no
    network and a tree of the main belt alone; for any other, the
    description and the tree both show the batteries of the solution, one
    each, by the fraction of their ratios and in their order. *)
Theorem solutions_have_networks (params : Params) (s : Solution) :
  In s (solutions_of (searchOptimalCombination params)) ->
  if (batteryCount s =? 0)%Z
  then constructSplitterNetwork s = mkNetwork "无需分流器网络" (Some []) /\
       buildVisualizationTree s = MainNode []
  else description (constructSplitterNetwork s) = text (network_lines s) /\
       battery_texts (network_lines s)
       = map (fun a => fraction (ratio a)) (batteries s) /\
       Z.of_nat (List.length (battery_texts (network_lines s)))
       = batteryCount s /\
       battery_ratios (buildVisualizationTree s)
       = map (fun a => fraction (ratio a)) (batteries s).
Proof.
  intro Hs.
  assert (H : (exists sols, searchOptimalCombination params = Succeeded sols
                            /\ In s sols) \/
              s = baseSolution params).
  { destruct (searchOptimalCombination_cases params)
      as [[_ E] | [(_ & _ & E) | (_ & _ & E)]]; rewrite E in Hs |- *;
      cbn [solutions_of] in Hs.
    - right. now destruct Hs as [<- | []].
    - destruct Hs.
    - left. eauto. }
  destruct H as [(sols & H & Hin) | ->]; [| now split].
  destruct (returned_candidate _ _ _ H Hin)
    as (c & n & rs & Hd & _ & _ & Hn & Hc).
  assert (Hsucc : success s = Some true)
    by (rewrite <- (cand_success _ _ _ _ Hc); unfold data in Hd; congruence).
  assert (Hcount : batteryCount s = Z.of_nat (List.length (batteries s))).
  { assert (E : batteries s = batteries c) by (unfold data in Hd; congruence).
    rewrite (data_batteryCount _ _ Hd), (cand_count _ _ _ _ Hc), E, <- Hn.
    now rewrite <- (cand_ratios _ _ _ _ Hc), length_map. }
  destruct (batteryCount s =? 0)%Z eqn:E0.
  - apply Z.eqb_eq in E0.
    assert (Hb : batteries s = [])
      by (destruct (batteries s); [reflexivity | simpl in Hcount; lia]).
    unfold constructSplitterNetwork, no_network, buildVisualizationTree.
    rewrite Hb, E0, orb_true_r. now split.
  - destruct (network_lines_describe s) as (H1 & _ & _).
    repeat split.
    + apply network_description. unfold no_network. now rewrite Hsucc, E0.
    + exact H1.
    + now rewrite H1, length_map.
    + apply buildVisualizationTree_tree.
Qed.

(** ** What the description does not depend on *)

Lemma buildNetworkTree_lines_flow (fuel : nat) :
  forall (ratios : list Ratio) (flow flow' : Q) (d : nat),
    buildNetworkTree_lines fuel ratios flow d
    = buildNetworkTree_lines fuel ratios flow' d.
Proof.
  induction fuel as [| fuel IH]; intros ratios flow flow' d; [reflexivity |].
  cbn [buildNetworkTree_lines].
  destruct ratios as [| r0 [| r1 [| r2 [| r3 rest]]]]; try reflexivity.
  f_equal. f_equal. apply flat_map_ext. intros [i g]. cbn [fst snd].
  destruct g as [| r g]; [reflexivity |]. f_equal. apply IH.
Qed.

(** X18.  The network that [constructSplitterNetwork] describes is read off
    the ratios of the batteries alone: the flow that it passes down, which
    starts as [totalRatio] and is divided at every splitter, never reaches
    the text, and neither do the battery types or the powers. *)
Theorem network_depends_on_ratios_only (s s' : Solution) :
  map ratio (batteries s) = map ratio (batteries s') ->
  no_network s = no_network s' ->
  constructSplitterNetwork s = constructSplitterNetwork s'.
Proof.
  intros Hr Hn. unfold constructSplitterNetwork. rewrite Hn, Hr.
  destruct (no_network s'); [reflexivity |].
  unfold buildNetworkTree.
  rewrite (buildNetworkTree_lines_flow _ _
             (flow_of s (map ratio (batteries s')))
             (flow_of s' (map ratio (batteries s')))).
  reflexivity.
Qed.

(** ** The branch of a battery in the description *)

(** The numbers of outlets that the splitter lines of a description declare,
    from top to bottom. *)
Definition splitter_declarations (ls : list Line) : list nat :=
  flat_map (fun l => match l with
                     | SplitterLine _ k => [k]
                     | _ => []
                     end) ls.

Lemma splitter_declarations_app (a b : list Line) :
  splitter_declarations (a ++ b)
  = splitter_declarations a ++ splitter_declarations b.
Proof. apply flat_map_app. Qed.

Lemma branch_step_splitter (f : string) (ci : nat) (ls : list Line)
  (s : Split) :
  s = mkSplit "splitter" 2 0 \/ s = mkSplit "splitter" 3 0 ->
  exists ls',
    branch_step f (ci, ls) s = (S ci, ls') /\
    splitter_declarations ls'
    = splitter_declarations ls ++ [splitOutlets s].
Proof.
  intros [-> | ->]; cbn; eexists; (split; [reflexivity |]);
    rewrite !splitter_declarations_app; cbn; now rewrite !app_nil_r.
Qed.

Lemma branch_fold_splitters (f : string) (sequence : list Split) :
  Forall (fun s => s = mkSplit "splitter" 2 0 \/ s = mkSplit "splitter" 3 0)
         sequence ->
  forall (ci : nat) (ls : list Line),
  exists ls',
    fold_left (branch_step f) sequence (ci, ls)
    = ((ci + List.length sequence)%nat, ls') /\
    splitter_declarations ls'
    = splitter_declarations ls ++ map splitOutlets sequence.
Proof.
  induction 1 as [| s l Hs Hl IH]; intros ci ls.
  - exists ls. cbn. now rewrite Nat.add_0_r, app_nil_r.
  - destruct (branch_step_splitter f ci ls s Hs) as (ls1 & E1 & D1).
    destruct (IH (S ci) ls1) as (ls2 & E2 & D2).
    exists ls2. cbn [fold_left List.length map]. rewrite E1, E2, D2, D1.
    split; [f_equal; lia | now rewrite <- app_assoc].
Qed.

(** X19.  The description of the branch of a catalog ratio shows the
    splitters of the ratio, [b] of three outlets and then [a] of two, and
    below them the line of the battery, one step further in for each
    splitter; beyond the exponent 10 it shows the line of the battery
    alone. *)
Theorem branch_shows_splitters (a b : nat) (fractionText : string)
  (depth0 : num) (inputFlow : Q) (indent : nat) :
  let r := mkRatio (ratio_value a b) fractionText depth0 in
  let ls := constructBranch r inputFlow indent in
  splitter_declarations ls
  = (if ((a <=? 10) && (b <=? 10))%nat then repeat 3%nat b ++ repeat 2%nat a
     else []) /\
  last ls (ReturnLeaf 0)
  = (if ((a <=? 10) && (b <=? 10) && (0 <? a + b))%nat
     then BatteryLine (indent + (a + b)) fractionText
     else BatteryDirect indent fractionText).
Proof.
  intros r ls. unfold ls, constructBranch. cbn [value fraction r].
  pose proof (findSplitSequence_splitters (ratio_value a b) inputFlow) as Hs.
  pose proof (findSplitSequence_exponents a b inputFlow) as Hseq.
  destruct (branch_fold_splitters fractionText _ Hs indent [])
    as (ls' & E & Hd).
  rewrite Hseq in *. clear Hseq.
  destruct ((a <=? 10) && (b <=? 10))%nat.
  - cbn [andb].
    destruct (repeat (mkSplit "splitter" 3 0) b
              ++ repeat (mkSplit "splitter" 2 0) a) as [| s l] eqn:El.
    + apply app_eq_nil in El as [Eb Ea].
      destruct a; [| discriminate]. destruct b; [| discriminate].
      now split.
    + rewrite E. split.
      * rewrite splitter_declarations_app, Hd.
        cbn [splitter_declarations flat_map app].
        rewrite app_nil_r, <- El, map_app, !map_repeat. reflexivity.
      * rewrite last_last.
        assert (Hlen : List.length (s :: l) = (b + a)%nat)
          by (rewrite <- El, length_app, !repeat_length; reflexivity).
        rewrite Hlen.
        assert (Hpos : (0 <? a + b)%nat = true).
        { apply Nat.ltb_lt. cbn [List.length] in Hlen. lia. }
        rewrite Hpos. f_equal. lia.
  - now split.
Qed.

(** ** The description is never empty *)

Lemma append_empty (a b : string) :
  (a ++ b)%string = EmptyString -> a = EmptyString /\ b = EmptyString.
Proof. destruct a; simpl; [now split | discriminate]. Qed.

Lemma render_not_empty (l : Line) : render l <> EmptyString.
Proof.
  destruct l; cbn [render]; intro H;
    repeat (apply append_empty in H as [_ H]); discriminate.
Qed.

Lemma text_not_empty (ls : list Line) : ls <> [] -> text ls <> EmptyString.
Proof.
  destruct ls as [| l ls]; [congruence |]. intros _. unfold text.
  cbn [map String.concat]. pose proof (render_not_empty l) as Hl.
  destruct (map render ls); [exact Hl |].
  intro H. apply append_empty in H as [H _]. contradiction.
Qed.

Lemma network_lines_not_empty (ratios : list Ratio) (flow : Q) (d : nat) :
  buildNetworkTree_lines (S (List.length ratios)) ratios flow d <> [].
Proof.
  destruct ratios as [| r rs] eqn:E; [discriminate |]. rewrite <- E.
  destruct (buildNetworkTree_lines_describes (S (List.length ratios)) ratios
              flow d ltac:(lia)) as (H & _ & _).
  intro Hnil. rewrite Hnil, E in H. discriminate.
Qed.

(** X20.  The description that [constructSplitterNetwork] returns is never
    the empty text, so [displayNetwork] always shows it: neither of its two
    replacement texts is ever used. *)
Theorem description_never_empty (s : Solution) :
  description (constructSplitterNetwork s) <> EmptyString /\
  displayNetwork_text s (constructSplitterNetwork s)
  = description (constructSplitterNetwork s).
Proof.
  assert (H : description (constructSplitterNetwork s) <> EmptyString).
  { unfold constructSplitterNetwork.
    destruct (no_network s); [discriminate |].
    unfold buildNetworkTree.
    assert (Ht : text (buildNetworkTree_lines
                         (S (List.length (map ratio (batteries s))))
                         (map ratio (batteries s))
                         (flow_of s (map ratio (batteries s))) 0) <> EmptyString)
      by apply text_not_empty, network_lines_not_empty.
    destruct (map ratio (batteries s)) as [| r [| r' l]]; exact Ht. }
  split; [exact H |].
  unfold displayNetwork_text.
  destruct (String.eqb_spec (description (constructSplitterNetwork s)) "");
    [contradiction | reflexivity].
Qed.

(** ** The branch of a battery in the drawing *)

(** A battery leaf below [k] splitters of two outlets, the other outlet of
    each going to return flow. *)
Definition chain (k : nat) (leaf : NetworkNode) : NetworkNode :=
  Nat.iter k (fun current => SplitterNode 2 [current; ReturnNode]) leaf.

Lemma fold_chain (l : list nat) (leaf : NetworkNode) :
  fold_left (fun current _ => SplitterNode 2 [current; ReturnNode]) l leaf
  = chain (List.length l) leaf.
Proof.
  unfold chain. revert leaf. induction l as [| x l IH]; intro leaf;
    [reflexivity |].
  cbn [fold_left List.length]. rewrite IH.
  now rewrite Nat.iter_succ_r.
Qed.

(** X21.  [buildBatteryBranch] draws at most two splitters above a battery,
    all of two outlets with return flow on the other outlet, whatever the
    depth of its ratio: none for a depth of 0 or 1, one for 2 and two from 3
    on, [Infinity] included. *)
Theorem battery_branch_is_short (battery : Assignment) (index : nat) :
  (exists k, (k <= 2)%nat /\
             buildBatteryBranch battery index
             = chain k (batteryLeaf battery)) /\
  (forall d : nat,
      depth (ratio battery) = Fin (inject_Z (Z.of_nat d)) ->
      buildBatteryBranch battery index
      = chain (Nat.min d 3 - 1) (batteryLeaf battery)) /\
  (depth (ratio battery) = PInf ->
   buildBatteryBranch battery index = chain 2 (batteryLeaf battery)).
Proof.
  unfold buildBatteryBranch.
  split; [| split].
  - destruct (le _ _); [exists 0%nat; split; [lia | reflexivity] |].
    rewrite fold_chain, length_seq.
    eexists. split; [| reflexivity].
    unfold rounds_below, min2.
    destruct (or_else (depth (ratio battery)) (Fin 0)) as [q | | |];
      cbn [is_nan orb le]; try lia.
    + destruct (Qle_bool q 3) eqn:E; cbv iota; qbool.
      * assert (Qceiling q <= 3)%Z; [| lia].
        change 3%Z with (Qceiling 3). now apply Qceiling_resp_le.
      * change (Qceiling 3) with 3%Z. lia.
    + cbv iota. change (Qceiling 3) with 3%Z. lia.
  - intros d Hd. rewrite Hd.
    destruct d as [| [| [| d]]].
    + reflexivity.
    + reflexivity.
    + reflexivity.
    + unfold or_else, truthy.
      assert (E0 : Qeq_bool (inject_Z (Z.of_nat (S (S (S d))))) 0 = false).
      { destruct (Qeq_bool _ 0) eqn:E; [| reflexivity]. qbool.
        unfold Qeq in E. cbn [inject_Z Qnum Qden] in E. lia. }
      rewrite E0. cbn [negb le].
      assert (E1 : Qle_bool (inject_Z (Z.of_nat (S (S (S d))))) 1 = false).
      { qbool. change 1 with (inject_Z 1). rewrite <- Zlt_Qlt. lia. }
      rewrite E1. rewrite fold_chain, length_seq.
      unfold min2. cbn [is_nan orb le].
      assert (E3 : Qle_bool (inject_Z (Z.of_nat (S (S (S d))))) 3
                   = (d =? 0)%nat).
      { destruct (d =? 0)%nat eqn:Ed.
        - apply Nat.eqb_eq in Ed. subst. reflexivity.
        - apply Nat.eqb_neq in Ed. qbool. change 3 with (inject_Z 3).
          rewrite <- Zlt_Qlt. lia. }
      rewrite E3. destruct (d =? 0)%nat eqn:Ed.
      * apply Nat.eqb_eq in Ed. subst. reflexivity.
      * replace (Nat.min (S (S (S d))) 3 - 1)%nat with 2%nat by lia.
        reflexivity.
  - intro Hd. rewrite Hd. reflexivity.
Qed.

(* ================================================================== *)
(** * Scenarios of the further properties                              *)
(* ================================================================== *)

(** The catalog of depth 2 is within the bound of the labels, the one of
    depth 11 is not. *)
Lemma catalog_depth_bounded_witness :
  (2 <= 10)%nat /\
  Forall (fun r =>
            exists a b,
              (a + b <= 2)%nat /\
              value r == 1 / inject_Z (Z.of_N (denominator a b)) /\
              depth r = Fin (inject_Z (Z.of_nat (a + b))) /\
              fraction r
              = (if (a + b =? 0)%nat then "1"
                 else "1/" ++ string_of_N (denominator a b))%string)
         (generateValidRatios 2).
Proof.
  assert (H : (2 <= 10)%nat) by lia.
  split; [exact H |].
  exact (catalog_depth_bounded 2 H).
Defined.

Lemma catalog_depth_unbounded_witness :
  (11 <= 11)%nat /\
  exists r, In r (generateValidRatios 11) /\
            value r == 1 # 2048 /\ depth r = PInf /\
            fraction r = "0.000488"%string.
Proof.
  assert (H : (11 <= 11)%nat) by lia.
  split; [exact H |].
  exact (catalog_depth_unbounded 11 H).
Defined.

(** The assignment returned for the two sample ratios and the target 120:
    the second of the four that are tried. *)
Definition sample_best : BestResult :=
  match findBestVariableAssignment sample_ratios sample_types 120 1 with
  | Some best => best
  | None => mkBestResult NaN []
  end.

Lemma first_best_assignment_wins_witness :
  findBestVariableAssignment sample_ratios sample_types 120 1
  = Some sample_best /\
  exists pre post,
    combinations 1 sample_types sample_ratios
    = pre ++ br_batteries sample_best :: post /\
    forall l, In l pre -> feasible 120 l = true ->
              lt (excess_of 120 (br_batteries sample_best))
                 (excess_of 120 l) = true.
Proof.
  assert (H : findBestVariableAssignment sample_ratios sample_types 120 1
              = Some sample_best) by (vm_compute; reflexivity).
  split; [exact H |].
  exact (first_best_assignment_wins sample_ratios sample_types 120 1
                                    sample_best H).
Defined.

(** The candidate (1/2, 1/3) of the small scenario is found for two
    batteries. *)
Lemma search_is_exhaustive_witness :
  usableRatios (generateValidRatios 1) scenario_small <> [] /\
  Forall (fun r => 0 <= value r) (generateValidRatios 1) /\
  (In half_third_candidate
      (searchForNBatteries (generateValidRatios 1) 2 scenario_small) <->
   exists sel,
     chosen_from (usableRatios (generateValidRatios 1) scenario_small) sel /\
     Z.of_nat (List.length sel) = 2%Z /\
     In half_third_candidate (evaluate_combination 2 scenario_small sel)).
Proof.
  assert (H1 : usableRatios (generateValidRatios 1) scenario_small <> [])
    by (vm_compute; discriminate).
  assert (H2 : Forall (fun r => 0 <= value r) (generateValidRatios 1))
    by (vm_compute; repeat constructor; intro E; discriminate E).
  split; [exact H1 |]. split; [exact H2 |].
  exact (search_is_exhaustive (generateValidRatios 1) 2 scenario_small
                              half_third_candidate H1 H2).
Defined.

(** The solutions of the small scenario. *)
Definition small_solutions : list Solution :=
  solutions_of (searchOptimalCombination scenario_small).

Lemma solution_fields_consistent_witness :
  searchOptimalCombination scenario_small = Succeeded small_solutions /\
  In half_solution small_solutions /\
  consistent scenario_small half_solution.
Proof.
  assert (H1 : searchOptimalCombination scenario_small
               = Succeeded small_solutions) by (vm_compute; reflexivity).
  assert (H2 : In half_solution small_solutions)
    by (vm_compute; left; reflexivity).
  split; [exact H1 |]. split; [exact H2 |].
  exact (solution_fields_consistent scenario_small small_solutions
                                    half_solution H1 H2).
Defined.

Lemma solution_ratios_usable_witness :
  searchOptimalCombination scenario_small = Succeeded small_solutions /\
  In half_solution small_solutions /\
  Forall (fun a =>
            In (ratio a) (generateValidRatios (maxDepth scenario_small)) /\
            le (Fin (value (ratio a)))
               (add (maxFullLoadRatio scenario_small) (Fin 0.0001)) = true)
         (batteries half_solution).
Proof.
  assert (H1 : searchOptimalCombination scenario_small
               = Succeeded small_solutions) by (vm_compute; reflexivity).
  assert (H2 : In half_solution small_solutions)
    by (vm_compute; left; reflexivity).
  split; [exact H1 |]. split; [exact H2 |].
  exact (solution_ratios_usable scenario_small small_solutions
                                half_solution H1 H2).
Defined.

Lemma battery_count_bounded_witness :
  searchOptimalCombination scenario_small = Succeeded small_solutions /\
  In half_solution small_solutions /\
  le (minBatteries scenario_small)
     (Fin (inject_Z (batteryCount half_solution))) = true /\
  le (Fin (inject_Z (batteryCount half_solution)))
     (searchLimit scenario_small) = true /\
  le (Fin (inject_Z (batteryCount half_solution)))
     (add (minBatteries scenario_small) (Fin 3)) = true /\
  (batteryCount half_solution <= 8)%Z /\
  ((exists b, In b (p_batteries scenario_small) /\ 0 < power b) ->
   (1 <= batteryCount half_solution)%Z).
Proof.
  assert (H1 : searchOptimalCombination scenario_small
               = Succeeded small_solutions) by (vm_compute; reflexivity).
  assert (H2 : In half_solution small_solutions)
    by (vm_compute; left; reflexivity).
  split; [exact H1 |]. split; [exact H2 |].
  exact (battery_count_bounded scenario_small small_solutions
                               half_solution H1 H2).
Defined.

Lemma duty_cycle_bounded_witness :
  0 <= R scenario_small /\
  Forall (fun b => 0 < consume b) (p_batteries scenario_small) /\
  searchOptimalCombination scenario_small = Succeeded small_solutions /\
  In half_solution small_solutions /\
  Forall (fun a => exists d, dutyCycle a = Fin d /\ 0 <= d <= 1 /\
                             apower a = Fin (power (typeData a) * d))
         (batteries half_solution).
Proof.
  assert (H1 : 0 <= R scenario_small) by (apply Qle_bool_iff; reflexivity).
  assert (H2 : Forall (fun b => 0 < consume b) (p_batteries scenario_small))
    by (repeat constructor).
  assert (H3 : searchOptimalCombination scenario_small
               = Succeeded small_solutions) by (vm_compute; reflexivity).
  assert (H4 : In half_solution small_solutions)
    by (vm_compute; left; reflexivity).
  split; [exact H1 |]. split; [exact H2 |]. split; [exact H3 |].
  split; [exact H4 |].
  exact (duty_cycle_bounded scenario_small small_solutions half_solution
                            H1 H2 H3 H4).
Defined.

(** A demand of 100 with no battery type, and with the default battery but
    no supply. *)
Definition scenario_no_type : Params := mkParams 100 0 [] 1 3.

Definition scenario_no_supply : Params := mkParams 100 0 [standardBattery] 0 3.

Lemma no_battery_type_fails_witness :
  p_batteries scenario_no_type = [] /\
  P_base scenario_no_type < D scenario_no_type /\
  searchOptimalCombination scenario_no_type
  = Failed "无法找到满足需求的方案" [].
Proof.
  assert (H1 : p_batteries scenario_no_type = []) by reflexivity.
  assert (H2 : P_base scenario_no_type < D scenario_no_type)
    by (apply Qlt_bool_iff; reflexivity).
  split; [exact H1 |]. split; [exact H2 |].
  exact (no_battery_type_fails scenario_no_type H1 H2).
Defined.

Lemma zero_supply_fails_witness :
  R scenario_no_supply == 0 /\
  P_base scenario_no_supply + 0.01 < D scenario_no_supply /\
  searchOptimalCombination scenario_no_supply
  = Failed "无法找到满足需求的方案" [].
Proof.
  assert (H1 : R scenario_no_supply == 0) by reflexivity.
  assert (H2 : P_base scenario_no_supply + 0.01 < D scenario_no_supply)
    by (apply Qlt_bool_iff; reflexivity).
  split; [exact H1 |]. split; [exact H2 |].
  exact (zero_supply_fails scenario_no_supply H1 H2).
Defined.

Lemma first_solution_least_excess_witness :
  searchOptimalCombination scenario_small = Succeeded small_solutions /\
  exists p rest,
    small_solutions = p :: rest /\
    (forall c, In c (collectCandidates scenario_small) ->
               le (excess p) (excess c) = true) /\
    (forall s, In s small_solutions -> le (excess p) (excess s) = true) /\
    (forall c, In c (collectCandidates scenario_small) ->
               le (excess c) (excess p) = true ->
               (batteryCount p <= batteryCount c)%Z).
Proof.
  assert (H : searchOptimalCombination scenario_small
              = Succeeded small_solutions) by (vm_compute; reflexivity).
  split; [exact H |].
  exact (first_solution_least_excess scenario_small small_solutions H).
Defined.

Lemma solutions_have_networks_witness :
  In half_solution (solutions_of (searchOptimalCombination scenario_small)) /\
  if (batteryCount half_solution =? 0)%Z
  then constructSplitterNetwork half_solution
       = mkNetwork "无需分流器网络" (Some []) /\
       buildVisualizationTree half_solution = MainNode []
  else description (constructSplitterNetwork half_solution)
       = text (network_lines half_solution) /\
       battery_texts (network_lines half_solution)
       = map (fun a => fraction (ratio a)) (batteries half_solution) /\
       Z.of_nat (List.length (battery_texts (network_lines half_solution)))
       = batteryCount half_solution /\
       battery_ratios (buildVisualizationTree half_solution)
       = map (fun a => fraction (ratio a)) (batteries half_solution).
Proof.
  assert (H : In half_solution
                 (solutions_of (searchOptimalCombination scenario_small)))
    by (vm_compute; left; reflexivity).
  split; [exact H |].
  exact (solutions_have_networks scenario_small half_solution H).
Defined.

(** The one-battery solution of the small scenario with another total
    ratio, another power and no labels. *)
Definition half_solution_altered : Solution :=
  mkSolution (success half_solution) (batteryCount half_solution)
             (batteries half_solution) (Fin 0) (Fin 0) (Some 1) (Fin 0)
             None None None.

Lemma network_depends_on_ratios_only_witness :
  map ratio (batteries half_solution)
  = map ratio (batteries half_solution_altered) /\
  no_network half_solution = no_network half_solution_altered /\
  constructSplitterNetwork half_solution
  = constructSplitterNetwork half_solution_altered.
Proof.
  assert (H1 : map ratio (batteries half_solution)
               = map ratio (batteries half_solution_altered)) by reflexivity.
  assert (H2 : no_network half_solution = no_network half_solution_altered)
    by reflexivity.
  split; [exact H1 |]. split; [exact H2 |].
  exact (network_depends_on_ratios_only half_solution half_solution_altered
                                        H1 H2).
Defined.
